(** * Layout generator: randomized metal tracks, straps and vias

    A shallow embedding of [layout_generator.py] and the properties of its
    generation pipeline.

    Conventions of the embedding.
    - Python floats are idealised as exact rationals ([Q]); comparisons are
      the boolean comparisons of [Q], so two representations of one number
      behave alike.
    - numpy's [Generator] is a cursor into a stream of draws; [random] maps
      each draw into the half-open unit interval, [uniform lo hi] is
      [lo + (hi - lo) * random], as numpy computes it.
    - gdspy's polygons are non-empty vertex lists with a layer and a datatype;
      a cell is the list of its polygons in insertion order.
    - [while] loops take a fuel argument and answer [None] when it runs out;
      entry points that may raise return an [outcome].
    - The library gdspy keeps for the whole process is a state ([World]) that
      the track generator takes and hands back. *)

From Stdlib Require Import QArith Qround Qabs Qminmax Lqa ZArith Lia List Bool String Sorted.
From stdpp Require Import base list.
Import ListNotations.
Local Open Scope Q_scope.

(** ** Numbers *)

Definition qleb (a b : Q) : bool := Qle_bool a b.
Definition qltb (a b : Q) : bool := negb (Qle_bool b a).

(** Python's two-argument [min] and [max] return their first argument unless
    the second is strictly better. *)
Definition py_min (a b : Q) : Q := if qltb b a then b else a.
Definition py_max (a b : Q) : Q := if qltb a b then b else a.

(** Python's [round] on a float: nearest integer, halves to the even one. *)
Definition py_round (q : Q) : Z :=
  let f := Qfloor q in
  let r := q - inject_Z f in
  if qltb r (1 # 2) then f
  else if qltb (1 # 2) r then (f + 1)%Z
  else if Z.even f then f else (f + 1)%Z.

(** ** The random generator *)

Record Generator : Type := mkGenerator {
  stream : nat -> Q;
  cursor : nat
}.

Definition unit_frac (q : Q) : Q := q - inject_Z (Qfloor q).

Definition random (rng : Generator) : Q * Generator :=
  (unit_frac (stream rng (cursor rng)),
   mkGenerator (stream rng) (S (cursor rng))).

Definition uniform (rng : Generator) (lo hi : Q) : Q * Generator :=
  let '(u, rng') := random rng in (lo + (hi - lo) * u, rng').

(** ** Helper functions *)

Definition _rand_quantized (rng : Generator) (lo hi grid : Q) : Q * Generator :=
  let '(lo, hi) := if qltb hi lo then (hi, lo) else (lo, hi) in
  if qleb grid 0 then uniform rng lo hi
  else
    let '(val, rng') := uniform rng lo hi in
    let q := inject_Z (py_round (val / grid)) * grid in
    (py_min (py_max q lo) hi, rng').

(** ** Geometry: polygons, cells, libraries *)

Definition point : Type := Q * Q.

(** The vertex array of a polygon; gdspy never stores an empty one. *)
Definition points : Type := point * list point.

Definition bbox : Type := Q * Q * Q * Q.

Record Polygon : Type := mkPolygon {
  vertices : points;
  poly_layer : Z;
  poly_datatype : Z
}.

(** [gdspy.Rectangle(point1, point2, layer, datatype)]. *)
Definition Rectangle (p1 p2 : point) (layer datatype : Z) : Polygon :=
  mkPolygon ((fst p1, snd p1),
             [(fst p1, snd p2); (fst p2, snd p2); (fst p2, snd p1)])
            layer datatype.

Record Cell : Type := mkCell {
  name : string;
  polygons : list Polygon
}.

Definition cell_add (cell : Cell) (p : Polygon) : Cell :=
  mkCell (name cell) (polygons cell ++ [p]).

Record GdsLibrary : Type := mkLib {
  lib_unit : Q;
  lib_precision : Q;
  cells : list Cell
}.

(** The exceptions of the code paths: [IndexError] from indexing an empty
    list, [ValueError] from numpy and gdspy. *)
Inductive exn : Type := IndexError | ValueError.

Inductive outcome (A : Type) : Type :=
| Done (a : A)
| Raised (e : exn)
| OutOfFuel.
Arguments Done {A} a.
Arguments Raised {A} e.
Arguments OutOfFuel {A}.

(** [list(lib.cells.values())[0]] *)
Definition first_cell (lib : GdsLibrary) : outcome Cell :=
  match cells lib with
  | [] => Raised IndexError
  | c :: _ => Done c
  end.

(** The first cell is mutated in place: the library sees the new content. *)
Definition set_first_cell (lib : GdsLibrary) (c : Cell) : GdsLibrary :=
  mkLib (lib_unit lib) (lib_precision lib) (c :: tl (cells lib)).

(** ** The collaborators outside the source *)

Class Externals : Type := {
  (** numpy: the stream of draws a seed expands to *)
  seed_sequence : Z -> nat -> Q;
  (** [gdspy.boolean(a, b, 'and', ...)]: [None] for an empty result *)
  boolean_and : list Polygon -> list Polygon -> option (list points)
}.

(** [np.random.default_rng(seed)]: numpy refuses a negative seed with
    [ValueError]; without a seed the stream comes from the operating system's
    entropy, which differs from run to run. *)
Definition default_rng `{Externals} (entropy : nat -> Q) (seed : option Z)
  : outcome Generator :=
  match seed with
  | Some s =>
      if (s <? 0)%Z then Raised ValueError
      else Done (mkGenerator (seed_sequence s) 0)
  | None => Done (mkGenerator entropy 0)
  end.

(** ** The library of the process *)

(** gdspy enters every new cell in one library that lives as long as the
    process, and refuses with [ValueError] a name this library already holds.
    The state is the list of the names it holds, latest first. *)
Definition World : Type := list string.

Definition holds (world : World) (nm : string) : bool :=
  existsb (String.eqb nm) world.

(** [lib.new_cell(name)] on a library that was just created. *)
Definition new_cell (world : World) (nm : string) : outcome Cell * World :=
  if holds world nm then (Raised ValueError, world)
  else (Done (mkCell nm []), nm :: world).

(** ** Metal layer specification *)

Record MetalGenSpec : Type := mkMetalGenSpec {
  wire_cd : Q;
  track_pitch : Q;
  min_t2t : Q;
  max_t2t : Q;
  t2t_grid : Q;
  min_length : Q;
  max_length : Q;
  total_x : Q;
  total_y : Q;
  cell_name : string;
  layer : Z;
  datatype : Z;
  origin : Q * Q;
  seed : option Z
}.

(** ** The track generator *)

Record TrackState : Type := mkTrackState {
  ts_cell : Cell;
  ts_y : Q;
  ts_rng : Generator
}.

Inductive LoopStep (S : Type) : Type :=
| Continue (s : S)
| Break (s : S).
Arguments Continue {S} s.
Arguments Break {S} s.

(** One pass through the body of the [while y < yt] loop. *)
Definition track_body (x_base : Q) (spec : MetalGenSpec) (st : TrackState)
  : LoopStep TrackState :=
  let w := wire_cd spec in
  let yt := total_y spec in
  let '(xo, yo) := origin spec in
  let y := ts_y st in
  let rem := yt - y in
  let l_hi := py_min (max_length spec) rem in
  if qltb l_hi (min_length spec) then Break st
  else
    let '(l, rng) := _rand_quantized (ts_rng st) (min_length spec) l_hi 0 in
    let rect := Rectangle (xo + x_base, yo + y)
                          (xo + x_base + w, yo + y + l)
                          (layer spec) (datatype spec) in
    let cell := cell_add (ts_cell st) rect in
    let y := y + l in
    if qleb yt y then Break (mkTrackState cell y rng)
    else
      let t_hi := py_min (max_t2t spec) (yt - y) in
      if qltb t_hi (min_t2t spec) then Break (mkTrackState cell y rng)
      else
        let '(t, rng) :=
          _rand_quantized rng (min_t2t spec) t_hi (t2t_grid spec) in
        Continue (mkTrackState cell (y + t) rng).

Fixpoint track_loop (fuel : nat) (x_base : Q) (spec : MetalGenSpec)
  (st : TrackState) : option TrackState :=
  if qltb (ts_y st) (total_y spec) then
    match fuel with
    | O => None
    | S fuel' =>
        match track_body x_base spec st with
        | Break st' => Some st'
        | Continue st' => track_loop fuel' x_base spec st'
        end
    end
  else Some st.

(** Returns the cell after the column and the generator it leaves behind. *)
Definition _draw_one_track_vertical (fuel : nat) (cell : Cell) (x_base : Q)
  (spec : MetalGenSpec) (rng : Generator) : option (Cell * Generator) :=
  match track_loop fuel x_base spec (mkTrackState cell 0 rng) with
  | Some st => Some (ts_cell st, ts_rng st)
  | None => None
  end.

Fixpoint column_loop (track_fuel fuel : nat) (spec : MetalGenSpec)
  (cell : Cell) (x : Q) (rng : Generator) : option Cell :=
  if qleb (x + wire_cd spec) (total_x spec) then
    match fuel with
    | O => None
    | S fuel' =>
        match _draw_one_track_vertical track_fuel cell x spec rng with
        | Some (cell', rng') =>
            column_loop track_fuel fuel' spec cell'
                        (x + track_pitch spec) rng'
        | None => None
        end
    end
  else Some cell.

(** [fuel] bounds the iterations of the column loop and of each track loop.
    The cell is created, and entered in the library of the process, before
    the generator is: a run that numpy stops has left its name there. *)
Definition draw_metal_cell_vertical `{Externals} (entropy : nat -> Q)
  (fuel : nat) (world : World) (spec : MetalGenSpec)
  : outcome GdsLibrary * World :=
  match new_cell world (cell_name spec) with
  | (Done cell, world') =>
      (match default_rng entropy (seed spec) with
       | Done rng =>
           match column_loop fuel fuel spec cell 0 rng with
           | Some cell' =>
               Done (mkLib (1 # 1000000000) (1 # 1000000000000) [cell'])
           | None => OutOfFuel
           end
       | Raised e => Raised e
       | OutOfFuel => OutOfFuel
       end, world')
  | (Raised e, world') => (Raised e, world')
  | (OutOfFuel, world') => (OutOfFuel, world')
  end.

(** ** The strap generator *)

Fixpoint strap_loop (fuel : nat) (cell : Cell) (y : Q)
  (length_x width pitch total_y : Q) (layer datatype : Z) : option Cell :=
  if qleb (y + width) total_y then
    match fuel with
    | O => None
    | S fuel' =>
        let rect := Rectangle (0, y) (length_x, y + width) layer datatype in
        strap_loop fuel' (cell_add cell rect) (y + pitch)
                   length_x width pitch total_y layer datatype
    end
  else Some cell.

Definition draw_metal1 (fuel : nat) (lib : GdsLibrary)
  (length_x width pitch total_y : Q) (layer datatype : Z)
  : outcome GdsLibrary :=
  match first_cell lib with
  | Done cell =>
      match strap_loop fuel cell 0 length_x width pitch total_y
                       layer datatype with
      | Some cell' => Done (set_first_cell lib cell')
      | None => OutOfFuel
      end
  | Raised e => Raised e
  | OutOfFuel => OutOfFuel
  end.

(** ** Via specification *)

Record ViaGenSpec : Type := mkViaGenSpec {
  via_x : Q;
  via_y : Q;
  density : Q;
  enclosure_x : Q;
  enclosure_y : Q;
  via_pitch_x : Q;
  via_pitch_y : Q;
  via_layer : Z;
  via_datatype : Z;
  via_seed : Z
}.

(** ** GDS geometry helpers *)

Definition _get_layer_polys (cell : Cell) (layer datatype : Z) : list points :=
  map vertices
      (List.filter (fun p => Z.eqb (poly_layer p) layer &&
                             Z.eqb (poly_datatype p) datatype)
                   (polygons cell)).

Definition array_min (x : Q) (xs : list Q) : Q := fold_left py_min xs x.
Definition array_max (x : Q) (xs : list Q) : Q := fold_left py_max xs x.

Definition _bbox (poly : points) : bbox :=
  let '(p, ps) := poly in
  (array_min (fst p) (map fst ps), array_min (snd p) (map snd ps),
   array_max (fst p) (map fst ps), array_max (snd p) (map snd ps)).

Definition _rect_from_bbox (b : bbox) : option Polygon :=
  let '(x0, y0, x1, y1) := b in
  if qleb x1 x0 || qleb y1 y0 then None
  else Some (Rectangle (x0, y0) (x1, y1) 0 0).

(** Stable insertion sort by a key, as [sorted] and [list.sort] are stable. *)
Fixpoint insert_by {A : Type} (key : A -> Q) (x : A) (l : list A) : list A :=
  match l with
  | [] => [x]
  | y :: l' =>
      if qleb (key x) (key y) then x :: y :: l'
      else y :: insert_by key x l'
  end.

Definition sort_by {A : Type} (key : A -> Q) (l : list A) : list A :=
  fold_right (insert_by key) [] l.

Fixpoint unique_from (tol last : Q) (vals : list Q) : list Q :=
  match vals with
  | [] => []
  | v :: vals' =>
      if qltb tol (Qabs (v - last)) then v :: unique_from tol v vals'
      else unique_from tol last vals'
  end.

Definition _unique_positions (vals : list Q) (tol : Q) : list Q :=
  match sort_by id vals with
  | [] => []
  | v0 :: rest => v0 :: unique_from tol v0 rest
  end.

(** ** Assist wires *)

Fixpoint _assist_polys_horizontal (polys : list points) (ex : Q)
  : list Polygon :=
  match polys with
  | [] => []
  | p :: rest =>
      let '(x0, y0, x1, y1) := _bbox p in
      match _rect_from_bbox (x0 + ex, y0, x1 - ex, y1) with
      | Some r => r :: _assist_polys_horizontal rest ex
      | None => _assist_polys_horizontal rest ex
      end
  end.

Fixpoint _assist_polys_vertical (polys : list points) (ey : Q)
  : list Polygon :=
  match polys with
  | [] => []
  | p :: rest =>
      let '(x0, y0, x1, y1) := _bbox p in
      match _rect_from_bbox (x0, y0 + ey, x1, y1 - ey) with
      | Some r => r :: _assist_polys_vertical rest ey
      | None => _assist_polys_vertical rest ey
      end
  end.

(** ** Via candidates and pitch cleaning *)

Definition _calc_candidates `{Externals} (cell : Cell) (m1_layer m2_layer : Z)
  (ex_nm ey_nm : Q) : list bbox :=
  let polys_m1 := _get_layer_polys cell m1_layer 0 in
  let polys_m2 := _get_layer_polys cell m2_layer 0 in
  let assist_m1 := _assist_polys_horizontal polys_m1 ex_nm in
  let assist_m2 := _assist_polys_vertical polys_m2 ey_nm in
  match assist_m1, assist_m2 with
  | [], _ => []
  | _, [] => []
  | _, _ =>
      match boolean_and assist_m1 assist_m2 with
      | None => []
      | Some polys => map _bbox polys
      end
  end.

Definition size_ok (vx vy : Q) (b : bbox) : bool :=
  let '(x0, y0, x1, y1) := b in
  qleb vx (x1 - x0) && qleb vy (y1 - y0).

Definition center_of (b : bbox) : point :=
  let '(x0, y0, x1, y1) := b in
  ((x0 + x1) * (1 # 2), (y0 + y1) * (1 # 2)).

Fixpoint _sample_centers_from_bboxes (bboxes : list bbox) (vx vy : Q)
  (rng : Generator) (density : Q) : list point :=
  match bboxes with
  | [] => []
  | b :: rest =>
      if size_ok vx vy b then
        let '(u, rng') := random rng in
        if qltb u density
        then center_of b :: _sample_centers_from_bboxes rest vx vy rng' density
        else _sample_centers_from_bboxes rest vx vy rng' density
      else _sample_centers_from_bboxes rest vx vy rng density
  end.

(** [min(range(len(arr)), key=...)]: the first index of least distance. *)
Fixpoint argmin_from (v : Q) (arr : list Q) (i best : Z) (best_d : Q) : Z :=
  match arr with
  | [] => best
  | a :: arr' =>
      let d := Qabs (a - v) in
      if qltb d best_d then argmin_from v arr' (i + 1)%Z i d
      else argmin_from v arr' (i + 1)%Z best best_d
  end.

Definition nearest_idx (v : Q) (arr : list Q) : Z :=
  match arr with
  | [] => (-1)%Z
  | a :: arr' => argmin_from v arr' 1%Z 0%Z (Qabs (a - v))
  end.

(** [m.setdefault(k, []).append(v)] on a dict, which keeps insertion order. *)
Fixpoint setdefault_append {V : Type} (k : Z) (v : V) (m : list (Z * list V))
  : list (Z * list V) :=
  match m with
  | [] => [(k, [v])]
  | (k', vs) :: m' =>
      if Z.eqb k k' then (k', vs ++ [v]) :: m'
      else (k', vs) :: setdefault_append k v m'
  end.

Definition group_by (key : point -> Z) (pts : list point)
  : list (Z * list point) :=
  fold_left (fun m p => setdefault_append (key p) p m) pts [].

(** The greedy sweep over one sorted group. *)
Fixpoint sweep (coord : point -> Q) (pitch : Q) (last : option point)
  (pts : list point) : list point :=
  match pts with
  | [] => []
  | pt :: rest =>
      let keep :=
        match last with
        | None => true
        | Some l => qleb pitch (coord pt - coord l)
        end in
      if keep then pt :: sweep coord pitch (Some pt) rest
      else sweep coord pitch last rest
  end.

(** Group, sort each group, sweep it, and collect the survivors group after
    group: the column loop and the row loop of [_pitch_clean]. *)
Definition clean_axis (key : point -> Z) (coord : point -> Q) (pitch : Q)
  (pts : list point) : list point :=
  concat (map (fun g => sweep coord pitch None (sort_by coord (snd g)))
              (group_by key pts)).

Definition x_tracks_of (polys_m2 : list points) : list Q :=
  _unique_positions
    (map (fun p => (fst (fst (fst (_bbox p))) + snd (fst (_bbox p))) * (1 # 2))
         polys_m2)
    (1 # 1000).

Definition y_tracks_of (polys_m1 : list points) : list Q :=
  _unique_positions
    (map (fun p => (snd (fst (fst (_bbox p))) + snd (_bbox p)) * (1 # 2))
         polys_m1)
    (1 # 1000).

Definition column_of (x_tracks : list Q) (pt : point) : Z :=
  nearest_idx (fst pt) x_tracks.

Definition row_of (y_tracks : list Q) (pt : point) : Z :=
  nearest_idx (snd pt) y_tracks.

Definition column_clean (centers : list point) (vpy : Q)
  (polys_m2 : list points) : list point :=
  clean_axis (column_of (x_tracks_of polys_m2)) snd vpy centers.

Definition row_clean (kept : list point) (vpx : Q)
  (polys_m1 : list points) : list point :=
  clean_axis (row_of (y_tracks_of polys_m1)) fst vpx kept.

Definition _pitch_clean (centers : list point) (vpx vpy : Q)
  (polys_m1 polys_m2 : list points) : list point :=
  match centers with
  | [] => []
  | _ =>
      let kept := column_clean centers vpy polys_m2 in
      row_clean kept vpx polys_m1
  end.

(** ** Via generation *)

Definition via_rect (spec : ViaGenSpec) (c : point) : Polygon :=
  let hx := (1 # 2) * via_x spec in
  let hy := (1 # 2) * via_y spec in
  Rectangle (fst c - hx, snd c - hy) (fst c + hx, snd c + hy)
            (via_layer spec) (via_datatype spec).

(** The centers that reach the emission loop, for the generator [rng]. *)
Definition via_centers `{Externals} (cell : Cell) (spec : ViaGenSpec)
  (rng : Generator) (m1_layer m2_layer : Z) : list point :=
  let bboxes := _calc_candidates cell m1_layer m2_layer
                                 (enclosure_x spec) (enclosure_y spec) in
  let centers := _sample_centers_from_bboxes bboxes (via_x spec) (via_y spec)
                                             rng (density spec) in
  let polys_m1 := _get_layer_polys cell m1_layer 0 in
  let polys_m2 := _get_layer_polys cell m2_layer 0 in
  _pitch_clean centers (via_pitch_x spec) (via_pitch_y spec) polys_m1 polys_m2.

(** Returns the vias and the library with them added to its first cell. The
    via seed is an [int], so the generator never consults the entropy of the
    operating system. *)
Definition generate_vias_from_metals `{Externals} (lib : GdsLibrary)
  (spec : ViaGenSpec) (m1_layer m2_layer : Z)
  : outcome (list Polygon * GdsLibrary) :=
  match first_cell lib with
  | Done cell =>
      match default_rng (fun _ => 0) (Some (via_seed spec)) with
      | Done rng =>
          let vias := map (via_rect spec)
                          (via_centers cell spec rng m1_layer m2_layer) in
          Done (vias,
                set_first_cell lib (fold_left cell_add vias cell))
      | Raised e => Raised e
      | OutOfFuel => OutOfFuel
      end
  | Raised e => Raised e
  | OutOfFuel => OutOfFuel
  end.

(** ** The pipeline of the example usage *)

Record StrapArgs : Type := mkStrapArgs {
  strap_length_x : Q;
  strap_width : Q;
  strap_pitch : Q;
  strap_total_y : Q;
  strap_layer : Z;
  strap_datatype : Z
}.

Definition and_then {A B : Type} (o : outcome A) (k : A -> outcome B)
  : outcome B :=
  match o with
  | Done a => k a
  | Raised e => Raised e
  | OutOfFuel => OutOfFuel
  end.

(** Tracks, then straps, then vias, on one library. *)
Definition pipeline `{Externals} (entropy : nat -> Q) (fuel : nat)
  (world : World) (spec : MetalGenSpec) (strap : StrapArgs)
  (via_spec : ViaGenSpec) (m1_layer m2_layer : Z)
  : outcome (list Polygon * GdsLibrary) * World :=
  let '(tracks, world') := draw_metal_cell_vertical entropy fuel world spec in
  (and_then tracks (fun lib =>
   and_then (draw_metal1 fuel lib (strap_length_x strap) (strap_width strap)
                         (strap_pitch strap) (strap_total_y strap)
                         (strap_layer strap) (strap_datatype strap))
            (fun lib => generate_vias_from_metals lib via_spec
                                                  m1_layer m2_layer)),
   world').

(** ** Vocabulary of the properties *)

(** A seed numpy accepts. *)
Definition seed_ok (seed : option Z) : Prop :=
  match seed with
  | Some s => (0 <= s)%Z
  | None => True
  end.

(** Two generators that stand at the same place of streams with the same
    draws, and two states of the track loop that differ in nothing else. *)
Definition same_draws (g1 g2 : Generator) : Prop :=
  cursor g1 = cursor g2 /\ forall n, stream g1 n = stream g2 n.

Definition same_state (st1 st2 : TrackState) : Prop :=
  ts_cell st1 = ts_cell st2 /\ ts_y st1 = ts_y st2 /\
  same_draws (ts_rng st1) (ts_rng st2).

(** The data-model invariants of a metal specification. *)
Definition valid_metal_spec (spec : MetalGenSpec) : Prop :=
  0 < wire_cd spec /\ 0 < track_pitch spec /\
  0 < min_t2t spec /\ min_t2t spec <= max_t2t spec /\
  0 < min_length spec /\ min_length spec <= max_length spec /\
  0 < total_x spec /\ 0 < total_y spec.

(** The segment of a column that starts at offset [fst iv] and has length
    [snd iv]. *)
Definition track_rect (spec : MetalGenSpec) (x_base : Q) (iv : Q * Q)
  : Polygon :=
  Rectangle (fst (origin spec) + x_base, snd (origin spec) + fst iv)
            (fst (origin spec) + x_base + wire_cd spec,
             snd (origin spec) + fst iv + snd iv)
            (layer spec) (datatype spec).

(** The (start, length) pairs a column may consist of when its cursor stands
    at [y]: segments of legal length below the extent, separated by legal
    gaps. *)
Inductive column_ok (spec : MetalGenSpec) : Q -> list (Q * Q) -> Prop :=
| column_empty y : column_ok spec y []
| column_last y l :
    min_length spec <= l -> l <= max_length spec ->
    y + l <= total_y spec ->
    column_ok spec y [(y, l)]
| column_gap y l t rest :
    min_length spec <= l -> l <= max_length spec ->
    y + l < total_y spec ->
    min_t2t spec <= t -> t <= max_t2t spec -> y + l + t <= total_y spec ->
    column_ok spec (y + l + t) rest ->
    column_ok spec y ((y, l) :: rest).

(** The columns the column loop may draw when its cursor stands at [x]. *)
Inductive columns_ok (spec : MetalGenSpec)
  : Q -> list (Q * list (Q * Q)) -> Prop :=
| columns_empty x : columns_ok spec x []
| columns_next x ivs rest :
    x + wire_cd spec <= total_x spec ->
    column_ok spec 0 ivs ->
    columns_ok spec (x + track_pitch spec) rest ->
    columns_ok spec x ((x, ivs) :: rest).

Definition column_polys (spec : MetalGenSpec) (col : Q * list (Q * Q))
  : list Polygon :=
  map (track_rect spec (fst col)) (snd col).

(** A list in ascending order of a key. *)
Definition ascending {A : Type} (key : A -> Q) (l : list A) : Prop :=
  StronglySorted (fun a b => key a <= key b) l.

(** [b] lies at least [pitch] after [a] along a coordinate. *)
Definition spaced (coord : point -> Q) (pitch : Q) (a b : point) : Prop :=
  pitch <= coord b - coord a.

(** Two points of one track are at least [pitch] apart. *)
Definition same_track_spaced (track : point -> Z) (coord : point -> Q)
  (pitch : Q) (a b : point) : Prop :=
  track a = track b -> pitch <= Qabs (coord a - coord b).

(** Every two consecutive points of a list are at least [pitch] apart. *)
Definition consecutive_spaced (coord : point -> Q) (pitch : Q)
  (l : list point) : Prop :=
  forall (i : nat) (a b : point),
    l !! i = Some a -> l !! S i = Some b -> pitch <= coord b - coord a.

(** The points of a list whose nearest track is [idx], in ascending order
    of a coordinate. *)
Definition track_group (track : point -> Z) (coord : point -> Q) (idx : Z)
  (l : list point) : list point :=
  sort_by coord (List.filter (fun p => Z.eqb (track p) idx) l).

(** The groups of a dict: distinct keys, and every point under its key. *)
Definition grouped (key : point -> Z) (m : list (Z * list point)) : Prop :=
  ForallOrdPairs (fun g1 g2 => fst g1 <> fst g2) m /\
  Forall (fun g => Forall (fun p => key p = fst g) (snd g)) m.

(** The same via specification with another density. *)
Definition with_density (spec : ViaGenSpec) (d : Q) : ViaGenSpec :=
  mkViaGenSpec (via_x spec) (via_y spec) d (enclosure_x spec)
               (enclosure_y spec) (via_pitch_x spec) (via_pitch_y spec)
               (via_layer spec) (via_datatype spec) (via_seed spec).

(** The two corners a rectangle was drawn from. *)
Definition corner1 (p : Polygon) : point := fst (vertices p).
Definition corner2 (p : Polygon) : point :=
  nth 1 (snd (vertices p)) (fst (vertices p)).

(** A segment runs from the height of its first corner to the height of
    its second. *)
Definition seg_bottom (p : Polygon) : Q := snd (corner1 p).
Definition seg_top (p : Polygon) : Q := snd (corner2 p).

(** Every two consecutive segments of a column are a legal gap apart. *)
Definition gaps_legal (spec : MetalGenSpec) (col : list Polygon) : Prop :=
  forall (i : nat) (r1 r2 : Polygon),
    col !! i = Some r1 -> col !! S i = Some r2 ->
    min_t2t spec <= seg_bottom r2 - seg_top r1 /\
    seg_bottom r2 - seg_top r1 <= max_t2t spec.

(** The bounding box of a polygon of a cell. *)
Definition poly_bbox (p : Polygon) : bbox := _bbox (vertices p).
Definition bx0 (b : bbox) : Q := fst (fst (fst b)).
Definition by0 (b : bbox) : Q := snd (fst (fst b)).
Definition bx1 (b : bbox) : Q := snd (fst b).
Definition by1 (b : bbox) : Q := snd b.

(** [inner] lies within [outer]. *)
Definition bbox_within (inner outer : bbox) : Prop :=
  bx0 outer <= bx0 inner /\ bx1 inner <= bx1 outer /\
  by0 outer <= by0 inner /\ by1 inner <= by1 outer.

Definition positive_size (b : bbox) : Prop := bx0 b < bx1 b /\ by0 b < by1 b.

(** The extent of a metal specification. *)
Definition extent (spec : MetalGenSpec) : bbox :=
  (fst (origin spec), snd (origin spec),
   fst (origin spec) + total_x spec, snd (origin spec) + total_y spec).

(** A rectangle of positive size within an extent. *)
Definition contained (ext : bbox) (p : Polygon) : Prop :=
  bbox_within (poly_bbox p) ext /\ positive_size (poly_bbox p).

(** The extent the straps imply. *)
Definition strap_extent (strap : StrapArgs) : bbox :=
  (0, 0, strap_length_x strap, strap_total_y strap).

Definition valid_strap (strap : StrapArgs) : Prop :=
  0 < strap_length_x strap /\ 0 < strap_width strap /\
  0 < strap_pitch strap /\ 0 < strap_total_y strap.

Definition valid_via_spec (spec : ViaGenSpec) : Prop :=
  0 < via_x spec /\ 0 < via_y spec /\
  0 <= density spec /\ density spec <= 1 /\
  0 <= enclosure_x spec /\ 0 <= enclosure_y spec /\
  0 < via_pitch_x spec /\ 0 < via_pitch_y spec.

(** A point within a box, borders included. *)
Definition inside (b : bbox) (v : point) : Prop :=
  bx0 b <= fst v /\ fst v <= bx1 b /\ by0 b <= snd v /\ snd v <= by1 b.

(** What the pipeline relies on from the intersection: every vertex of
    every polygon it returns lies in a rectangle of each operand. *)
Definition kernel_sound `{Externals} : Prop :=
  forall (A B : list Polygon) (polys : list points),
    boolean_and A B = Some polys ->
    forall poly, In poly polys ->
    forall v, In v (fst poly :: snd poly) ->
      (exists a, In a A /\ inside (poly_bbox a) v) /\
      (exists b, In b B /\ inside (poly_bbox b) v).

(** The strap at height [y]. *)
Definition strap_rect (length_x width : Q) (layer datatype : Z) (y : Q)
  : Polygon :=
  Rectangle (0, y) (length_x, y + width) layer datatype.

(** The fuel that suffices for a valid specification. *)
Definition track_bound (spec : MetalGenSpec) : nat :=
  Z.to_nat (Qceiling (total_y spec / min_length spec)).

Definition column_bound (spec : MetalGenSpec) : nat :=
  Z.to_nat (Qceiling (total_x spec / track_pitch spec)) + 1.

Definition fuel_bound (spec : MetalGenSpec) : nat :=
  Nat.max (track_bound spec) (column_bound spec).

(** ** Example data *)

(** A stand-in for the collaborators: a small congruential stream, and the
    intersection of two rectangle sets taken pair by pair (exact when the
    rectangles of each operand do not overlap one another). *)
Definition demo_sequence (s : Z) (n : nat) : Q :=
  Qmake (((s + Z.of_nat n) * 7 + 3) mod 10) 10.

Definition bbox_and (a b : bbox) : list points :=
  let x0 := py_max (bx0 a) (bx0 b) in
  let y0 := py_max (by0 a) (by0 b) in
  let x1 := py_min (bx1 a) (bx1 b) in
  let y1 := py_min (by1 a) (by1 b) in
  if qltb x0 x1 && qltb y0 y1
  then [((x0, y0), [(x1, y0); (x1, y1); (x0, y1)])]
  else [].

Definition rect_boolean_and (A B : list Polygon) : option (list points) :=
  match flat_map (fun a => flat_map (fun b => bbox_and (poly_bbox a)
                                                       (poly_bbox b)) B) A with
  | [] => None
  | polys => Some polys
  end.

Definition demo_externals : Externals :=
  {| seed_sequence := demo_sequence; boolean_and := rect_boolean_and |}.

(** Other collaborators: the same stream for seed 0 and the same kernel, but
    another stream for every other seed. *)
Definition other_externals : Externals :=
  {| seed_sequence := fun s n => if (s =? 0)%Z then demo_sequence 0 n
                                 else 1 # 2;
     boolean_and := rect_boolean_and |}.

Definition demo_entropy (n : nat) : Q := Qmake (Z.of_nat n) 7.

Definition demo_spec : MetalGenSpec :=
  {| wire_cd := 10; track_pitch := 20;
     min_t2t := 5; max_t2t := 10; t2t_grid := 1;
     min_length := 10; max_length := 20;
     total_x := 50; total_y := 60;
     cell_name := "metal_cell"; layer := 111; datatype := 0;
     origin := (0, 0); seed := Some 0%Z |}.

Definition demo_strap : StrapArgs :=
  {| strap_length_x := 50; strap_width := 4; strap_pitch := 10;
     strap_total_y := 60; strap_layer := 110; strap_datatype := 0 |}.

Definition demo_via_spec : ViaGenSpec :=
  {| via_x := 4; via_y := 2; density := 7 # 10;
     enclosure_x := 1; enclosure_y := 1 # 2;
     via_pitch_x := 15; via_pitch_y := 15;
     via_layer := 112; via_datatype := 0; via_seed := 0 |}.

(** The library after tracks and straps of the example, and a via
    specification whose pitches never constrain. *)
Definition value_of {A : Type} (default : A) (o : outcome A) : A :=
  match o with
  | Done a => a
  | _ => default
  end.

Definition empty_lib : GdsLibrary := mkLib 0 0 [].

Definition demo_tracks : GdsLibrary :=
  value_of empty_lib
    (fst (@draw_metal_cell_vertical demo_externals demo_entropy 6 []
                                    demo_spec)).

Definition demo_metal_lib : GdsLibrary :=
  value_of empty_lib
    (and_then (fst (@draw_metal_cell_vertical demo_externals demo_entropy 6
                                              [] demo_spec))
       (fun lib => draw_metal1 6 lib 50 4 10 60 110 0)).

Definition dense_via_spec : ViaGenSpec :=
  {| via_x := 4; via_y := 2; density := 1;
     enclosure_x := 1; enclosure_y := 1 # 2;
     via_pitch_x := 0; via_pitch_y := 0;
     via_layer := 112; via_datatype := 0; via_seed := 0 |}.

(** A specification whose longest segment is shorter than its shortest. *)
Definition bad_spec : MetalGenSpec :=
  {| wire_cd := 10; track_pitch := 20;
     min_t2t := 5; max_t2t := 10; t2t_grid := 1;
     min_length := 10; max_length := 5;
     total_x := 50; total_y := 60;
     cell_name := "metal_cell"; layer := 111; datatype := 0;
     origin := (0, 0); seed := Some 0%Z |}.

(** A strap too narrow for an enclosure of 30 on each side. *)
Definition narrow_poly : points := vertices (Rectangle (0, 0) (50, 4) 110 0).
Definition wide_poly : points := vertices (Rectangle (0, 10) (100, 14) 110 0).

(** The example tracks moved away from the straps. *)
Definition shifted_spec : MetalGenSpec :=
  {| wire_cd := 10; track_pitch := 20;
     min_t2t := 5; max_t2t := 10; t2t_grid := 1;
     min_length := 10; max_length := 20;
     total_x := 50; total_y := 60;
     cell_name := "metal_cell"; layer := 111; datatype := 0;
     origin := (100, 100); seed := Some 0%Z |}.

(** The example via specification with every candidate sampled. *)
Definition full_via_spec : ViaGenSpec := with_density demo_via_spec 1.

(** Two straps and a track segment; an enclosure of 30 collapses the first
    strap. *)
Definition assist_cell : Cell :=
  mkCell "assist"
         [Rectangle (0, 0) (50, 4) 110 0;
          Rectangle (0, 10) (100, 14) 110 0;
          Rectangle (40, 0) (50, 20) 111 0].

Definition assist_cell_without : Cell :=
  mkCell "assist"
         [Rectangle (0, 10) (100, 14) 110 0;
          Rectangle (40, 0) (50, 20) 111 0].

(** The example tracks without a seed. *)
Definition unseeded_spec : MetalGenSpec :=
  {| wire_cd := 10; track_pitch := 20;
     min_t2t := 5; max_t2t := 10; t2t_grid := 1;
     min_length := 10; max_length := 20;
     total_x := 50; total_y := 60;
     cell_name := "metal_cell"; layer := 111; datatype := 0;
     origin := (0, 0); seed := None |}.

Definition demo_cell : Cell :=
  value_of (mkCell "" []) (first_cell demo_metal_lib).

(** A generator whose every draw is 7/10. *)
Definition demo_rng : Generator := mkGenerator (fun _ => 7 # 10) 0.

(** ** Vocabulary of the further properties *)

(** [n] positions from [start], one [step] apart, as a cursor that adds the
    step once per iteration reaches them. *)
Fixpoint positions (n : nat) (start step : Q) : list Q :=
  match n with
  | O => []
  | S n' => start :: positions n' (start + step) step
  end.

(** Where the cursor stands after [n] steps. *)
Fixpoint advance (n : nat) (start step : Q) : Q :=
  match n with
  | O => start
  | S n' => advance n' (start + step) step
  end.

(** In exact arithmetic, how many rectangles of a given width a fixed pitch
    places in an extent. *)
Definition pitch_count (width pitch total : Q) : nat :=
  if qleb width total
  then (Z.to_nat (Qfloor ((total - width) / pitch)) + 1)%nat
  else O.

(** The boxes the assist shrinks leave. *)
Definition shrink_h (ex : Q) (b : bbox) : bbox :=
  (bx0 b + ex, by0 b, bx1 b - ex, by1 b).

Definition shrink_v (ey : Q) (b : bbox) : bbox :=
  (bx0 b, by0 b + ey, bx1 b, by1 b - ey).

Definition degenerate (b : bbox) : bool :=
  qleb (bx1 b) (bx0 b) || qleb (by1 b) (by0 b).

(** The vertices of a polygon, as a list. *)
Definition vertex_list (poly : points) : list point := fst poly :: snd poly.

(** A column filled to the top: above its last segment there is no room for
    the widest gap and the shortest segment; a column without segments has an
    extent too short for one. *)
Definition column_filled (spec : MetalGenSpec) (ivs : list (Q * Q)) : Prop :=
  match last ivs with
  | Some iv => total_y spec - (fst iv + snd iv)
               < max_t2t spec + min_length spec
  | None => total_y spec < min_length spec
  end.

(** A layer and datatype other than the pair a metal query asks for. *)
Definition other_key (layer datatype m_layer : Z) : Prop :=
  layer <> m_layer \/ datatype <> 0%Z.

(** ** Basic facts on the number model *)

Lemma qleb_le (a b : Q) : qleb a b = true <-> a <= b.
Proof. unfold qleb. apply Qle_bool_iff. Qed.

Lemma qleb_gt (a b : Q) : qleb a b = false <-> b < a.
Proof.
  split; intros H.
  - apply Qnot_le_lt. intros Hle. apply qleb_le in Hle. congruence.
  - destruct (qleb a b) eqn:E; [apply qleb_le in E; lra | reflexivity].
Qed.

Lemma qltb_lt (a b : Q) : qltb a b = true <-> a < b.
Proof.
  unfold qltb. rewrite negb_true_iff. apply qleb_gt.
Qed.

Lemma qltb_ge (a b : Q) : qltb a b = false <-> b <= a.
Proof.
  unfold qltb. rewrite negb_false_iff. apply qleb_le.
Qed.

Lemma py_min_spec (a b : Q) :
  (b < a /\ py_min a b = b) \/ (a <= b /\ py_min a b = a).
Proof.
  unfold py_min. destruct (qltb b a) eqn:E.
  - left. apply qltb_lt in E. auto.
  - right. apply qltb_ge in E. auto.
Qed.

Lemma py_max_spec (a b : Q) :
  (a < b /\ py_max a b = b) \/ (b <= a /\ py_max a b = a).
Proof.
  unfold py_max. destruct (qltb a b) eqn:E.
  - left. apply qltb_lt in E. auto.
  - right. apply qltb_ge in E. auto.
Qed.

Lemma unit_frac_range (q : Q) : 0 <= unit_frac q /\ unit_frac q < 1.
Proof.
  unfold unit_frac.
  pose proof (Qfloor_le q) as Hlo.
  pose proof (Qlt_floor q) as Hhi.
  rewrite inject_Z_plus in Hhi.
  change (inject_Z 1) with 1 in Hhi.
  split; lra.
Qed.

Lemma random_range (rng : Generator) :
  0 <= fst (random rng) /\ fst (random rng) < 1.
Proof. apply unit_frac_range. Qed.

Lemma uniform_range (rng : Generator) (lo hi : Q) :
  lo <= hi ->
  lo <= fst (uniform rng lo hi) /\ fst (uniform rng lo hi) <= hi /\
  (lo < hi -> fst (uniform rng lo hi) < hi).
Proof.
  intros Hle. unfold uniform.
  destruct (random rng) as [u rng'] eqn:E. simpl.
  pose proof (random_range rng) as [H0 H1]. rewrite E in H0, H1. simpl in H0, H1.
  repeat split; try nra.
Qed.

Lemma uniform_state (rng : Generator) (lo hi : Q) :
  snd (uniform rng lo hi) = snd (random rng).
Proof. unfold uniform. destruct (random rng); reflexivity. Qed.

(** Python's [round] answers a nearest integer. *)
Lemma py_round_nearest (q : Q) : Qabs (q - inject_Z (py_round q)) <= 1 # 2.
Proof.
  unfold py_round.
  pose proof (Qfloor_le q) as Hlo.
  pose proof (Qlt_floor q) as Hhi.
  rewrite inject_Z_plus in Hhi. change (inject_Z 1) with 1 in Hhi.
  destruct (qltb (q - inject_Z (Qfloor q)) (1 # 2)) eqn:E1.
  - apply qltb_lt in E1. apply Qabs_Qle_condition. split; lra.
  - apply qltb_ge in E1.
    destruct (qltb (1 # 2) (q - inject_Z (Qfloor q))) eqn:E2.
    + rewrite inject_Z_plus. change (inject_Z 1) with 1.
      apply Qabs_Qle_condition. split; lra.
    + apply qltb_ge in E2.
      destruct (Z.even (Qfloor q)).
      * apply Qabs_Qle_condition. split; lra.
      * rewrite inject_Z_plus. change (inject_Z 1) with 1.
        apply Qabs_Qle_condition. split; lra.
Qed.

Lemma quantized_nearest (v grid : Q) :
  0 < grid ->
  Qabs (v - inject_Z (py_round (v / grid)) * grid) <= grid * (1 # 2).
Proof.
  intros Hg.
  pose proof (py_round_nearest (v / grid)) as H.
  apply Qabs_Qle_condition in H. destruct H as [H1 H2].
  assert (Hv : v == (v / grid) * grid) by (field; lra).
  apply Qabs_Qle_condition. split.
  - assert (- (1 # 2) * grid <= (v / grid - inject_Z (py_round (v / grid)))
                                 * grid)
      by (apply Qmult_le_compat_r; lra).
    rewrite Hv at 1. lra.
  - assert ((v / grid - inject_Z (py_round (v / grid))) * grid
            <= (1 # 2) * grid)
      by (apply Qmult_le_compat_r; lra).
    rewrite Hv at 1. lra.
Qed.

(** ** The quantized range sampler *)

Lemma clamp_range (q lo hi : Q) :
  lo <= hi -> lo <= py_min (py_max q lo) hi /\ py_min (py_max q lo) hi <= hi.
Proof.
  intros Hle.
  destruct (py_max_spec q lo) as [[H1 E1] | [H1 E1]]; rewrite E1;
    destruct (py_min_spec lo hi) as [[H2 E2] | [H2 E2]];
    destruct (py_min_spec q hi) as [[H3 E3] | [H3 E3]];
    try rewrite E2; try rewrite E3; split; lra.
Qed.

Lemma rand_quantized_state (rng : Generator) (lo hi grid : Q) :
  snd (_rand_quantized rng lo hi grid) = snd (random rng).
Proof.
  unfold _rand_quantized.
  destruct (qltb hi lo); destruct (qleb grid 0);
    try apply uniform_state;
    match goal with
    | |- context [uniform ?g ?a ?b] =>
        pose proof (uniform_state g a b) as Hs;
        destruct (uniform g a b) as [v g']; simpl in *; exact Hs
    end.
Qed.

Lemma rand_quantized_ordered (rng : Generator) (lo hi grid : Q) :
  lo <= hi ->
  lo <= fst (_rand_quantized rng lo hi grid) /\
  fst (_rand_quantized rng lo hi grid) <= hi.
Proof.
  intros Hle. unfold _rand_quantized.
  destruct (qltb hi lo) eqn:Hswap.
  - apply qltb_lt in Hswap. lra.
  - destruct (qleb grid 0).
    + pose proof (uniform_range rng lo hi Hle) as (H1 & H2 & _). auto.
    + destruct (uniform rng lo hi) as [val rng']. simpl.
      apply clamp_range. exact Hle.
Qed.

(** C5. The sampler is total and its value lies between the smaller and the
    larger of its two bounds; it consumes one draw. After the swap of an
    inverted range, a grid that is not positive gives the uniform draw itself
    (below the upper bound when the range is not a single point), and a
    positive grid gives the draw rounded to a nearest multiple of the grid,
    at most half a grid step away, and then clamped into the range. *)
Theorem rand_quantized_spec (rng : Generator) (lo hi grid : Q) :
  let lo' := if qltb hi lo then hi else lo in
  let hi' := if qltb hi lo then lo else hi in
  let r := fst (_rand_quantized rng lo hi grid) in
  let v := fst (uniform rng lo' hi') in
  (Qmin lo hi <= r /\ r <= Qmax lo hi) /\
  (lo' <= v /\ v <= hi' /\ (lo' < hi' -> v < hi')) /\
  (grid <= 0 -> r = v) /\
  (0 < grid ->
   r = py_min (py_max (inject_Z (py_round (v / grid)) * grid) lo') hi' /\
   Qabs (v - inject_Z (py_round (v / grid)) * grid) <= grid * (1 # 2)) /\
  snd (_rand_quantized rng lo hi grid) = snd (random rng).
Proof.
  intros lo' hi' r v.
  assert (Hord : lo' <= hi').
  { subst lo' hi'. destruct (qltb hi lo) eqn:E.
    - apply qltb_lt in E. lra.
    - apply qltb_ge in E. exact E. }
  assert (Hmin : Qmin lo hi == lo' /\ Qmax lo hi == hi').
  { subst lo' hi'. destruct (qltb hi lo) eqn:E.
    - apply qltb_lt in E. split; [apply Q.min_r | apply Q.max_l]; lra.
    - apply qltb_ge in E. split; [apply Q.min_l | apply Q.max_r]; lra. }
  destruct Hmin as [Hmin Hmax].
  assert (Hr : r = fst (_rand_quantized rng lo' hi' grid)).
  { subst r lo' hi'. unfold _rand_quantized.
    destruct (qltb hi lo) eqn:E; [|rewrite E; reflexivity].
    assert (E' : qltb lo hi = false) by (apply qltb_ge; apply qltb_lt in E; lra).
    rewrite E'. reflexivity. }
  assert (Hns : qltb hi' lo' = false) by (apply qltb_ge; exact Hord).
  split; [|split; [|split; [|split]]].
  - rewrite Hmin, Hmax, Hr. apply rand_quantized_ordered. exact Hord.
  - subst v. apply uniform_range. exact Hord.
  - intros Hg. rewrite Hr. unfold _rand_quantized. rewrite Hns.
    apply qleb_le in Hg. rewrite Hg. reflexivity.
  - intros Hg. split; [|apply quantized_nearest; exact Hg].
    rewrite Hr. unfold _rand_quantized. rewrite Hns.
    apply qleb_gt in Hg. rewrite Hg. subst v.
    destruct (uniform rng lo' hi') as [val rng']. reflexivity.
  - apply rand_quantized_state.
Qed.

Lemma rand_quantized_spec_witness :
  fst (_rand_quantized demo_rng 10 5 2) == 8 /\
  Qmin 10 5 <= fst (_rand_quantized demo_rng 10 5 2) /\
  fst (_rand_quantized demo_rng 10 5 2) <= Qmax 10 5 /\
  fst (uniform demo_rng 5 10) == 17 # 2.
Proof.
  split; [vm_compute; reflexivity|].
  split; [|split; [|vm_compute; reflexivity]].
  - exact (proj1 (proj1 (rand_quantized_spec demo_rng 10 5 2))).
  - exact (proj2 (proj1 (rand_quantized_spec demo_rng 10 5 2))).
Defined.

(** ** The track generator: one pass of the loop body *)

(** What a pass does: it stops before drawing, or it draws one segment of a
    legal length and then either stops or skips a legal gap. *)
Lemma track_body_inv (x_base : Q) (spec : MetalGenSpec) (st : TrackState) :
  track_body x_base spec st = Break st \/
  exists l rng1,
    let y := ts_y st in
    let cell := cell_add (ts_cell st) (track_rect spec x_base (y, l)) in
    min_length spec <= l /\ l <= max_length spec /\
    y + l <= total_y spec /\
    (track_body x_base spec st = Break (mkTrackState cell (y + l) rng1) \/
     exists t rng2,
       y + l < total_y spec /\
       min_t2t spec <= t /\ t <= max_t2t spec /\
       y + l + t <= total_y spec /\
       track_body x_base spec st
       = Continue (mkTrackState cell (y + l + t) rng2)).
Proof.
  unfold track_body, track_rect.
  destruct (origin spec) as [xo yo]. simpl fst; simpl snd.
  destruct (qltb (py_min (max_length spec) (total_y spec - ts_y st))
                 (min_length spec)) eqn:Hl; [left; reflexivity|].
  right. apply qltb_ge in Hl.
  pose proof (rand_quantized_ordered (ts_rng st) (min_length spec)
                (py_min (max_length spec) (total_y spec - ts_y st)) 0 Hl)
    as [Hl1 Hl2].
  destruct (_rand_quantized (ts_rng st) (min_length spec)
              (py_min (max_length spec) (total_y spec - ts_y st)) 0)
    as [l rng1]. simpl in Hl1, Hl2.
  exists l, rng1. cbv zeta.
  assert (Hlm : l <= max_length spec /\ ts_y st + l <= total_y spec).
  { destruct (py_min_spec (max_length spec) (total_y spec - ts_y st))
      as [[H1 E] | [H1 E]]; rewrite E in Hl2; split; lra. }
  destruct Hlm as [Hlm Hly].
  repeat split; try assumption.
  destruct (qleb (total_y spec) (ts_y st + l)) eqn:Hy; [left; reflexivity|].
  apply qleb_gt in Hy.
  destruct (qltb (py_min (max_t2t spec) (total_y spec - (ts_y st + l)))
                 (min_t2t spec)) eqn:Ht; [left; reflexivity|].
  right. apply qltb_ge in Ht.
  pose proof (rand_quantized_ordered rng1 (min_t2t spec)
                (py_min (max_t2t spec) (total_y spec - (ts_y st + l)))
                (t2t_grid spec) Ht) as [Ht1 Ht2].
  destruct (_rand_quantized rng1 (min_t2t spec)
              (py_min (max_t2t spec) (total_y spec - (ts_y st + l)))
              (t2t_grid spec)) as [t rng2]. simpl in Ht1, Ht2.
  exists t, rng2.
  destruct (py_min_spec (max_t2t spec) (total_y spec - (ts_y st + l)))
    as [[H1 E] | [H1 E]]; rewrite E in Ht2; repeat split; try lra.
Qed.

(** Every pass that continues moves the cursor by at least the least
    segment length and the least gap. *)
Lemma track_body_advance (x_base : Q) (spec : MetalGenSpec)
  (st st' : TrackState) :
  track_body x_base spec st = Continue st' ->
  ts_y st + min_length spec + min_t2t spec <= ts_y st' /\
  ts_y st' <= total_y spec.
Proof.
  intros H.
  destruct (track_body_inv x_base spec st) as [E | (l & rng1 & Hb)].
  - congruence.
  - cbv zeta in Hb. destruct Hb as (H1 & H2 & H3 & [E | (t & rng2 & Hc)]).
    + congruence.
    + destruct Hc as (H4 & H5 & H6 & H7 & E). rewrite E in H.
      injection H as <-. simpl. split; lra.
Qed.

(** ** The track generator: one column *)

Lemma track_loop_column (fuel : nat) (x_base : Q) (spec : MetalGenSpec) :
  forall st st',
    track_loop fuel x_base spec st = Some st' ->
    exists ivs,
      polygons (ts_cell st')
      = polygons (ts_cell st) ++ map (track_rect spec x_base) ivs /\
      column_ok spec (ts_y st) ivs.
Proof.
  induction fuel as [|fuel IH]; intros st st' H; simpl in H.
  - destruct (qltb (ts_y st) (total_y spec)); [discriminate|].
    injection H as <-. exists []. rewrite app_nil_r. split; [reflexivity|].
    constructor.
  - destruct (qltb (ts_y st) (total_y spec)) eqn:Hy.
    2:{ injection H as <-. exists []. rewrite app_nil_r.
        split; [reflexivity | constructor]. }
    destruct (track_body_inv x_base spec st) as [E | (l & rng1 & Hb)].
    + rewrite E in H. injection H as <-. exists []. rewrite app_nil_r.
      split; [reflexivity | constructor].
    + cbv zeta in Hb. destruct Hb as (H1 & H2 & H3 & [E | (t & rng2 & Hc)]).
      * rewrite E in H. injection H as <-.
        exists [(ts_y st, l)]. simpl. split; [reflexivity|].
        apply column_last; lra.
      * destruct Hc as (H4 & H5 & H6 & H7 & E). rewrite E in H.
        apply IH in H. destruct H as (ivs & Hp & Hc). simpl in Hp, Hc.
        exists ((ts_y st, l) :: ivs). split.
        -- rewrite Hp. rewrite <- app_assoc. reflexivity.
        -- apply column_gap with (t := t); try lra. exact Hc.
Qed.

Lemma draw_one_track_column (fuel : nat) (cell : Cell) (x_base : Q)
  (spec : MetalGenSpec) (rng : Generator) (cell' : Cell) (rng' : Generator) :
  _draw_one_track_vertical fuel cell x_base spec rng = Some (cell', rng') ->
  exists ivs,
    polygons cell' = polygons cell ++ map (track_rect spec x_base) ivs /\
    column_ok spec 0 ivs.
Proof.
  unfold _draw_one_track_vertical. intros H.
  destruct (track_loop fuel x_base spec (mkTrackState cell 0 rng)) as [st|] eqn:E;
    [|discriminate].
  injection H as <- <-.
  apply track_loop_column in E. exact E.
Qed.

(** ** The track generator: all columns *)

Lemma column_loop_columns (track_fuel fuel : nat) (spec : MetalGenSpec) :
  forall cell x rng cell',
    column_loop track_fuel fuel spec cell x rng = Some cell' ->
    exists cols,
      polygons cell' = polygons cell ++ concat (map (column_polys spec) cols) /\
      columns_ok spec x cols.
Proof.
  induction fuel as [|fuel IH]; intros cell x rng cell' H; simpl in H.
  - destruct (qleb (x + wire_cd spec) (total_x spec)); [discriminate|].
    injection H as <-. exists []. simpl. rewrite app_nil_r.
    split; [reflexivity | constructor].
  - destruct (qleb (x + wire_cd spec) (total_x spec)) eqn:Hx.
    2:{ injection H as <-. exists []. simpl. rewrite app_nil_r.
        split; [reflexivity | constructor]. }
    apply qleb_le in Hx.
    destruct (_draw_one_track_vertical track_fuel cell x spec rng)
      as [[cell1 rng1]|] eqn:E; [|discriminate].
    apply draw_one_track_column in E. destruct E as (ivs & Hp1 & Hc1).
    apply IH in H. destruct H as (cols & Hp & Hc).
    exists ((x, ivs) :: cols). split.
    + rewrite Hp, Hp1. simpl. unfold column_polys at 2. simpl.
      rewrite <- app_assoc. reflexivity.
    + constructor; assumption.
Qed.

(** ** Fuel: more of it never changes a result *)

Lemma track_loop_fuel_mono (x_base : Q) (spec : MetalGenSpec) :
  forall fuel fuel' st st',
    (fuel <= fuel')%nat ->
    track_loop fuel x_base spec st = Some st' ->
    track_loop fuel' x_base spec st = Some st'.
Proof.
  induction fuel as [|fuel IH]; intros fuel' st st' Hle H; simpl in H.
  - destruct (qltb (ts_y st) (total_y spec)) eqn:Hy; [discriminate|].
    destruct fuel'; simpl; rewrite Hy; exact H.
  - destruct fuel' as [|fuel']; [lia|]. simpl.
    destruct (qltb (ts_y st) (total_y spec)); [|exact H].
    destruct (track_body x_base spec st); [|exact H].
    apply IH; [lia | exact H].
Qed.

Lemma draw_one_track_fuel_mono (fuel fuel' : nat) (cell : Cell) (x_base : Q)
  (spec : MetalGenSpec) (rng : Generator) (r : Cell * Generator) :
  (fuel <= fuel')%nat ->
  _draw_one_track_vertical fuel cell x_base spec rng = Some r ->
  _draw_one_track_vertical fuel' cell x_base spec rng = Some r.
Proof.
  unfold _draw_one_track_vertical. intros Hle H.
  destruct (track_loop fuel x_base spec (mkTrackState cell 0 rng)) as [st|] eqn:E;
    [|discriminate].
  rewrite (track_loop_fuel_mono x_base spec fuel fuel' _ st Hle E). exact H.
Qed.

Lemma column_loop_fuel_mono (spec : MetalGenSpec) :
  forall fuel fuel' tf tf' cell x rng cell',
    (fuel <= fuel')%nat -> (tf <= tf')%nat ->
    column_loop tf fuel spec cell x rng = Some cell' ->
    column_loop tf' fuel' spec cell x rng = Some cell'.
Proof.
  induction fuel as [|fuel IH]; intros fuel' tf tf' cell x rng cell' Hle Ht H;
    simpl in H.
  - destruct (qleb (x + wire_cd spec) (total_x spec)) eqn:Hx; [discriminate|].
    destruct fuel'; simpl; rewrite Hx; exact H.
  - destruct fuel' as [|fuel']; [lia|]. simpl.
    destruct (qleb (x + wire_cd spec) (total_x spec)); [|exact H].
    destruct (_draw_one_track_vertical tf cell x spec rng) as [[c1 g1]|] eqn:E;
      [|discriminate].
    rewrite (draw_one_track_fuel_mono tf tf' cell x spec rng _ Ht E).
    eapply IH; [lia | exact Ht | exact H].
Qed.

(** ** Termination of the track generator *)

Lemma inject_Z_S (n : nat) :
  inject_Z (Z.of_nat (S n)) == inject_Z (Z.of_nat n) + 1.
Proof.
  rewrite Nat2Z.inj_succ. unfold Z.succ. rewrite inject_Z_plus. reflexivity.
Qed.

Lemma ceiling_bound (a b : Q) :
  0 < b -> a <= inject_Z (Z.of_nat (Z.to_nat (Qceiling (a / b)))) * b.
Proof.
  intros Hb.
  assert (H1 : a / b <= inject_Z (Qceiling (a / b))) by apply Qle_ceiling.
  assert (H2 : inject_Z (Qceiling (a / b))
               <= inject_Z (Z.of_nat (Z.to_nat (Qceiling (a / b))))).
  { rewrite <- Zle_Qle. lia. }
  assert (H3 : a == (a / b) * b).
  { field. lra. }
  rewrite H3 at 1. apply Qmult_le_compat_r; lra.
Qed.

Lemma track_loop_terminates (x_base : Q) (spec : MetalGenSpec) :
  0 < min_length spec -> 0 <= min_t2t spec ->
  forall fuel st,
    total_y spec - ts_y st <= inject_Z (Z.of_nat fuel) * min_length spec ->
    exists st', track_loop fuel x_base spec st = Some st'.
Proof.
  intros Hml Hmt.
  induction fuel as [|fuel IH]; intros st Hm; simpl.
  - destruct (qltb (ts_y st) (total_y spec)) eqn:Hy; [|eauto].
    apply qltb_lt in Hy. change (inject_Z (Z.of_nat 0)) with 0 in Hm. lra.
  - destruct (qltb (ts_y st) (total_y spec)) eqn:Hy; [|eauto].
    destruct (track_body x_base spec st) as [st1|st1] eqn:E; [|eauto].
    apply IH. apply track_body_advance in E. destruct E as [E _].
    rewrite inject_Z_S in Hm. nra.
Qed.

Lemma column_loop_terminates (spec : MetalGenSpec) (track_fuel : nat) :
  0 < min_length spec -> 0 <= min_t2t spec ->
  total_y spec <= inject_Z (Z.of_nat track_fuel) * min_length spec ->
  forall fuel cell x rng,
    total_x spec - wire_cd spec - x
    < inject_Z (Z.of_nat fuel) * track_pitch spec ->
    exists cell', column_loop track_fuel fuel spec cell x rng = Some cell'.
Proof.
  intros Hml Hmt Htf.
  induction fuel as [|fuel IH]; intros cell x rng Hm; simpl.
  - destruct (qleb (x + wire_cd spec) (total_x spec)) eqn:Hx; [|eauto].
    apply qleb_le in Hx. change (inject_Z (Z.of_nat 0)) with 0 in Hm. lra.
  - destruct (qleb (x + wire_cd spec) (total_x spec)) eqn:Hx; [|eauto].
    unfold _draw_one_track_vertical.
    destruct (track_loop_terminates x spec Hml Hmt track_fuel
                (mkTrackState cell 0 rng)) as [st' E].
    { simpl. lra. }
    rewrite E. apply IH. rewrite inject_Z_S in Hm. lra.
Qed.

(** ** Gap legality *)

Lemma column_ok_head (spec : MetalGenSpec) (y : Q) (iv : Q * Q)
  (rest : list (Q * Q)) :
  column_ok spec y (iv :: rest) -> fst iv = y.
Proof. intros H. inversion H; reflexivity. Qed.

Lemma column_ok_gaps (spec : MetalGenSpec) (x_base : Q) (y : Q)
  (ivs : list (Q * Q)) :
  column_ok spec y ivs ->
  gaps_legal spec (map (track_rect spec x_base) ivs).
Proof.
  intros H. induction H as [y | y l Hl1 Hl2 Hy | y l t rest Hl1 Hl2 Hy Ht1 Ht2 Hyt Hrest IH];
    intros i r1 r2 H1 H2.
  - destruct i; discriminate.
  - destruct i; simpl in H2; [discriminate | destruct i; discriminate].
  - destruct i as [|i].
    + simpl in H1. injection H1 as <-.
      destruct rest as [|[a l'] rest']; [discriminate|].
      simpl in H2. injection H2 as <-.
      apply column_ok_head in Hrest. simpl in Hrest. subst a.
      unfold seg_bottom, seg_top, corner1, corner2, track_rect. simpl.
      split; lra.
    + simpl in H1, H2. exact (IH i r1 r2 H1 H2).
Qed.

Lemma columns_ok_gaps (spec : MetalGenSpec) (x : Q)
  (cols : list (Q * list (Q * Q))) :
  columns_ok spec x cols ->
  Forall (fun col => gaps_legal spec (column_polys spec col)) cols.
Proof.
  intros H. induction H as [x | x ivs rest Hx Hc Hrest IH]; constructor.
  - unfold column_polys. simpl. eapply column_ok_gaps. exact Hc.
  - exact IH.
Qed.

Lemma holds_In (world : World) (nm : string) :
  holds world nm = true <-> In nm world.
Proof.
  unfold holds. rewrite existsb_exists. split.
  - intros (x & Hx & E). apply String.eqb_eq in E. subst x. exact Hx.
  - intros Hin. exists nm. split; [exact Hin | apply String.eqb_refl].
Qed.

Lemma holds_free (world : World) (nm : string) :
  ~ In nm world -> holds world nm = false.
Proof.
  intros Hn. destruct (holds world nm) eqn:E; [|reflexivity].
  apply holds_In in E. contradiction.
Qed.

Lemma default_rng_ok `{Externals} (entropy : nat -> Q) (seed : option Z) :
  seed_ok seed -> exists rng, default_rng entropy seed = Done rng.
Proof.
  destruct seed as [s|]; simpl; intros Hs; [|eauto].
  destruct (s <? 0)%Z eqn:E; [apply Z.ltb_lt in E; lia | eauto].
Qed.

Lemma default_rng_negative `{Externals} (entropy : nat -> Q) (s : Z) :
  (s < 0)%Z -> default_rng entropy (Some s) = Raised ValueError.
Proof.
  intros Hs. simpl. apply Z.ltb_lt in Hs. rewrite Hs. reflexivity.
Qed.

(** A run of the track generator that returns found the name of its cell
    free and a seed numpy accepts, and returns what the column loop left. *)
Lemma draw_metal_cell_vertical_inv `{Externals} (entropy : nat -> Q)
  (fuel : nat) (world : World) (spec : MetalGenSpec) (lib : GdsLibrary) :
  fst (draw_metal_cell_vertical entropy fuel world spec) = Done lib ->
  ~ In (cell_name spec) world /\
  exists rng cell',
    default_rng entropy (seed spec) = Done rng /\
    column_loop fuel fuel spec (mkCell (cell_name spec) []) 0 rng
    = Some cell' /\
    lib = mkLib (1 # 1000000000) (1 # 1000000000000) [cell'].
Proof.
  unfold draw_metal_cell_vertical, new_cell.
  destruct (holds world (cell_name spec)) eqn:Eh; [discriminate|].
  cbn [fst]. intros Hrun. split.
  { intros Hin. apply holds_In in Hin. congruence. }
  destruct (default_rng entropy (seed spec)) as [rng| |]; try discriminate.
  destruct (column_loop fuel fuel spec (mkCell (cell_name spec) []) 0 rng)
    as [cell'|] eqn:E; [|discriminate].
  injection Hrun as <-. exists rng, cell'.
  split; [reflexivity|]. split; [exact E | reflexivity].
Qed.

Lemma draw_metal_cell_vertical_run `{Externals} (entropy : nat -> Q)
  (fuel : nat) (world : World) (spec : MetalGenSpec) (rng : Generator) :
  ~ In (cell_name spec) world ->
  default_rng entropy (seed spec) = Done rng ->
  draw_metal_cell_vertical entropy fuel world spec
  = (match column_loop fuel fuel spec (mkCell (cell_name spec) []) 0 rng with
     | Some cell' =>
         Done (mkLib (1 # 1000000000) (1 # 1000000000000) [cell'])
     | None => OutOfFuel
     end, cell_name spec :: world).
Proof.
  intros Hfree Hrng. unfold draw_metal_cell_vertical, new_cell.
  rewrite (holds_free world (cell_name spec) Hfree), Hrng. reflexivity.
Qed.

Lemma column_loop_name (spec : MetalGenSpec) :
  forall tf f c x g c',
    column_loop tf f spec c x g = Some c' -> name c' = name c.
Proof.
  intros tf f. induction f as [|f IH]; intros c x g c' H; simpl in H.
  - destruct (qleb (x + wire_cd spec) (total_x spec)); [discriminate|].
    injection H as <-. reflexivity.
  - destruct (qleb (x + wire_cd spec) (total_x spec)).
    2:{ injection H as <-. reflexivity. }
    destruct (_draw_one_track_vertical tf c x spec g) as [[c1 g1]|] eqn:E;
      [|discriminate].
    apply IH in H. rewrite H.
    unfold _draw_one_track_vertical in E.
    destruct (track_loop tf x spec (mkTrackState c 0 g)) as [st|] eqn:El;
      [|discriminate].
    injection E as <- _.
    assert (Hl : forall k st0 st1,
               track_loop k x spec st0 = Some st1 ->
               name (ts_cell st1) = name (ts_cell st0)).
    { clear. induction k as [|k IHk]; intros st0 st1 H; simpl in H.
      - destruct (qltb (ts_y st0) (total_y spec)); [discriminate|].
        injection H as <-. reflexivity.
      - destruct (qltb (ts_y st0) (total_y spec)).
        2:{ injection H as <-. reflexivity. }
        destruct (track_body_inv x spec st0) as [Eb | (l & g1 & Hb)].
        + rewrite Eb in H. injection H as <-. reflexivity.
        + cbv zeta in Hb.
          destruct Hb as (_ & _ & _ & [Eb | (t & g2 & _ & _ & _ & _ & Eb)]);
            rewrite Eb in H.
          * injection H as <-. reflexivity.
          * apply IHk in H. rewrite H. reflexivity. }
    apply Hl in El. exact El.
Qed.

Lemma draw_metal_cell_vertical_columns `{Externals} (entropy : nat -> Q)
  (fuel : nat) (world : World) (spec : MetalGenSpec) (lib : GdsLibrary) :
  fst (draw_metal_cell_vertical entropy fuel world spec) = Done lib ->
  exists cell cols,
    cells lib = [cell] /\
    name cell = cell_name spec /\
    polygons cell = concat (map (column_polys spec) cols) /\
    columns_ok spec 0 cols.
Proof.
  intros Hrun. apply draw_metal_cell_vertical_inv in Hrun.
  destruct Hrun as (_ & rng & cell' & _ & E & ->).
  pose proof (column_loop_name spec _ _ _ _ _ _ E) as Hname.
  apply column_loop_columns in E. destruct E as (cols & Hp & Hc).
  exists cell', cols. repeat split; assumption.
Qed.

(** C6. When [0 < min_t2t <= max_t2t], the cell the track generator returns
    is made of its columns, drawn left to right one track pitch apart, and in
    every column any two consecutive segments are separated by a vertical gap
    within [[min_t2t, max_t2t]]. *)
Theorem gap_legality `{Externals} (entropy : nat -> Q) (fuel : nat)
  (world : World) (spec : MetalGenSpec) (lib : GdsLibrary) :
  0 < min_t2t spec -> min_t2t spec <= max_t2t spec ->
  fst (draw_metal_cell_vertical entropy fuel world spec) = Done lib ->
  exists cell cols,
    cells lib = [cell] /\
    polygons cell = concat (map (column_polys spec) cols) /\
    columns_ok spec 0 cols /\
    Forall (fun col => gaps_legal spec (column_polys spec col)) cols.
Proof.
  intros _ _ Hrun.
  apply draw_metal_cell_vertical_columns in Hrun.
  destruct Hrun as (cell & cols & Hc & _ & Hp & Hcols).
  exists cell, cols. repeat split; try assumption.
  eapply columns_ok_gaps. exact Hcols.
Qed.

Lemma gap_legality_witness :
  0 < min_t2t demo_spec /\ min_t2t demo_spec <= max_t2t demo_spec /\
  fst (@draw_metal_cell_vertical demo_externals demo_entropy 6 [] demo_spec)
  = Done demo_tracks /\
  exists cell cols,
    cells demo_tracks = [cell] /\
    polygons cell = concat (map (column_polys demo_spec) cols) /\
    columns_ok demo_spec 0 cols /\
    Forall (fun col => gaps_legal demo_spec (column_polys demo_spec col)) cols.
Proof.
  assert (H1 : 0 < min_t2t demo_spec) by (unfold Qlt; simpl; lia).
  assert (H2 : min_t2t demo_spec <= max_t2t demo_spec)
    by (unfold Qle; simpl; lia).
  assert (H3 : fst (@draw_metal_cell_vertical demo_externals demo_entropy 6
                      [] demo_spec) = Done demo_tracks)
    by (vm_compute; reflexivity).
  repeat split; try assumption.
  exact (@gap_legality demo_externals demo_entropy 6 [] demo_spec demo_tracks
           H1 H2 H3).
Defined.

(** ** Resources the track generator needs *)

Lemma column_ok_length (spec : MetalGenSpec) (y : Q) (ivs : list (Q * Q)) :
  0 < min_length spec -> 0 <= min_t2t spec ->
  column_ok spec y ivs ->
  forall n : nat,
    total_y spec - y <= inject_Z (Z.of_nat n) * min_length spec ->
    (length ivs <= n)%nat.
Proof.
  intros Hl Ht H.
  induction H as [y | y l H1 H2 H3 | y l t rest H1 H2 H3 H4 H5 H6 Hr IH];
    intros n Hn; simpl.
  - lia.
  - destruct n as [|n]; [|lia].
    change (inject_Z (Z.of_nat 0)) with 0 in Hn. lra.
  - destruct n as [|n].
    + change (inject_Z (Z.of_nat 0)) with 0 in Hn. lra.
    + apply le_n_S. apply IH. rewrite inject_Z_S in Hn. lra.
Qed.

Lemma columns_ok_length (spec : MetalGenSpec) (x : Q)
  (cols : list (Q * list (Q * Q))) :
  0 < track_pitch spec ->
  columns_ok spec x cols ->
  forall n : nat,
    total_x spec - wire_cd spec - x
    < inject_Z (Z.of_nat n) * track_pitch spec ->
    (length cols <= n)%nat.
Proof.
  intros Hp H. induction H as [x | x ivs rest Hx Hc Hrest IH];
    intros n Hn; simpl.
  - lia.
  - destruct n as [|n].
    + change (inject_Z (Z.of_nat 0)) with 0 in Hn. lra.
    + apply le_n_S. apply IH. rewrite inject_Z_S in Hn. lra.
Qed.

Lemma columns_ok_columns (spec : MetalGenSpec) (x : Q)
  (cols : list (Q * list (Q * Q))) :
  columns_ok spec x cols -> Forall (fun col => column_ok spec 0 (snd col)) cols.
Proof.
  intros H. induction H; constructor; assumption.
Qed.

Lemma column_loop_within_bound (spec : MetalGenSpec) (cell : Cell)
  (rng : Generator) (fuel : nat) :
  valid_metal_spec spec -> (fuel_bound spec <= fuel)%nat ->
  exists cell', column_loop fuel fuel spec cell 0 rng = Some cell'.
Proof.
  intros (Hw & Hp & Ht & Ht2 & Hl & Hl2 & Hx & Hy) Hfuel.
  assert (Htf : total_y spec
                <= inject_Z (Z.of_nat (track_bound spec)) * min_length spec).
  { unfold track_bound. apply ceiling_bound. exact Hl. }
  assert (Hcf : total_x spec - wire_cd spec - 0
                < inject_Z (Z.of_nat (column_bound spec)) * track_pitch spec).
  { unfold column_bound.
    pose proof (ceiling_bound (total_x spec) (track_pitch spec) Hp) as Hc.
    rewrite Nat.add_1_r, inject_Z_S. nra. }
  destruct (column_loop_terminates spec (track_bound spec) Hl
              ltac:(lra) Htf (column_bound spec) cell 0 rng Hcf) as [cell' E].
  exists cell'.
  eapply column_loop_fuel_mono; [| |exact E]; unfold fuel_bound in Hfuel; lia.
Qed.

(** C9. For a specification that meets the data-model invariants the track
    generator terminates: with [fuel_bound] iterations for each loop it
    never runs out. A pass of the track loop that continues moves the cursor
    up by at least the least segment length, and the column loop moves by the
    track pitch. When the name of the cell is free in the library of the
    process and numpy accepts the seed, the run returns a layout of at most
    [column_bound] columns of at most [track_bound] segments each; when the
    name is taken or the seed is negative it ends with [ValueError] before
    any loop is entered. *)
Theorem draw_metal_cell_vertical_terminates `{Externals}
  (entropy : nat -> Q) (spec : MetalGenSpec) :
  valid_metal_spec spec ->
  (forall x_base st st',
      track_body x_base spec st = Continue st' ->
      ts_y st + min_length spec <= ts_y st') /\
  (forall world fuel, (fuel_bound spec <= fuel)%nat ->
     fst (draw_metal_cell_vertical entropy fuel world spec) <> OutOfFuel) /\
  (forall world fuel, (fuel_bound spec <= fuel)%nat ->
     ~ In (cell_name spec) world -> seed_ok (seed spec) ->
     exists lib cell cols,
       fst (draw_metal_cell_vertical entropy fuel world spec) = Done lib /\
       cells lib = [cell] /\
       polygons cell = concat (map (column_polys spec) cols) /\
       columns_ok spec 0 cols /\
       (length cols <= column_bound spec)%nat /\
       Forall (fun col => (length (snd col) <= track_bound spec)%nat) cols) /\
  (forall world fuel,
     In (cell_name spec) world \/
     (exists s, seed spec = Some s /\ (s < 0)%Z) ->
     fst (draw_metal_cell_vertical entropy fuel world spec)
     = Raised ValueError).
Proof.
  intros Hv.
  pose proof Hv as (Hw & Hp & Ht & Ht2 & Hl & Hl2 & Hx & Hy).
  assert (Hcf : total_x spec - wire_cd spec - 0
                < inject_Z (Z.of_nat (column_bound spec)) * track_pitch spec).
  { unfold column_bound.
    pose proof (ceiling_bound (total_x spec) (track_pitch spec) Hp) as Hc.
    rewrite Nat.add_1_r, inject_Z_S. nra. }
  split; [|split; [|split]].
  - intros x_base st st' E. apply track_body_advance in E. lra.
  - intros world fuel Hfuel. unfold draw_metal_cell_vertical, new_cell.
    destruct (holds world (cell_name spec)); [discriminate|]. cbn [fst].
    destruct (default_rng entropy (seed spec)) as [rng| |] eqn:Er.
    + destruct (column_loop_within_bound spec (mkCell (cell_name spec) [])
                  rng fuel Hv Hfuel) as [cell' E].
      rewrite E. discriminate.
    + discriminate.
    + destruct (seed spec) as [s|]; simpl in Er; [|discriminate].
      destruct (s <? 0)%Z; discriminate.
  - intros world fuel Hfuel Hfree Hseed.
    destruct (default_rng_ok entropy (seed spec) Hseed) as [rng Er].
    destruct (column_loop_within_bound spec (mkCell (cell_name spec) [])
                rng fuel Hv Hfuel) as [cell' E].
    assert (Hrun : fst (draw_metal_cell_vertical entropy fuel world spec)
                   = Done (mkLib (1 # 1000000000) (1 # 1000000000000)
                                 [cell'])).
    { rewrite (draw_metal_cell_vertical_run entropy fuel world spec rng
                 Hfree Er), E. reflexivity. }
    destruct (draw_metal_cell_vertical_columns _ _ _ _ _ Hrun)
      as (cell & cols & Hc & _ & Hpoly & Hcols).
    exists (mkLib (1 # 1000000000) (1 # 1000000000000) [cell']), cell, cols.
    repeat split; try assumption.
    + apply (columns_ok_length spec 0 cols Hp Hcols). exact Hcf.
    + eapply List.Forall_impl; [|apply (columns_ok_columns _ _ _ Hcols)].
      intros col Hcol.
      apply (column_ok_length spec 0 (snd col) Hl ltac:(lra) Hcol).
      assert (Htf : total_y spec
                    <= inject_Z (Z.of_nat (track_bound spec))
                       * min_length spec)
        by (unfold track_bound; apply ceiling_bound; exact Hl).
      lra.
  - intros world fuel Hbad. unfold draw_metal_cell_vertical, new_cell.
    destruct (holds world (cell_name spec)) eqn:Eh; [reflexivity|]. cbn [fst].
    destruct Hbad as [Hin | (s & Es & Hs)].
    + apply holds_In in Hin. congruence.
    + rewrite Es, (default_rng_negative entropy s Hs). reflexivity.
Qed.

Lemma draw_metal_cell_vertical_terminates_witness :
  valid_metal_spec demo_spec /\
  (fuel_bound demo_spec <= 6)%nat /\
  ~ In (cell_name demo_spec) [] /\ seed_ok (seed demo_spec) /\
  (exists lib cell cols,
    fst (@draw_metal_cell_vertical demo_externals demo_entropy 6 [] demo_spec)
    = Done lib /\
    cells lib = [cell] /\
    polygons cell = concat (map (column_polys demo_spec) cols) /\
    columns_ok demo_spec 0 cols /\
    (length cols <= column_bound demo_spec)%nat /\
    Forall (fun col => (length (snd col) <= track_bound demo_spec)%nat)
           cols) /\
  In (cell_name demo_spec) ["metal_cell"%string] /\
  fst (@draw_metal_cell_vertical demo_externals demo_entropy 6
         ["metal_cell"%string] demo_spec) = Raised ValueError.
Proof.
  assert (Hv : valid_metal_spec demo_spec).
  { unfold valid_metal_spec, demo_spec; simpl.
    repeat split; unfold Qlt, Qle; simpl; lia. }
  assert (Hf : (fuel_bound demo_spec <= 6)%nat) by (vm_compute; lia).
  assert (Hfree : ~ In (cell_name demo_spec) []) by (intros []).
  assert (Hs : seed_ok (seed demo_spec)) by (simpl; lia).
  assert (Hin : In (cell_name demo_spec) ["metal_cell"%string])
    by (left; reflexivity).
  split; [exact Hv|]. split; [exact Hf|]. split; [exact Hfree|].
  split; [exact Hs|].
  pose proof (@draw_metal_cell_vertical_terminates demo_externals
                demo_entropy demo_spec Hv) as (_ & _ & Hrun & Hbad).
  split; [exact (Hrun [] 6%nat Hf Hfree Hs)|].
  split; [exact Hin|].
  exact (Hbad ["metal_cell"%string] 6%nat (or_introl Hin)).
Defined.

(** ** Sorting, grouping and sweeping *)

Section Lists.
Context {A : Type}.
Variable key : A -> Q.

Lemma insert_by_perm (x : A) (l : list A) : insert_by key x l ≡ₚ x :: l.
Proof.
  induction l as [|y l IH]; simpl; [reflexivity|].
  destruct (qleb (key x) (key y)); [reflexivity|].
  rewrite IH. apply perm_swap.
Qed.

Lemma sort_by_perm (l : list A) : sort_by key l ≡ₚ l.
Proof.
  induction l as [|x l IH]; simpl; [reflexivity|].
  rewrite insert_by_perm. rewrite IH. reflexivity.
Qed.

Lemma insert_by_ascending (x : A) (l : list A) :
  ascending key l -> ascending key (insert_by key x l).
Proof.
  unfold ascending. intros H. induction H as [|y l Hl IH Hy]; simpl.
  - constructor; constructor.
  - destruct (qleb (key x) (key y)) eqn:E.
    + apply qleb_le in E. constructor.
      * constructor; assumption.
      * constructor; [exact E|].
        eapply List.Forall_impl; [|exact Hy]. simpl. intros a Ha. lra.
    + apply qleb_gt in E. constructor; [exact IH|].
      rewrite insert_by_perm. constructor; [lra | exact Hy].
Qed.

Lemma sort_by_ascending (l : list A) : ascending key (sort_by key l).
Proof.
  induction l as [|x l IH]; simpl.
  - constructor.
  - apply insert_by_ascending. exact IH.
Qed.
End Lists.

Lemma Forall_of_sublist {A : Type} (P : A -> Prop) (l l' : list A) :
  sublist l' l -> Forall P l -> Forall P l'.
Proof.
  intros Hs H. apply List.Forall_forall. intros x Hx.
  rewrite List.Forall_forall in H. apply H.
  apply list_elem_of_In. eapply elem_of_sublist; [|exact Hs].
  apply list_elem_of_In. exact Hx.
Qed.

Section Pairs.
Context {A : Type}.
Variable R : A -> A -> Prop.

Lemma pairs_sublist (l l' : list A) :
  sublist l' l -> ForallOrdPairs R l -> ForallOrdPairs R l'.
Proof.
  intros Hs. induction Hs as [|x l1 l2 Hs IH|x l1 l2 Hs IH]; intros H.
  - constructor.
  - inversion H as [|a l0 Hx Hl]; subst. constructor.
    + eapply Forall_of_sublist; eassumption.
    + apply IH. exact Hl.
  - inversion H as [|a l0 Hx Hl]; subst. apply IH. exact Hl.
Qed.

Hypothesis R_sym : forall a b, R a b -> R b a.

Lemma pairs_perm (l l' : list A) :
  l ≡ₚ l' -> ForallOrdPairs R l -> ForallOrdPairs R l'.
Proof.
  intros Hp. induction Hp as [|x l l' Hp IH|x y l|l l' l'' _ IH1 _ IH2];
    intros H.
  - exact H.
  - inversion H as [|a l0 Hx Hl]; subst. constructor.
    + rewrite <- Hp. exact Hx.
    + apply IH. exact Hl.
  - inversion H as [|a l0 Hy Hl]; subst.
    inversion Hl as [|a l0 Hx Hl']; subst.
    inversion Hy as [|a l0 Hyx Hyl]; subst.
    constructor; [constructor; [apply R_sym; exact Hyx | exact Hx]|].
    constructor; assumption.
  - apply IH2, IH1, H.
Qed.

Lemma pairs_submseteq (l l' : list A) :
  l' ⊆+ l -> ForallOrdPairs R l -> ForallOrdPairs R l'.
Proof.
  intros Hs H. apply submseteq_sublist_r in Hs.
  destruct Hs as (l2 & Hp & Hsub).
  apply (pairs_perm l2); [symmetry; exact Hp|].
  eapply pairs_sublist; eassumption.
Qed.

Lemma pairs_app (l1 l2 : list A) :
  ForallOrdPairs R l1 -> ForallOrdPairs R l2 ->
  (forall a b, In a l1 -> In b l2 -> R a b) ->
  ForallOrdPairs R (l1 ++ l2).
Proof.
  intros H1 H2 Hc. induction H1 as [|a l Ha Hl IH]; simpl; [exact H2|].
  constructor.
  - apply Forall_app. split; [exact Ha|].
    apply List.Forall_forall. intros b Hb. apply Hc; [left; reflexivity | exact Hb].
  - apply IH. intros x y Hx Hy. apply Hc; [right; exact Hx | exact Hy].
Qed.
End Pairs.

Section Sweep.
Variable coord : point -> Q.
Variable pitch : Q.

Lemma sweep_sublist (last : option point) (pts : list point) :
  sublist (sweep coord pitch last pts) pts.
Proof.
  revert last. induction pts as [|pt rest IH]; intros last; simpl.
  - constructor.
  - destruct (match last with
              | Some l => qleb pitch (coord pt - coord l)
              | None => true
              end).
    + apply sublist_skip, IH.
    + apply sublist_cons, IH.
Qed.

(** Without a pitch to enforce the sweep keeps every point. *)
Lemma sweep_keeps_all (last : option point) (pts : list point) :
  pitch <= 0 ->
  ascending coord pts ->
  match last with
  | Some l => Forall (fun a => coord l <= coord a) pts
  | None => True
  end ->
  sweep coord pitch last pts = pts.
Proof.
  intros Hp Hs. revert last.
  induction Hs as [|pt rest Hrest IH Hpt]; intros last Hl; simpl.
  - reflexivity.
  - assert (Hk : match last with
                 | Some l => qleb pitch (coord pt - coord l)
                 | None => true
                 end = true).
    { destruct last as [l|]; [|reflexivity].
      apply qleb_le. inversion Hl; subst. lra. }
    rewrite Hk. f_equal. apply IH. exact Hpt.
Qed.

Lemma sweep_spaced (pts : list point) :
  ascending coord pts ->
  forall last,
    match last with
    | Some l => Forall (fun a => coord l <= coord a) pts
    | None => True
    end ->
    ForallOrdPairs (spaced coord pitch) (sweep coord pitch last pts) /\
    match last with
    | Some l => Forall (spaced coord pitch l) (sweep coord pitch last pts)
    | None => True
    end.
Proof.
  intros Hs. induction Hs as [|pt rest Hrest IH Hpt]; intros last Hl; simpl.
  - split; [constructor | destruct last; [constructor | exact I]].
  - destruct (match last with
              | Some l => qleb pitch (coord pt - coord l)
              | None => true
              end) eqn:Hk.
    + destruct (IH (Some pt) Hpt) as [IH1 IH2]. split.
      * constructor; assumption.
      * destruct last as [l|]; [|exact I].
        apply qleb_le in Hk. inversion Hl as [|? ? Hlpt Hlrest]; subst.
        constructor; [exact Hk|].
        eapply List.Forall_impl; [|exact IH2]. unfold spaced. simpl.
        intros a Ha. lra.
    + destruct last as [l|]; [|discriminate].
      inversion Hl as [|? ? Hlpt Hlrest]; subst.
      apply (IH (Some l)). exact Hlrest.
Qed.
End Sweep.

Section Groups.
Variable key : point -> Z.

Lemma setdefault_append_perm (k : Z) (v : point) (m : list (Z * list point)) :
  concat (map snd (setdefault_append k v m)) ≡ₚ concat (map snd m) ++ [v].
Proof.
  induction m as [|[k' vs] m IH]; simpl; [reflexivity|].
  destruct (Z.eqb k k'); simpl.
  - rewrite <- !app_assoc. apply Permutation_app_head.
    apply Permutation_app_comm.
  - rewrite IH. rewrite app_assoc. reflexivity.
Qed.

Lemma setdefault_append_keys (P : Z -> Prop) (k : Z) (v : point)
  (m : list (Z * list point)) :
  P k -> Forall (fun g => P (fst g)) m ->
  Forall (fun g => P (fst g)) (setdefault_append k v m).
Proof.
  intros Hk H. induction H as [|[k' vs] m Hg Hm IH]; simpl.
  - constructor; [exact Hk | constructor].
  - destruct (Z.eqb k k'); constructor; assumption.
Qed.

Lemma setdefault_append_grouped (v : point) (m : list (Z * list point)) :
  grouped key m -> grouped key (setdefault_append (key v) v m).
Proof.
  intros [Hd Hm]. induction m as [|[k' vs] m IH]; simpl.
  - split.
    + constructor; constructor.
    + constructor; [|constructor]. constructor; [reflexivity | constructor].
  - inversion Hd as [|g m0 Hk' Hd']; subst.
    inversion Hm as [|g m0 Hvs Hm']; subst.
    destruct (Z.eqb (key v) k') eqn:E.
    + apply Z.eqb_eq in E. split.
      * constructor; assumption.
      * constructor; [|exact Hm']. simpl in *.
        apply Forall_app. split; [exact Hvs|].
        constructor; [exact E | constructor].
    + apply Z.eqb_neq in E. destruct (IH Hd' Hm') as [IH1 IH2]. split.
      * constructor; [|exact IH1].
        apply (setdefault_append_keys (fun k => k' <> k)).
        -- simpl. congruence.
        -- exact Hk'.
      * constructor; assumption.
Qed.

Lemma fold_group_perm (pts : list point) (m : list (Z * list point)) :
  concat (map snd
            (fold_left (fun m p => setdefault_append (key p) p m) pts m))
  ≡ₚ concat (map snd m) ++ pts.
Proof.
  revert m. induction pts as [|p pts IH]; intros m; simpl.
  - rewrite app_nil_r. reflexivity.
  - rewrite IH. rewrite setdefault_append_perm.
    rewrite <- app_assoc. reflexivity.
Qed.

Lemma fold_group_grouped (pts : list point) (m : list (Z * list point)) :
  grouped key m ->
  grouped key (fold_left (fun m p => setdefault_append (key p) p m) pts m).
Proof.
  revert m. induction pts as [|p pts IH]; intros m H; simpl; [exact H|].
  apply IH. apply setdefault_append_grouped. exact H.
Qed.

Lemma group_by_perm (pts : list point) :
  concat (map snd (group_by key pts)) ≡ₚ pts.
Proof. unfold group_by. rewrite fold_group_perm. reflexivity. Qed.

Lemma group_by_grouped (pts : list point) : grouped key (group_by key pts).
Proof.
  unfold group_by. apply fold_group_grouped. split; constructor.
Qed.

Variable coord : point -> Q.
Variable pitch : Q.

Lemma sweep_group_submseteq (g : list point) :
  sweep coord pitch None (sort_by coord g) ⊆+ g.
Proof.
  etransitivity.
  - apply sublist_submseteq, sweep_sublist.
  - apply Permutation_submseteq, sort_by_perm.
Qed.

Lemma cleaned_groups_submseteq (m : list (Z * list point)) :
  concat (map (fun g => sweep coord pitch None (sort_by coord (snd g))) m)
  ⊆+ concat (map snd m).
Proof.
  induction m as [|g m IH]; simpl; [reflexivity|].
  apply submseteq_app; [apply sweep_group_submseteq | exact IH].
Qed.

(** Cleaning along an axis only removes points. *)
Lemma clean_axis_submseteq (pts : list point) :
  clean_axis key coord pitch pts ⊆+ pts.
Proof.
  unfold clean_axis. etransitivity; [apply cleaned_groups_submseteq|].
  apply Permutation_submseteq, group_by_perm.
Qed.

Lemma same_track_spaced_sym (a b : point) :
  same_track_spaced key coord pitch a b ->
  same_track_spaced key coord pitch b a.
Proof.
  unfold same_track_spaced. intros H E. symmetry in E.
  specialize (H E). rewrite Qabs_Qminus. exact H.
Qed.

Lemma sweep_group_pairs (g : list point) :
  ForallOrdPairs (same_track_spaced key coord pitch)
                 (sweep coord pitch None (sort_by coord g)).
Proof.
  destruct (sweep_spaced coord pitch (sort_by coord g)
              (sort_by_ascending coord g) None I) as [H _].
  induction H as [|a l Ha Hl IH]; constructor; [|exact IH].
  eapply List.Forall_impl; [|exact Ha].
  unfold spaced, same_track_spaced. intros b Hb _.
  pose proof (Qle_Qabs (coord b - coord a)) as Habs.
  rewrite Qabs_Qminus. lra.
Qed.

Lemma cleaned_groups_pairs (m : list (Z * list point)) :
  grouped key m ->
  ForallOrdPairs (same_track_spaced key coord pitch)
    (concat (map (fun g => sweep coord pitch None (sort_by coord (snd g)))
                 m)) /\
  Forall (fun p => Exists (fun g => key p = fst g) m)
    (concat (map (fun g => sweep coord pitch None (sort_by coord (snd g)))
                 m)).
Proof.
  intros [Hd Hm]. induction m as [|g m IH]; simpl.
  - split; constructor.
  - inversion Hd as [|g0 m0 Hg Hd']; subst.
    inversion Hm as [|g0 m0 Hvs Hm']; subst.
    destruct (IH Hd' Hm') as [IH1 IH2].
    assert (Hin : Forall (fun p => key p = fst g)
                    (sweep coord pitch None (sort_by coord (snd g)))).
    { apply List.Forall_forall. intros p Hp.
      rewrite List.Forall_forall in Hvs. apply Hvs.
      apply list_elem_of_In.
      eapply elem_of_submseteq; [|apply sweep_group_submseteq].
      apply list_elem_of_In. exact Hp. }
    split.
    + apply pairs_app; [apply sweep_group_pairs | exact IH1 |].
      intros a b Ha Hb E.
      rewrite List.Forall_forall in Hin. apply Hin in Ha.
      rewrite List.Forall_forall in IH2. apply IH2 in Hb.
      apply List.Exists_exists in Hb. destruct Hb as (g' & Hg' & Hk).
      rewrite List.Forall_forall in Hg. specialize (Hg g' Hg').
      congruence.
    + apply Forall_app. split.
      * eapply List.Forall_impl; [|exact Hin]. intros p Hp.
        apply Exists_cons_hd. exact Hp.
      * eapply List.Forall_impl; [|exact IH2]. intros p Hp.
        apply Exists_cons_tl. exact Hp.
Qed.

(** After cleaning along an axis, any two survivors of one track are at
    least the pitch apart. *)
Lemma clean_axis_pairs (pts : list point) :
  ForallOrdPairs (same_track_spaced key coord pitch)
                 (clean_axis key coord pitch pts).
Proof.
  unfold clean_axis. apply cleaned_groups_pairs, group_by_grouped.
Qed.

Lemma filter_sublist (f : point -> bool) (l : list point) :
  sublist (List.filter f l) l.
Proof.
  induction l as [|x l IH]; simpl; [constructor|].
  destruct (f x); [apply sublist_skip | apply sublist_cons]; exact IH.
Qed.

Lemma consecutive_of_pairs (idx : Z) (l : list point) :
  ascending coord l ->
  Forall (fun p => key p = idx) l ->
  ForallOrdPairs (same_track_spaced key coord pitch) l ->
  consecutive_spaced coord pitch l.
Proof.
  intros Hs. induction Hs as [|a l Hl IH Ha]; intros Hk Hp i x y Hx Hy.
  - destruct i; discriminate.
  - inversion Hk as [|? ? Hka Hkl]; subst.
    inversion Hp as [|? ? Hpa Hpl]; subst.
    destruct i as [|i].
    + destruct l as [|b l']; [discriminate|].
      assert (Ex : a = x) by (simpl in Hx; congruence).
      assert (Ey : b = y) by (simpl in Hy; congruence).
      rewrite <- Ex, <- Ey. clear Hx Hy Ex Ey x y.
      apply List.Forall_inv in Hpa, Hkl, Ha.
      unfold same_track_spaced in Hpa.
      assert (Hd : pitch <= Qabs (coord a - coord b))
        by (apply Hpa; congruence).
      rewrite Qabs_Qminus in Hd. rewrite Qabs_pos in Hd; lra.
    + simpl in Hx, Hy. exact (IH Hkl Hpl i x y Hx Hy).
Qed.

(** The survivors of one track, taken in ascending order, are spaced. *)
Lemma track_group_spaced (idx : Z) (l : list point) :
  ForallOrdPairs (same_track_spaced key coord pitch) l ->
  consecutive_spaced coord pitch (track_group key coord idx l).
Proof.
  intros H. unfold track_group.
  apply (consecutive_of_pairs idx).
  - apply sort_by_ascending.
  - apply List.Forall_forall. intros p Hp.
    apply list_elem_of_In in Hp. rewrite sort_by_perm in Hp.
    apply list_elem_of_In in Hp. apply List.filter_In in Hp.
    destruct Hp as [_ Hp]. apply Z.eqb_eq in Hp. exact Hp.
  - apply (pairs_perm _ same_track_spaced_sym
             (List.filter (fun p => Z.eqb (key p) idx) l)).
    + symmetry. apply sort_by_perm.
    + eapply pairs_sublist; [apply filter_sublist | exact H].
Qed.
End Groups.

(** ** The pitch cleaner *)

Lemma pitch_clean_submseteq (centers : list point) (vpx vpy : Q)
  (polys_m1 polys_m2 : list points) :
  _pitch_clean centers vpx vpy polys_m1 polys_m2 ⊆+ centers.
Proof.
  unfold _pitch_clean. destruct centers as [|c centers]; [reflexivity|].
  unfold row_clean, column_clean.
  etransitivity; apply clean_axis_submseteq.
Qed.

Lemma pitch_clean_row_pairs (centers : list point) (vpx vpy : Q)
  (polys_m1 polys_m2 : list points) :
  ForallOrdPairs (same_track_spaced (row_of (y_tracks_of polys_m1)) fst vpx)
                 (_pitch_clean centers vpx vpy polys_m1 polys_m2).
Proof.
  unfold _pitch_clean. destruct centers as [|c centers]; [constructor|].
  unfold row_clean. apply clean_axis_pairs.
Qed.

Lemma pitch_clean_column_pairs (centers : list point) (vpx vpy : Q)
  (polys_m1 polys_m2 : list points) :
  ForallOrdPairs (same_track_spaced (column_of (x_tracks_of polys_m2)) snd vpy)
                 (_pitch_clean centers vpx vpy polys_m1 polys_m2).
Proof.
  unfold _pitch_clean. destruct centers as [|c centers]; [constructor|].
  unfold row_clean.
  eapply pairs_submseteq.
  - apply same_track_spaced_sym.
  - apply clean_axis_submseteq.
  - unfold column_clean. apply clean_axis_pairs.
Qed.

(** C3. Among the centers that reach the emission loop, those that share a
    nearest x-track, taken in ascending vertical order, are consecutively at
    least [via_pitch_y] apart; and those that share a nearest y-track, which
    are survivors of the row sweep over the column-cleaned centers, taken in
    ascending horizontal order, are consecutively at least [via_pitch_x]
    apart. *)
Theorem pitch_enforcement `{Externals} (cell : Cell) (spec : ViaGenSpec)
  (rng : Generator) (m1_layer m2_layer : Z) (idx : Z) :
  let final := via_centers cell spec rng m1_layer m2_layer in
  let x_tracks := x_tracks_of (_get_layer_polys cell m2_layer 0) in
  let y_tracks := y_tracks_of (_get_layer_polys cell m1_layer 0) in
  consecutive_spaced snd (via_pitch_y spec)
    (track_group (column_of x_tracks) snd idx final) /\
  consecutive_spaced fst (via_pitch_x spec)
    (track_group (row_of y_tracks) fst idx final).
Proof.
  intros final x_tracks y_tracks. subst final. unfold via_centers. split.
  - apply track_group_spaced. apply pitch_clean_column_pairs.
  - apply track_group_spaced. apply pitch_clean_row_pairs.
Qed.

Lemma pitch_enforcement_witness :
  let rng := mkGenerator
               (@seed_sequence demo_externals (via_seed demo_via_spec)) 0 in
  let final :=
    @via_centers demo_externals demo_cell demo_via_spec rng 110 111 in
  let x_tracks := x_tracks_of (_get_layer_polys demo_cell 111 0) in
  let y_tracks := y_tracks_of (_get_layer_polys demo_cell 110 0) in
  length final = 6%nat /\
  length (track_group (column_of x_tracks) snd 0 final) = 2%nat /\
  consecutive_spaced snd (via_pitch_y demo_via_spec)
    (track_group (column_of x_tracks) snd 0 final) /\
  consecutive_spaced fst (via_pitch_x demo_via_spec)
    (track_group (row_of y_tracks) fst 0 final).
Proof.
  intros rng final x_tracks y_tracks.
  split; [vm_compute; reflexivity|]. split; [vm_compute; reflexivity|].
  exact (@pitch_enforcement demo_externals demo_cell demo_via_spec rng
           110 111 0).
Defined.

(** Pitches that are not positive never constrain: nothing is dropped. *)
Lemma clean_axis_keeps_all (key : point -> Z) (coord : point -> Q) (pitch : Q)
  (pts : list point) :
  pitch <= 0 -> clean_axis key coord pitch pts ≡ₚ pts.
Proof.
  intros Hp. unfold clean_axis. rewrite <- (group_by_perm key pts) at 2.
  induction (group_by key pts) as [|g m IH]; simpl; [reflexivity|].
  rewrite IH. apply Permutation_app_tail.
  rewrite (sweep_keeps_all coord pitch None (sort_by coord (snd g)) Hp
             (sort_by_ascending coord (snd g)) I).
  apply sort_by_perm.
Qed.

Lemma pitch_clean_keeps_all (centers : list point) (vpx vpy : Q)
  (polys_m1 polys_m2 : list points) :
  vpx <= 0 -> vpy <= 0 ->
  _pitch_clean centers vpx vpy polys_m1 polys_m2 ≡ₚ centers.
Proof.
  intros Hx Hy. unfold _pitch_clean.
  destruct centers as [|c centers]; [reflexivity|].
  unfold row_clean, column_clean.
  rewrite clean_axis_keeps_all by exact Hx.
  apply clean_axis_keeps_all. exact Hy.
Qed.

(** ** Sampling *)

(** A sampled center is the midpoint of a box that passed the size filter
    and whose draw, the [n]-th after the start, fell below the density. *)
Lemma sample_centers_origin (bboxes : list bbox) (vx vy : Q) (density : Q) :
  forall (rng : Generator) (c : point),
    In c (_sample_centers_from_bboxes bboxes vx vy rng density) ->
    exists (b : bbox) (n : nat),
      In b bboxes /\ size_ok vx vy b = true /\
      fst (random (mkGenerator (stream rng) (cursor rng + n))) < density /\
      c = center_of b.
Proof.
  induction bboxes as [|b rest IH]; intros rng c Hc; simpl in Hc; [contradiction|].
  assert (Hrest : forall rng' k,
             stream rng' = stream rng -> cursor rng' = (cursor rng + k)%nat ->
             In c (_sample_centers_from_bboxes rest vx vy rng' density) ->
             exists (b0 : bbox) (n : nat),
               In b0 (b :: rest) /\ size_ok vx vy b0 = true /\
               fst (random (mkGenerator (stream rng) (cursor rng + n)))
               < density /\ c = center_of b0).
  { intros rng' k Hs Hk Hin. apply IH in Hin.
    destruct Hin as (b0 & n & Hb0 & Hok & Hd & ->).
    exists b0, (k + n)%nat. rewrite Hs, Hk in Hd.
    rewrite Nat.add_assoc. repeat split; auto. right. exact Hb0. }
  destruct (size_ok vx vy b) eqn:Hok.
  - destruct (qltb (unit_frac (stream rng (cursor rng))) density) eqn:Hd.
    + destruct Hc as [<- | Hc].
      * exists b, 0%nat. apply qltb_lt in Hd. rewrite Nat.add_0_r.
        repeat split; auto. left. reflexivity.
      * apply (Hrest _ 1%nat) in Hc; [exact Hc | reflexivity | simpl; lia].
    + apply (Hrest _ 1%nat) in Hc; [exact Hc | reflexivity | simpl; lia].
  - apply (Hrest rng 0%nat); [reflexivity | lia | exact Hc].
Qed.

Lemma fold_cell_add (vias : list Polygon) (cell : Cell) :
  polygons (fold_left cell_add vias cell) = polygons cell ++ vias /\
  name (fold_left cell_add vias cell) = name cell.
Proof.
  revert cell. induction vias as [|v vias IH]; intros cell; simpl.
  - rewrite app_nil_r. split; reflexivity.
  - destruct (IH (cell_add cell v)) as [-> ->]. simpl.
    rewrite <- app_assoc. split; reflexivity.
Qed.

Lemma fold_cell_add_eq (vias : list Polygon) (cell : Cell) :
  fold_left cell_add vias cell = mkCell (name cell) (polygons cell ++ vias).
Proof.
  destruct (fold_cell_add vias cell) as [Hp Hn].
  destruct (fold_left cell_add vias cell) as [nm ps]. simpl in Hp, Hn.
  rewrite Hp, Hn. reflexivity.
Qed.

Lemma generate_vias_inv `{Externals} (lib : GdsLibrary) (spec : ViaGenSpec)
  (m1_layer m2_layer : Z) (vias : list Polygon) (lib' : GdsLibrary) :
  generate_vias_from_metals lib spec m1_layer m2_layer = Done (vias, lib') ->
  exists cell,
    first_cell lib = Done cell /\
    vias = map (via_rect spec)
               (via_centers cell spec
                  (mkGenerator (seed_sequence (via_seed spec)) 0)
                  m1_layer m2_layer) /\
    lib' = set_first_cell lib (fold_left cell_add vias cell) /\
    (0 <= via_seed spec)%Z.
Proof.
  unfold generate_vias_from_metals. intros Hrun.
  destruct (first_cell lib) as [cell| |]; try discriminate.
  simpl in Hrun. destruct (via_seed spec <? 0)%Z eqn:Es; [discriminate|].
  injection Hrun as <- <-. exists cell.
  split; [reflexivity|]. split; [reflexivity|]. split; [reflexivity|].
  apply Z.ltb_ge in Es. exact Es.
Qed.

(** What a run that returns leaves: the vias behind the polygons of the
    first cell, and nothing else changed. *)
Lemma generate_vias_effect `{Externals} (lib : GdsLibrary) (spec : ViaGenSpec)
  (m1_layer m2_layer : Z) (vias : list Polygon) (lib' : GdsLibrary) :
  generate_vias_from_metals lib spec m1_layer m2_layer = Done (vias, lib') ->
  exists cell others,
    cells lib = cell :: others /\
    vias = map (via_rect spec)
               (via_centers cell spec
                  (mkGenerator (seed_sequence (via_seed spec)) 0)
                  m1_layer m2_layer) /\
    lib' = mkLib (lib_unit lib) (lib_precision lib)
                 (mkCell (name cell) (polygons cell ++ vias) :: others) /\
    (0 <= via_seed spec)%Z.
Proof.
  intros Hrun. apply generate_vias_inv in Hrun.
  destruct Hrun as (cell & Hc & Hv & Hl & Hs).
  unfold first_cell in Hc. destruct (cells lib) as [|c others] eqn:Ec;
    [discriminate|].
  injection Hc as ->. exists cell, others. split; [reflexivity|].
  split; [exact Hv|]. split; [|exact Hs].
  rewrite Hl. unfold set_first_cell. rewrite Ec. cbn [tl].
  rewrite fold_cell_add_eq. reflexivity.
Qed.

Lemma generate_vias_run `{Externals} (lib : GdsLibrary) (spec : ViaGenSpec)
  (m1_layer m2_layer : Z) (cell : Cell) (others : list Cell) :
  cells lib = cell :: others -> (0 <= via_seed spec)%Z ->
  let vias := map (via_rect spec)
                  (via_centers cell spec
                     (mkGenerator (seed_sequence (via_seed spec)) 0)
                     m1_layer m2_layer) in
  generate_vias_from_metals lib spec m1_layer m2_layer
  = Done (vias,
          mkLib (lib_unit lib) (lib_precision lib)
                (mkCell (name cell) (polygons cell ++ vias) :: others)).
Proof.
  intros Hc Hs vias. unfold generate_vias_from_metals, first_cell.
  rewrite Hc. simpl default_rng.
  apply Z.ltb_ge in Hs. rewrite Hs.
  unfold set_first_cell. rewrite Hc. cbn [tl].
  rewrite fold_cell_add_eq. reflexivity.
Qed.

(** C10. The pitch cleaner returns a sub-multiset of its input: it only
    removes centers. Hence every via the generator emits is the rectangle of
    the configured size around the midpoint of a candidate bounding box that
    passed the size filter and whose draw fell below the density. *)
Theorem vias_come_from_candidates `{Externals} (lib : GdsLibrary)
  (spec : ViaGenSpec) (m1_layer m2_layer : Z)
  (vias : list Polygon) (lib' : GdsLibrary) :
  generate_vias_from_metals lib spec m1_layer m2_layer = Done (vias, lib') ->
  (forall centers vpx vpy polys_m1 polys_m2,
      _pitch_clean centers vpx vpy polys_m1 polys_m2 ⊆+ centers) /\
  exists cell,
    first_cell lib = Done cell /\
    Forall (fun via =>
      exists (b : bbox) (n : nat),
        In b (_calc_candidates cell m1_layer m2_layer
                (enclosure_x spec) (enclosure_y spec)) /\
        size_ok (via_x spec) (via_y spec) b = true /\
        fst (random (mkGenerator (seed_sequence (via_seed spec)) n))
        < density spec /\
        via = via_rect spec (center_of b) /\
        (fst (corner1 via) + fst (corner2 via)) * (1 # 2)
        == fst (center_of b) /\
        (snd (corner1 via) + snd (corner2 via)) * (1 # 2)
        == snd (center_of b)) vias.
Proof.
  intros Hrun. split; [intros; apply pitch_clean_submseteq|].
  apply generate_vias_inv in Hrun. destruct Hrun as (cell & Hc & -> & _).
  exists cell. split; [exact Hc|].
  apply List.Forall_forall. intros via Hvia.
  apply List.in_map_iff in Hvia. destruct Hvia as (c & <- & Hin).
  unfold via_centers in Hin.
  apply list_elem_of_In in Hin.
  eapply elem_of_submseteq in Hin; [|apply pitch_clean_submseteq].
  apply list_elem_of_In in Hin.
  apply sample_centers_origin in Hin.
  destruct Hin as (b & n & Hb & Hok & Hd & ->).
  exists b, n. simpl in Hd. repeat split; try assumption.
  - unfold via_rect, corner1, corner2. simpl. field.
  - unfold via_rect, corner1, corner2. simpl. field.
Qed.

Lemma vias_come_from_candidates_witness :
  let run := @generate_vias_from_metals demo_externals demo_metal_lib
               demo_via_spec 110 111 in
  let vias := fst (value_of ([], empty_lib) run) in
  run = Done (vias, snd (value_of ([], empty_lib) run)) /\
  length vias = 6%nat /\
  exists cell,
    first_cell demo_metal_lib = Done cell /\
    Forall (fun via =>
      exists (b : bbox) (n : nat),
        In b (@_calc_candidates demo_externals cell 110 111
                (enclosure_x demo_via_spec) (enclosure_y demo_via_spec)) /\
        size_ok (via_x demo_via_spec) (via_y demo_via_spec) b = true /\
        fst (random (mkGenerator
                       (@seed_sequence demo_externals (via_seed demo_via_spec))
                       n))
        < density demo_via_spec /\
        via = via_rect demo_via_spec (center_of b) /\
        (fst (corner1 via) + fst (corner2 via)) * (1 # 2)
        == fst (center_of b) /\
        (snd (corner1 via) + snd (corner2 via)) * (1 # 2)
        == snd (center_of b)) vias.
Proof.
  intros run vias.
  assert (Hrun : run = Done (vias, snd (value_of ([], empty_lib) run)))
    by (vm_compute; reflexivity).
  split; [exact Hrun|]. split; [vm_compute; reflexivity|].
  exact (proj2 (@vias_come_from_candidates demo_externals demo_metal_lib
                  demo_via_spec 110 111 vias _ Hrun)).
Defined.

(** ** Density *)

Lemma sample_density_low (bboxes : list bbox) (vx vy density : Q) :
  density <= 0 ->
  forall rng, _sample_centers_from_bboxes bboxes vx vy rng density = [].
Proof.
  intros Hd. induction bboxes as [|b rest IH]; intros rng; simpl; [reflexivity|].
  destruct (size_ok vx vy b); [|apply IH].
  assert (E : qltb (unit_frac (stream rng (cursor rng))) density = false).
  { apply qltb_ge. pose proof (unit_frac_range (stream rng (cursor rng))). lra. }
  rewrite E. apply IH.
Qed.

Lemma sample_density_high (bboxes : list bbox) (vx vy density : Q) :
  1 <= density ->
  forall rng,
    _sample_centers_from_bboxes bboxes vx vy rng density
    = map center_of (List.filter (size_ok vx vy) bboxes).
Proof.
  intros Hd. induction bboxes as [|b rest IH]; intros rng; simpl; [reflexivity|].
  destruct (size_ok vx vy b); [|apply IH].
  assert (E : qltb (unit_frac (stream rng (cursor rng))) density = true).
  { apply qltb_lt. pose proof (unit_frac_range (stream rng (cursor rng))). lra. }
  rewrite E. simpl. f_equal. apply IH.
Qed.

(** C8. A run of the via generator that returns has put the vias it
    returns behind the polygons of the first cell. With density 0 there is no
    via and the library is left as it was, whatever the candidates. With
    density 1, when the pitch cleaner drops none of the centers it is given,
    the vias in the cell are, up to order, the rectangles around the
    midpoints of all candidates that pass the size filter. *)
Theorem density_extremes `{Externals} (lib : GdsLibrary) (spec : ViaGenSpec)
  (m1_layer m2_layer : Z) (vias : list Polygon) (lib' : GdsLibrary) :
  generate_vias_from_metals lib spec m1_layer m2_layer = Done (vias, lib') ->
  exists cell others,
    cells lib = cell :: others /\
    lib' = mkLib (lib_unit lib) (lib_precision lib)
                 (mkCell (name cell) (polygons cell ++ vias) :: others) /\
    (density spec == 0 -> vias = [] /\ lib' = lib) /\
    (density spec == 1 ->
     let candidates := _calc_candidates cell m1_layer m2_layer
                         (enclosure_x spec) (enclosure_y spec) in
     let centers :=
       map center_of
           (List.filter (size_ok (via_x spec) (via_y spec)) candidates) in
     (length (_pitch_clean centers (via_pitch_x spec) (via_pitch_y spec)
                (_get_layer_polys cell m1_layer 0)
                (_get_layer_polys cell m2_layer 0))
      = length centers ->
      vias ≡ₚ map (via_rect spec) centers)).
Proof.
  intros Hrun. apply generate_vias_effect in Hrun.
  destruct Hrun as (cell & others & Hc & Hv & Hl & _).
  exists cell, others. split; [exact Hc|]. split; [exact Hl|]. split.
  - intros Hd.
    assert (E : vias = []).
    { rewrite Hv. unfold via_centers.
      rewrite sample_density_low by lra. reflexivity. }
    split; [exact E|]. rewrite Hl, E, app_nil_r.
    destruct lib as [u p cs]. simpl in Hc. rewrite Hc.
    destruct cell as [nm ps]. reflexivity.
  - intros Hd candidates centers Hlen. rewrite Hv.
    unfold via_centers. rewrite sample_density_high by lra.
    fold candidates. fold centers.
    apply Permutation_map.
    apply submseteq_length_Permutation.
    + apply pitch_clean_submseteq.
    + rewrite Hlen. reflexivity.
Qed.

Lemma density_extremes_witness :
  let run := @generate_vias_from_metals demo_externals demo_metal_lib
               dense_via_spec 110 111 in
  let vias := fst (value_of ([], empty_lib) run) in
  let lib' := snd (value_of ([], empty_lib) run) in
  run = Done (vias, lib') /\
  length vias = 14%nat /\
  exists cell others,
    cells demo_metal_lib = cell :: others /\
    lib' = mkLib (lib_unit demo_metal_lib) (lib_precision demo_metal_lib)
                 (mkCell (name cell) (polygons cell ++ vias) :: others) /\
    vias ≡ₚ map (via_rect dense_via_spec)
              (map center_of
                 (List.filter
                    (size_ok (via_x dense_via_spec) (via_y dense_via_spec))
                    (@_calc_candidates demo_externals cell 110 111
                       (enclosure_x dense_via_spec)
                       (enclosure_y dense_via_spec)))).
Proof.
  intros run vias lib'.
  assert (Hrun : run = Done (vias, lib')) by (vm_compute; reflexivity).
  split; [exact Hrun|]. split; [vm_compute; reflexivity|].
  destruct (@density_extremes demo_externals demo_metal_lib dense_via_spec
              110 111 vias lib' Hrun) as (cell & others & Hc & Hl & _ & H1).
  exists cell, others. split; [exact Hc|]. split; [exact Hl|].
  assert (Ec : cell = demo_cell).
  { unfold demo_cell, first_cell. rewrite Hc. reflexivity. }
  apply H1; [reflexivity|]. rewrite Ec. vm_compute. reflexivity.
Defined.

(** ** Assist wires *)

Lemma rect_from_bbox_collapsed (b : bbox) :
  bx1 b <= bx0 b \/ by1 b <= by0 b -> _rect_from_bbox b = None.
Proof.
  destruct b as [[[x0 y0] x1] y1]. unfold bx0, bx1, by0, by1. simpl.
  intros [H | H]; apply qleb_le in H; rewrite H; [|rewrite orb_true_r];
    reflexivity.
Qed.

Lemma assist_horizontal_app (l1 l2 : list points) (ex : Q) :
  _assist_polys_horizontal (l1 ++ l2) ex
  = _assist_polys_horizontal l1 ex ++ _assist_polys_horizontal l2 ex.
Proof.
  induction l1 as [|p l1 IH]; [reflexivity|].
  cbn [_assist_polys_horizontal app].
  destruct (_bbox p) as [[[x0 y0] x1] y1].
  destruct (_rect_from_bbox (x0 + ex, y0, x1 - ex, y1));
    rewrite IH; reflexivity.
Qed.

Lemma assist_vertical_app (l1 l2 : list points) (ey : Q) :
  _assist_polys_vertical (l1 ++ l2) ey
  = _assist_polys_vertical l1 ey ++ _assist_polys_vertical l2 ey.
Proof.
  induction l1 as [|p l1 IH]; [reflexivity|].
  cbn [_assist_polys_vertical app].
  destruct (_bbox p) as [[[x0 y0] x1] y1].
  destruct (_rect_from_bbox (x0, y0 + ey, x1, y1 - ey));
    rewrite IH; reflexivity.
Qed.

Lemma assist_horizontal_collapsed (pre post : list points) (p : points)
  (ex : Q) :
  bx1 (_bbox p) - ex <= bx0 (_bbox p) + ex ->
  _assist_polys_horizontal (pre ++ p :: post) ex
  = _assist_polys_horizontal (pre ++ post) ex.
Proof.
  intros H. rewrite !assist_horizontal_app. f_equal.
  cbn [_assist_polys_horizontal].
  destruct (_bbox p) as [[[x0 y0] x1] y1] eqn:E.
  unfold bx0, bx1 in H. simpl in H.
  rewrite rect_from_bbox_collapsed; [reflexivity|]. left. exact H.
Qed.

Lemma assist_vertical_collapsed (pre post : list points) (p : points)
  (ey : Q) :
  by1 (_bbox p) - ey <= by0 (_bbox p) + ey ->
  _assist_polys_vertical (pre ++ p :: post) ey
  = _assist_polys_vertical (pre ++ post) ey.
Proof.
  intros H. rewrite !assist_vertical_app. f_equal.
  cbn [_assist_polys_vertical].
  destruct (_bbox p) as [[[x0 y0] x1] y1] eqn:E.
  unfold by0, by1 in H. simpl in H.
  rewrite rect_from_bbox_collapsed; [reflexivity|]. right. exact H.
Qed.

(** C7. An m1 rectangle that the horizontal shrink by [ex] collapses or
    inverts is excluded from the assist set, and the candidates are those of
    a cell without it; likewise for an m2 rectangle under the vertical shrink
    by [ey]. *)
Theorem collapsed_rectangle_contributes_nothing `{Externals}
  (cell cell' : Cell) (m1_layer m2_layer : Z) (ex ey : Q)
  (pre post : list points) (p : points) :
  (bx1 (_bbox p) - ex <= bx0 (_bbox p) + ex ->
   _assist_polys_horizontal (pre ++ p :: post) ex
   = _assist_polys_horizontal (pre ++ post) ex /\
   (_get_layer_polys cell m1_layer 0 = pre ++ p :: post ->
    _get_layer_polys cell' m1_layer 0 = pre ++ post ->
    _get_layer_polys cell' m2_layer 0 = _get_layer_polys cell m2_layer 0 ->
    _calc_candidates cell m1_layer m2_layer ex ey
    = _calc_candidates cell' m1_layer m2_layer ex ey)) /\
  (by1 (_bbox p) - ey <= by0 (_bbox p) + ey ->
   _assist_polys_vertical (pre ++ p :: post) ey
   = _assist_polys_vertical (pre ++ post) ey /\
   (_get_layer_polys cell m2_layer 0 = pre ++ p :: post ->
    _get_layer_polys cell' m2_layer 0 = pre ++ post ->
    _get_layer_polys cell' m1_layer 0 = _get_layer_polys cell m1_layer 0 ->
    _calc_candidates cell m1_layer m2_layer ex ey
    = _calc_candidates cell' m1_layer m2_layer ex ey)).
Proof.
  split; intros Hc.
  - split; [apply assist_horizontal_collapsed; exact Hc|].
    intros H1 H1' H2. unfold _calc_candidates.
    rewrite H1, H1', H2. rewrite assist_horizontal_collapsed by exact Hc.
    reflexivity.
  - split; [apply assist_vertical_collapsed; exact Hc|].
    intros H2 H2' H1. unfold _calc_candidates.
    rewrite H2, H2', H1. rewrite assist_vertical_collapsed by exact Hc.
    reflexivity.
Qed.

Lemma collapsed_rectangle_contributes_nothing_witness :
  bx1 (_bbox narrow_poly) - 30 <= bx0 (_bbox narrow_poly) + 30 /\
  _get_layer_polys assist_cell 110 0 = [] ++ narrow_poly :: [wide_poly] /\
  _get_layer_polys assist_cell_without 110 0 = [] ++ [wide_poly] /\
  _get_layer_polys assist_cell_without 111 0
  = _get_layer_polys assist_cell 111 0 /\
  length (@_calc_candidates demo_externals assist_cell 110 111 30 1) = 1%nat /\
  @_calc_candidates demo_externals assist_cell 110 111 30 1
  = @_calc_candidates demo_externals assist_cell_without 110 111 30 1.
Proof.
  assert (Hc : bx1 (_bbox narrow_poly) - 30 <= bx0 (_bbox narrow_poly) + 30)
    by (vm_compute; discriminate).
  assert (H1 : _get_layer_polys assist_cell 110 0
               = [] ++ narrow_poly :: [wide_poly]) by reflexivity.
  assert (H2 : _get_layer_polys assist_cell_without 110 0 = [] ++ [wide_poly])
    by reflexivity.
  assert (H3 : _get_layer_polys assist_cell_without 111 0
               = _get_layer_polys assist_cell 111 0) by reflexivity.
  split; [exact Hc|]. split; [exact H1|]. split; [exact H2|].
  split; [exact H3|]. split; [vm_compute; reflexivity|].
  exact (proj2 (proj1 (@collapsed_rectangle_contributes_nothing demo_externals
                         assist_cell assist_cell_without 110 111 30 1
                         [] [wide_poly] narrow_poly) Hc) H1 H2 H3).
Defined.

(** ** Determinism *)

Lemma strap_loop_fuel_mono (length_x width pitch total_y : Q)
  (layer datatype : Z) :
  forall fuel fuel' cell y cell',
    (fuel <= fuel')%nat ->
    strap_loop fuel cell y length_x width pitch total_y layer datatype
    = Some cell' ->
    strap_loop fuel' cell y length_x width pitch total_y layer datatype
    = Some cell'.
Proof.
  induction fuel as [|fuel IH]; intros fuel' cell y cell' Hle H; simpl in H.
  - destruct (qleb (y + width) total_y) eqn:Hy; [discriminate|].
    destruct fuel'; simpl; rewrite Hy; exact H.
  - destruct fuel' as [|fuel']; [lia|]. simpl.
    destruct (qleb (y + width) total_y); [|exact H].
    apply IH; [lia | exact H].
Qed.

(** *** The layout depends on a generator only through its draws *)

Lemma random_same (g1 g2 : Generator) :
  same_draws g1 g2 ->
  fst (random g1) = fst (random g2) /\
  same_draws (snd (random g1)) (snd (random g2)).
Proof.
  intros [Hc Hs]. unfold random, same_draws. simpl.
  rewrite Hc, Hs. split; [reflexivity|]. split; [reflexivity | exact Hs].
Qed.

Lemma uniform_same (g1 g2 : Generator) (lo hi : Q) :
  same_draws g1 g2 ->
  fst (uniform g1 lo hi) = fst (uniform g2 lo hi) /\
  same_draws (snd (uniform g1 lo hi)) (snd (uniform g2 lo hi)).
Proof.
  intros H. apply random_same in H. unfold uniform.
  destruct (random g1) as [u1 r1]. destruct (random g2) as [u2 r2].
  simpl in *. destruct H as [-> H]. split; [reflexivity | exact H].
Qed.

Lemma rand_quantized_same (g1 g2 : Generator) (lo hi grid : Q) :
  same_draws g1 g2 ->
  fst (_rand_quantized g1 lo hi grid) = fst (_rand_quantized g2 lo hi grid) /\
  same_draws (snd (_rand_quantized g1 lo hi grid))
             (snd (_rand_quantized g2 lo hi grid)).
Proof.
  intros H. unfold _rand_quantized.
  destruct (if qltb hi lo then (hi, lo) else (lo, hi)) as [a b].
  pose proof (uniform_same g1 g2 a b H) as Hu.
  destruct (qleb grid 0); [exact Hu|].
  destruct (uniform g1 a b) as [v1 r1]. destruct (uniform g2 a b) as [v2 r2].
  simpl in *. destruct Hu as [-> Hu]. split; [reflexivity | exact Hu].
Qed.

Lemma track_body_same (x_base : Q) (spec : MetalGenSpec)
  (st1 st2 : TrackState) :
  same_state st1 st2 ->
  match track_body x_base spec st1, track_body x_base spec st2 with
  | Break a, Break b => same_state a b
  | Continue a, Continue b => same_state a b
  | _, _ => False
  end.
Proof.
  destruct st1 as [c1 y1 g1], st2 as [c2 y2 g2].
  intros (Hc & Hy & Hg). simpl in Hc, Hy, Hg. subst c2 y2.
  unfold track_body. cbn [ts_cell ts_y ts_rng].
  destruct (origin spec) as [xo yo].
  destruct (qltb (py_min (max_length spec) (total_y spec - y1))
                 (min_length spec)).
  { split; [reflexivity | split; [reflexivity | assumption]]. }
  pose proof (rand_quantized_same g1 g2 (min_length spec)
                (py_min (max_length spec) (total_y spec - y1)) 0 Hg) as Hl.
  destruct (_rand_quantized g1 (min_length spec) _ 0) as [l1 r1].
  destruct (_rand_quantized g2 (min_length spec) _ 0) as [l2 r2].
  simpl in Hl. destruct Hl as [<- Hr].
  destruct (qleb (total_y spec) (y1 + l1)).
  { split; [reflexivity | split; [reflexivity | assumption]]. }
  destruct (qltb (py_min (max_t2t spec) (total_y spec - (y1 + l1)))
                 (min_t2t spec)).
  { split; [reflexivity | split; [reflexivity | assumption]]. }
  pose proof (rand_quantized_same r1 r2 (min_t2t spec)
                (py_min (max_t2t spec) (total_y spec - (y1 + l1)))
                (t2t_grid spec) Hr) as Ht.
  destruct (_rand_quantized r1 (min_t2t spec) _ (t2t_grid spec)) as [t1 q1].
  destruct (_rand_quantized r2 (min_t2t spec) _ (t2t_grid spec)) as [t2 q2].
  simpl in Ht. destruct Ht as [<- Hq].
  split; [reflexivity | split; [reflexivity | assumption]].
Qed.

Lemma track_loop_same (x_base : Q) (spec : MetalGenSpec) :
  forall fuel st1 st2,
    same_state st1 st2 ->
    match track_loop fuel x_base spec st1, track_loop fuel x_base spec st2
    with
    | Some a, Some b => same_state a b
    | None, None => True
    | _, _ => False
    end.
Proof.
  induction fuel as [|fuel IH]; intros st1 st2 Hs; simpl;
    pose proof Hs as (_ & Hy & _); rewrite <- Hy.
  - destruct (qltb (ts_y st1) (total_y spec)); [exact I | exact Hs].
  - destruct (qltb (ts_y st1) (total_y spec)); [|exact Hs].
    pose proof (track_body_same x_base spec st1 st2 Hs) as Hb.
    destruct (track_body x_base spec st1) as [a|a],
             (track_body x_base spec st2) as [b|b]; try contradiction.
    + apply IH. exact Hb.
    + exact Hb.
Qed.

Lemma column_loop_same (track_fuel : nat) (spec : MetalGenSpec) :
  forall fuel cell x g1 g2,
    same_draws g1 g2 ->
    column_loop track_fuel fuel spec cell x g1
    = column_loop track_fuel fuel spec cell x g2.
Proof.
  induction fuel as [|fuel IH]; intros cell x g1 g2 Hg; simpl; [reflexivity|].
  destruct (qleb (x + wire_cd spec) (total_x spec)); [|reflexivity].
  unfold _draw_one_track_vertical.
  pose proof (track_loop_same x spec track_fuel
                (mkTrackState cell 0 g1) (mkTrackState cell 0 g2)) as Hl.
  destruct (track_loop track_fuel x spec (mkTrackState cell 0 g1)) as [a|],
           (track_loop track_fuel x spec (mkTrackState cell 0 g2)) as [b|];
    try (exfalso; apply Hl; split; [reflexivity | split; [reflexivity | assumption]]); [|reflexivity].
  destruct Hl as (Hc & _ & Hr); [split; [reflexivity | split; [reflexivity | assumption]]|].
  rewrite Hc. apply IH. exact Hr.
Qed.

Lemma sample_centers_same (bboxes : list bbox) (vx vy density : Q) :
  forall g1 g2,
    same_draws g1 g2 ->
    _sample_centers_from_bboxes bboxes vx vy g1 density
    = _sample_centers_from_bboxes bboxes vx vy g2 density.
Proof.
  induction bboxes as [|b rest IH]; intros g1 g2 Hg; simpl; [reflexivity|].
  destruct (size_ok vx vy b); [|apply IH; exact Hg].
  destruct (random_same g1 g2 Hg) as [Hu Hr]. unfold random in Hu, Hr.
  simpl in Hu, Hr. rewrite Hu.
  rewrite (IH _ _ Hr). reflexivity.
Qed.

Lemma calc_candidates_same (E1 E2 : Externals) (cell : Cell)
  (m1_layer m2_layer : Z) (ex ey : Q) :
  (forall A B, @boolean_and E1 A B = @boolean_and E2 A B) ->
  @_calc_candidates E1 cell m1_layer m2_layer ex ey
  = @_calc_candidates E2 cell m1_layer m2_layer ex ey.
Proof.
  intros Hk. unfold _calc_candidates. rewrite Hk. reflexivity.
Qed.

Lemma via_centers_same (E1 E2 : Externals) (cell : Cell) (spec : ViaGenSpec)
  (g1 g2 : Generator) (m1_layer m2_layer : Z) :
  (forall A B, @boolean_and E1 A B = @boolean_and E2 A B) ->
  same_draws g1 g2 ->
  @via_centers E1 cell spec g1 m1_layer m2_layer
  = @via_centers E2 cell spec g2 m1_layer m2_layer.
Proof.
  intros Hk Hg. unfold via_centers.
  rewrite (calc_candidates_same E1 E2 cell m1_layer m2_layer _ _ Hk).
  rewrite (sample_centers_same _ _ _ _ g1 g2 Hg). reflexivity.
Qed.

(** *** The three entry points *)

Lemma draw_metal_cell_vertical_deterministic (E1 E2 : Externals)
  (entropy1 entropy2 : nat -> Q) (fuel1 fuel2 : nat) (world1 world2 : World)
  (spec : MetalGenSpec) (lib1 lib2 : GdsLibrary) :
  seed spec <> None ->
  (forall s n, seed spec = Some s ->
               @seed_sequence E1 s n = @seed_sequence E2 s n) ->
  fst (@draw_metal_cell_vertical E1 entropy1 fuel1 world1 spec) = Done lib1 ->
  fst (@draw_metal_cell_vertical E2 entropy2 fuel2 world2 spec) = Done lib2 ->
  lib1 = lib2.
Proof.
  intros Hs Hseq H1 H2.
  apply draw_metal_cell_vertical_inv in H1, H2.
  destruct H1 as (_ & g1 & c1 & Hg1 & Hc1 & ->).
  destruct H2 as (_ & g2 & c2 & Hg2 & Hc2 & ->).
  destruct (seed spec) as [s|] eqn:Es; [|congruence].
  simpl in Hg1, Hg2.
  destruct (s <? 0)%Z; [discriminate|].
  injection Hg1 as <-. injection Hg2 as <-.
  apply (column_loop_fuel_mono spec fuel1 (Nat.max fuel1 fuel2)
           fuel1 (Nat.max fuel1 fuel2)) in Hc1; [|lia|lia].
  apply (column_loop_fuel_mono spec fuel2 (Nat.max fuel1 fuel2)
           fuel2 (Nat.max fuel1 fuel2)) in Hc2; [|lia|lia].
  rewrite (column_loop_same (Nat.max fuel1 fuel2) spec (Nat.max fuel1 fuel2)
             _ 0 (mkGenerator (@seed_sequence E1 s) 0)
             (mkGenerator (@seed_sequence E2 s) 0)) in Hc1.
  - congruence.
  - split; [reflexivity|]. intros n. simpl. apply Hseq. reflexivity.
Qed.

Lemma draw_metal1_deterministic (fuel1 fuel2 : nat) (lib : GdsLibrary)
  (length_x width pitch total_y : Q) (layer datatype : Z)
  (lib1 lib2 : GdsLibrary) :
  draw_metal1 fuel1 lib length_x width pitch total_y layer datatype
  = Done lib1 ->
  draw_metal1 fuel2 lib length_x width pitch total_y layer datatype
  = Done lib2 ->
  lib1 = lib2.
Proof.
  unfold draw_metal1. intros H1 H2.
  destruct (first_cell lib) as [cell| |]; try discriminate.
  destruct (strap_loop fuel1 cell 0 _ _ _ _ _ _) as [c1|] eqn:E1; [|discriminate].
  destruct (strap_loop fuel2 cell 0 _ _ _ _ _ _) as [c2|] eqn:E2; [|discriminate].
  injection H1 as <-. injection H2 as <-.
  apply (strap_loop_fuel_mono _ _ _ _ _ _ fuel1 (Nat.max fuel1 fuel2)) in E1;
    [|lia].
  apply (strap_loop_fuel_mono _ _ _ _ _ _ fuel2 (Nat.max fuel1 fuel2)) in E2;
    [|lia].
  congruence.
Qed.

Lemma generate_vias_deterministic (E1 E2 : Externals) (lib : GdsLibrary)
  (spec : ViaGenSpec) (m1_layer m2_layer : Z)
  (out1 out2 : list Polygon * GdsLibrary) :
  (forall n, @seed_sequence E1 (via_seed spec) n
             = @seed_sequence E2 (via_seed spec) n) ->
  (forall A B, @boolean_and E1 A B = @boolean_and E2 A B) ->
  @generate_vias_from_metals E1 lib spec m1_layer m2_layer = Done out1 ->
  @generate_vias_from_metals E2 lib spec m1_layer m2_layer = Done out2 ->
  out1 = out2.
Proof.
  intros Hseq Hk H1 H2.
  destruct out1 as [v1 l1], out2 as [v2 l2].
  apply generate_vias_effect in H1, H2.
  destruct H1 as (c1 & o1 & Hc1 & Hv1 & Hl1 & _).
  destruct H2 as (c2 & o2 & Hc2 & Hv2 & Hl2 & _).
  rewrite Hc1 in Hc2. injection Hc2 as <- <-.
  assert (Ev : v1 = v2).
  { rewrite Hv1, Hv2. f_equal. apply via_centers_same; [exact Hk|].
    split; [reflexivity | exact Hseq]. }
  rewrite Hl1, Hl2, Ev. reflexivity.
Qed.

(** Without a seed two runs may differ: the seed is what fixes the
    layout. *)
Lemma unseeded_runs_differ :
  fst (@draw_metal_cell_vertical demo_externals demo_entropy 6 []
                                 unseeded_spec)
  <> fst (@draw_metal_cell_vertical demo_externals (fun _ => 1 # 3) 6 []
                                    unseeded_spec).
Proof. vm_compute. intros H. discriminate H. Qed.

(** Whatever a run of the track generator did, it left the name of its cell
    in the library of the process: a later run in that process with the same
    cell name ends with [ValueError]. Runs that are to give a layout each
    need a process of their own, or at least a library without the name. *)
Lemma rerun_in_same_process_raises `{Externals}
  (entropy1 entropy2 : nat -> Q) (fuel1 fuel2 : nat) (world : World)
  (spec : MetalGenSpec) :
  fst (draw_metal_cell_vertical entropy2 fuel2
         (snd (draw_metal_cell_vertical entropy1 fuel1 world spec)) spec)
  = Raised ValueError.
Proof.
  unfold draw_metal_cell_vertical at 2. unfold new_cell.
  destruct (holds world (cell_name spec)) eqn:Eh; cbn [snd].
  - unfold draw_metal_cell_vertical, new_cell. rewrite Eh. reflexivity.
  - unfold draw_metal_cell_vertical, new_cell.
    assert (E : holds (cell_name spec :: world) (cell_name spec) = true)
      by (apply holds_In; left; reflexivity).
    rewrite E. reflexivity.
Qed.

(** C1. With a fixed seed in the metal specification (the via seed is
    always one), two runs of the pipeline on the same specifications that
    return a layout return the same vias and the same library, rectangle by
    rectangle and in the same order. Nothing else a run can see matters:
    not the entropy the operating system offers, not what the library of the
    process holds, not how long the run is allowed to take, and not what
    numpy and gdspy would do elsewhere, as long as in both runs numpy expands
    the two seeds to the same draws and the intersection gives the same
    answer on the same operands. *)
Theorem pipeline_deterministic (E1 E2 : Externals)
  (entropy1 entropy2 : nat -> Q) (fuel1 fuel2 : nat) (world1 world2 : World)
  (spec : MetalGenSpec) (strap : StrapArgs) (via_spec : ViaGenSpec)
  (m1_layer m2_layer : Z) (out1 out2 : list Polygon * GdsLibrary) :
  seed spec <> None ->
  (forall s n, seed spec = Some s \/ s = via_seed via_spec ->
               @seed_sequence E1 s n = @seed_sequence E2 s n) ->
  (forall A B, @boolean_and E1 A B = @boolean_and E2 A B) ->
  fst (@pipeline E1 entropy1 fuel1 world1 spec strap via_spec
                 m1_layer m2_layer) = Done out1 ->
  fst (@pipeline E2 entropy2 fuel2 world2 spec strap via_spec
                 m1_layer m2_layer) = Done out2 ->
  out1 = out2.
Proof.
  unfold pipeline, and_then. intros Hs Hseq Hk H1 H2.
  destruct (@draw_metal_cell_vertical E1 entropy1 fuel1 world1 spec)
    as [[la| |] wa] eqn:Ea; try discriminate.
  destruct (@draw_metal_cell_vertical E2 entropy2 fuel2 world2 spec)
    as [[lb| |] wb] eqn:Eb; try discriminate.
  cbn [fst] in H1, H2.
  assert (lb = la) as ->.
  { symmetry.
    apply (draw_metal_cell_vertical_deterministic E1 E2 entropy1 entropy2
             fuel1 fuel2 world1 world2 spec la lb Hs).
    - intros s n Es. apply Hseq. left. exact Es.
    - rewrite Ea. reflexivity.
    - rewrite Eb. reflexivity. }
  destruct (draw_metal1 fuel1 la _ _ _ _ _ _) as [l1| |] eqn:Es1;
    try discriminate.
  destruct (draw_metal1 fuel2 la _ _ _ _ _ _) as [l2| |] eqn:Es2;
    try discriminate.
  assert (l2 = l1) as ->
    by (symmetry; eapply draw_metal1_deterministic; eassumption).
  apply (generate_vias_deterministic E1 E2 l1 via_spec m1_layer m2_layer
           out1 out2); try assumption.
  intros n. apply Hseq. right. reflexivity.
Qed.

Lemma pipeline_deterministic_witness :
  let run1 := fst (@pipeline demo_externals demo_entropy 6 [] demo_spec
                     demo_strap demo_via_spec 110 111) in
  let run2 := fst (@pipeline other_externals (fun _ => 1 # 3) 9
                     ["another_cell"%string] demo_spec demo_strap
                     demo_via_spec 110 111) in
  seed demo_spec <> None /\
  (forall s n, seed demo_spec = Some s \/ s = via_seed demo_via_spec ->
               @seed_sequence demo_externals s n
               = @seed_sequence other_externals s n) /\
  (forall A B, @boolean_and demo_externals A B
               = @boolean_and other_externals A B) /\
  @seed_sequence demo_externals 1 0 <> @seed_sequence other_externals 1 0 /\
  run1 = Done (value_of ([], empty_lib) run1) /\
  run2 = Done (value_of ([], empty_lib) run2) /\
  length (fst (value_of ([], empty_lib) run1)) = 6%nat /\
  value_of ([], empty_lib) run1 = value_of ([], empty_lib) run2.
Proof.
  intros run1 run2.
  assert (Hs : seed demo_spec <> None) by discriminate.
  assert (Hseq : forall s n,
             seed demo_spec = Some s \/ s = via_seed demo_via_spec ->
             @seed_sequence demo_externals s n
             = @seed_sequence other_externals s n).
  { intros s n [E | E]; [injection E as <- | subst s]; reflexivity. }
  assert (Hk : forall A B, @boolean_and demo_externals A B
                           = @boolean_and other_externals A B)
    by reflexivity.
  assert (H1 : run1 = Done (value_of ([], empty_lib) run1))
    by (vm_compute; reflexivity).
  assert (H2 : run2 = Done (value_of ([], empty_lib) run2))
    by (vm_compute; reflexivity).
  split; [exact Hs|]. split; [exact Hseq|]. split; [exact Hk|].
  split; [vm_compute; discriminate|].
  split; [exact H1|]. split; [exact H2|].
  split; [vm_compute; reflexivity|].
  exact (pipeline_deterministic demo_externals other_externals
           demo_entropy (fun _ => 1 # 3) 6 9 [] ["another_cell"%string]
           demo_spec demo_strap demo_via_spec 110 111 _ _ Hs Hseq Hk H1 H2).
Defined.

(** ** Specifications outside the data model *)

Lemma track_body_no_room (x_base : Q) (spec : MetalGenSpec) (st : TrackState) :
  max_length spec < min_length spec ->
  ts_y st < total_y spec ->
  track_body x_base spec st = Break st.
Proof.
  intros Hm Hy. unfold track_body. destruct (origin spec) as [xo yo].
  assert (E : qltb (py_min (max_length spec) (total_y spec - ts_y st))
                   (min_length spec) = true).
  { apply qltb_lt.
    destruct (py_min_spec (max_length spec) (total_y spec - ts_y st))
      as [[H1 ->] | [H1 ->]]; lra. }
  rewrite E. reflexivity.
Qed.

Lemma draw_one_track_no_room (fuel : nat) (cell : Cell) (x_base : Q)
  (spec : MetalGenSpec) (rng : Generator) :
  max_length spec < min_length spec ->
  _draw_one_track_vertical (S fuel) cell x_base spec rng = Some (cell, rng).
Proof.
  intros Hm. unfold _draw_one_track_vertical. simpl.
  destruct (qltb 0 (total_y spec)) eqn:Hy; [|reflexivity].
  rewrite track_body_no_room; [reflexivity | exact Hm |].
  apply qltb_lt in Hy. exact Hy.
Qed.

Lemma column_loop_no_room (spec : MetalGenSpec) (track_fuel : nat) :
  max_length spec < min_length spec ->
  forall fuel cell x rng,
    total_x spec - wire_cd spec - x
    < inject_Z (Z.of_nat fuel) * track_pitch spec ->
    column_loop (S track_fuel) fuel spec cell x rng = Some cell.
Proof.
  intros Hm. induction fuel as [|fuel IH]; intros cell x rng Hf; simpl.
  - destruct (qleb (x + wire_cd spec) (total_x spec)) eqn:Hx; [|reflexivity].
    apply qleb_le in Hx. change (inject_Z (Z.of_nat 0)) with 0 in Hf. lra.
  - destruct (qleb (x + wire_cd spec) (total_x spec)) eqn:Hx; [|reflexivity].
    pose proof (draw_one_track_no_room track_fuel cell x spec rng Hm) as E.
    simpl in E. rewrite E. apply IH. rewrite inject_Z_S in Hf. lra.
Qed.

Lemma column_loop_diverges (spec : MetalGenSpec) (track_fuel : nat) :
  track_pitch spec <= 0 ->
  forall fuel cell x rng,
    x + wire_cd spec <= total_x spec ->
    column_loop track_fuel fuel spec cell x rng = None.
Proof.
  intros Hp. induction fuel as [|fuel IH]; intros cell x rng Hx; simpl;
    (assert (E : qleb (x + wire_cd spec) (total_x spec) = true)
      by (apply qleb_le; exact Hx)); rewrite E; [reflexivity|].
  destruct (_draw_one_track_vertical track_fuel cell x spec rng)
    as [[c g]|]; [|reflexivity].
  apply IH. lra.
Qed.

Lemma via_centers_density_high `{Externals} (cell : Cell) (spec : ViaGenSpec)
  (rng : Generator) (m1_layer m2_layer : Z) :
  1 <= density spec ->
  via_centers cell spec rng m1_layer m2_layer
  = via_centers cell (with_density spec 1) rng m1_layer m2_layer.
Proof.
  intros Hd. unfold via_centers. simpl.
  rewrite !sample_density_high by lra. reflexivity.
Qed.

Lemma via_centers_density_low `{Externals} (cell : Cell) (spec : ViaGenSpec)
  (rng : Generator) (m1_layer m2_layer : Z) :
  density spec <= 0 -> via_centers cell spec rng m1_layer m2_layer = [].
Proof.
  intros Hd. unfold via_centers. rewrite sample_density_low by exact Hd.
  reflexivity.
Qed.

(** The claim of C2 fails: a specification whose longest segment is
    shorter than its shortest is not rejected; the track generator returns a
    library whose cell holds no rectangle. *)
Lemma malformed_spec_accepted :
  ~ valid_metal_spec bad_spec /\
  max_length bad_spec < min_length bad_spec /\
  fst (@draw_metal_cell_vertical demo_externals demo_entropy 6 [] bad_spec)
  = Done (mkLib (1 # 1000000000) (1 # 1000000000000)
                [mkCell "metal_cell" []]).
Proof.
  assert (Hm : max_length bad_spec < min_length bad_spec)
    by (unfold Qlt; simpl; lia).
  split; [|split; [exact Hm | vm_compute; reflexivity]].
  intros (_ & _ & _ & _ & _ & Hl & _). lra.
Qed.

(** C2, as the code has it. The entry points do not check the fields the
    claim names; a run that nothing else stops goes on with them. With
    [max_length < min_length] and a positive track pitch the track generator
    returns a cell without rectangles. With a track pitch that is not
    positive and a first column that fits it never returns. With a density
    at or below 0 the via generator returns no via and leaves the library as
    it was, and with a density at or above 1 it returns what it returns for
    density 1. Here nothing else stops a run when the name of the cell is
    free in the library of the process, numpy accepts the seed, and the
    library given to the via generator has a cell. *)
Theorem malformed_specs_not_rejected `{Externals} :
  (forall entropy world spec,
      max_length spec < min_length spec -> 0 < track_pitch spec ->
      ~ In (cell_name spec) world -> seed_ok (seed spec) ->
      exists fuel0, forall fuel, (fuel0 <= fuel)%nat ->
        fst (draw_metal_cell_vertical entropy fuel world spec)
        = Done (mkLib (1 # 1000000000) (1 # 1000000000000)
                      [mkCell (cell_name spec) []])) /\
  (forall entropy fuel world spec,
      track_pitch spec <= 0 -> wire_cd spec <= total_x spec ->
      ~ In (cell_name spec) world -> seed_ok (seed spec) ->
      fst (draw_metal_cell_vertical entropy fuel world spec) = OutOfFuel) /\
  (forall lib spec m1_layer m2_layer cell others,
      cells lib = cell :: others -> (0 <= via_seed spec)%Z ->
      (density spec <= 0 ->
       generate_vias_from_metals lib spec m1_layer m2_layer
       = Done ([], lib)) /\
      (1 <= density spec ->
       exists vias lib',
         generate_vias_from_metals lib spec m1_layer m2_layer
         = Done (vias, lib') /\
         generate_vias_from_metals lib (with_density spec 1)
                                   m1_layer m2_layer
         = Done (vias, lib'))).
Proof.
  split; [|split].
  - intros entropy world spec Hm Hp Hfree Hseed.
    set (n := (Z.to_nat (Qceiling ((total_x spec - wire_cd spec)
                                   / track_pitch spec)) + 1)%nat).
    exists n. intros fuel Hfuel.
    destruct (default_rng_ok entropy (seed spec) Hseed) as [rng Er].
    rewrite (draw_metal_cell_vertical_run entropy fuel world spec rng
               Hfree Er). cbn [fst].
    assert (Hb : total_x spec - wire_cd spec - 0
                 < inject_Z (Z.of_nat n) * track_pitch spec).
    { subst n. rewrite Nat.add_1_r, inject_Z_S.
      pose proof (ceiling_bound (total_x spec - wire_cd spec)
                    (track_pitch spec) Hp). nra. }
    destruct fuel as [|fuel]; [subst n; lia|].
    pose proof (column_loop_no_room spec fuel Hm n
                  (mkCell (cell_name spec) []) 0 rng Hb) as E.
    rewrite (column_loop_fuel_mono spec n (S fuel) (S fuel) (S fuel)
               _ _ _ _ Hfuel (Nat.le_refl _) E).
    reflexivity.
  - intros entropy fuel world spec Hp Hw Hfree Hseed.
    destruct (default_rng_ok entropy (seed spec) Hseed) as [rng Er].
    rewrite (draw_metal_cell_vertical_run entropy fuel world spec rng
               Hfree Er). cbn [fst].
    rewrite column_loop_diverges; [reflexivity | exact Hp | lra].
  - intros lib spec m1_layer m2_layer cell others Hc Hs. split.
    + intros Hd.
      rewrite (generate_vias_run lib spec m1_layer m2_layer cell others
                 Hc Hs).
      rewrite via_centers_density_low by exact Hd. cbn [map].
      rewrite app_nil_r. destruct lib as [u p cs]. simpl in Hc. rewrite Hc.
      destruct cell as [nm ps]. reflexivity.
    + intros Hd. eexists _, _. split.
      * apply (generate_vias_run lib spec m1_layer m2_layer cell others
                 Hc Hs).
      * rewrite (generate_vias_run lib (with_density spec 1)
                   m1_layer m2_layer cell others Hc Hs).
        rewrite <- (via_centers_density_high cell spec _ m1_layer m2_layer
                      Hd).
        reflexivity.
Qed.

Lemma malformed_specs_not_rejected_witness :
  max_length bad_spec < min_length bad_spec /\ 0 < track_pitch bad_spec /\
  ~ In (cell_name bad_spec) [] /\ seed_ok (seed bad_spec) /\
  exists fuel0, forall fuel, (fuel0 <= fuel)%nat ->
    fst (@draw_metal_cell_vertical demo_externals demo_entropy fuel []
                                   bad_spec)
    = Done (mkLib (1 # 1000000000) (1 # 1000000000000)
                  [mkCell (cell_name bad_spec) []]).
Proof.
  assert (H1 : max_length bad_spec < min_length bad_spec)
    by (unfold Qlt; simpl; lia).
  assert (H2 : 0 < track_pitch bad_spec) by (unfold Qlt; simpl; lia).
  assert (H3 : ~ In (cell_name bad_spec) []) by (intros []).
  assert (H4 : seed_ok (seed bad_spec)) by (simpl; lia).
  split; [exact H1|]. split; [exact H2|]. split; [exact H3|].
  split; [exact H4|].
  exact (proj1 (@malformed_specs_not_rejected demo_externals)
           demo_entropy [] bad_spec H1 H2 H3 H4).
Defined.

(** ** Bounding boxes *)

Lemma py_min_l (a b : Q) : a <= b -> py_min a b = a.
Proof. intros H. unfold py_min. apply qltb_ge in H. rewrite H. reflexivity. Qed.

Lemma py_min_r (a b : Q) : b < a -> py_min a b = b.
Proof. intros H. unfold py_min. apply qltb_lt in H. rewrite H. reflexivity. Qed.

Lemma py_max_l (a b : Q) : b <= a -> py_max a b = a.
Proof. intros H. unfold py_max. apply qltb_ge in H. rewrite H. reflexivity. Qed.

Lemma py_max_r (a b : Q) : a < b -> py_max a b = b.
Proof. intros H. unfold py_max. apply qltb_lt in H. rewrite H. reflexivity. Qed.

Lemma bbox_Rectangle (x0 y0 x1 y1 : Q) (l d : Z) :
  x0 < x1 -> y0 < y1 ->
  poly_bbox (Rectangle (x0, y0) (x1, y1) l d) = (x0, y0, x1, y1).
Proof.
  intros Hx Hy. unfold poly_bbox, Rectangle, _bbox, array_min, array_max.
  simpl.
  rewrite (py_min_l x0 x0), !(py_min_l x0 x1) by lra.
  rewrite (py_max_l x0 x0), (py_max_r x0 x1), (py_max_l x1 x1) by lra.
  rewrite !(py_min_l y0 y1), (py_min_l y0 y0) by lra.
  rewrite (py_max_r y0 y1), (py_max_l y1 y1), (py_max_l y1 y0) by lra.
  reflexivity.
Qed.

Lemma array_min_ge (lo x : Q) (xs : list Q) :
  lo <= x -> Forall (fun v => lo <= v) xs -> lo <= array_min x xs.
Proof.
  unfold array_min. intros Hx H. revert x Hx.
  induction H as [|v xs Hv Hxs IH]; intros x Hx; simpl; [exact Hx|].
  apply IH. destruct (py_min_spec x v) as [[_ ->] | [_ ->]]; assumption.
Qed.

Lemma array_max_le (hi x : Q) (xs : list Q) :
  x <= hi -> Forall (fun v => v <= hi) xs -> array_max x xs <= hi.
Proof.
  unfold array_max. intros Hx H. revert x Hx.
  induction H as [|v xs Hv Hxs IH]; intros x Hx; simpl; [exact Hx|].
  apply IH. destruct (py_max_spec x v) as [[_ ->] | [_ ->]]; assumption.
Qed.

(** The bounding box of vertices that lie in a box lies in that box. *)
Lemma bbox_of_inside (ext : bbox) (poly : points) :
  Forall (inside ext) (fst poly :: snd poly) ->
  bbox_within (_bbox poly) ext.
Proof.
  destruct poly as [p ps]. simpl. intros H.
  inversion H as [|? ? Hp Hps]; subst.
  destruct Hp as (Hp1 & Hp2 & Hp3 & Hp4).
  unfold bbox_within, _bbox, bx0, bx1, by0, by1. simpl.
  repeat split.
  - apply array_min_ge; [exact Hp1|]. apply Forall_map.
    eapply List.Forall_impl; [|exact Hps]. intros v Hv. apply Hv.
  - apply array_max_le; [exact Hp2|]. apply Forall_map.
    eapply List.Forall_impl; [|exact Hps]. intros v Hv. apply Hv.
  - apply array_min_ge; [exact Hp3|]. apply Forall_map.
    eapply List.Forall_impl; [|exact Hps]. intros v Hv. apply Hv.
  - apply array_max_le; [exact Hp4|]. apply Forall_map.
    eapply List.Forall_impl; [|exact Hps]. intros v Hv. apply Hv.
Qed.

Lemma inside_within (inner outer : bbox) (v : point) :
  bbox_within inner outer -> inside inner v -> inside outer v.
Proof.
  unfold bbox_within, inside. intros (H1 & H2 & H3 & H4) (I1 & I2 & I3 & I4).
  repeat split; lra.
Qed.

(** ** Containment of the tracks *)

Lemma track_rect_contained (spec : MetalGenSpec) (x_base : Q) (iv : Q * Q) :
  0 < wire_cd spec ->
  0 <= x_base -> x_base + wire_cd spec <= total_x spec ->
  0 <= fst iv -> 0 < snd iv -> fst iv + snd iv <= total_y spec ->
  contained (extent spec) (track_rect spec x_base iv).
Proof.
  intros Hw Hx0 Hx1 Ha Hl Hb. unfold contained, track_rect.
  rewrite bbox_Rectangle by lra.
  unfold bbox_within, positive_size, extent, bx0, bx1, by0, by1. simpl.
  repeat split; lra.
Qed.

(** For a wire of positive width and a segment of positive length, the
    corners a segment is drawn from are the corners of its bounding box. *)
Lemma track_rect_segment (spec : MetalGenSpec) (x_base : Q) (iv : Q * Q) :
  0 < wire_cd spec -> 0 < snd iv ->
  by0 (poly_bbox (track_rect spec x_base iv))
  = seg_bottom (track_rect spec x_base iv) /\
  by1 (poly_bbox (track_rect spec x_base iv))
  = seg_top (track_rect spec x_base iv).
Proof.
  intros Hw Hl. unfold track_rect.
  rewrite bbox_Rectangle by lra. split; reflexivity.
Qed.

Lemma column_ok_bounds (spec : MetalGenSpec) (y : Q) (ivs : list (Q * Q)) :
  0 < min_length spec -> 0 <= min_t2t spec ->
  column_ok spec y ivs -> 0 <= y ->
  Forall (fun iv => 0 <= fst iv /\ 0 < snd iv /\
                    fst iv + snd iv <= total_y spec) ivs.
Proof.
  intros Hl Ht H. induction H as [y | y l H1 H2 H3 | y l t rest H1 H2 H3 H4 H5 H6 Hr IH];
    intros Hy.
  - constructor.
  - constructor; [|constructor]. simpl. repeat split; lra.
  - constructor.
    + simpl. repeat split; lra.
    + apply IH. lra.
Qed.

Lemma columns_ok_contained (spec : MetalGenSpec) (x : Q)
  (cols : list (Q * list (Q * Q))) :
  valid_metal_spec spec ->
  columns_ok spec x cols -> 0 <= x ->
  Forall (contained (extent spec)) (concat (map (column_polys spec) cols)).
Proof.
  intros (Hw & Hp & Ht & Ht2 & Hl & Hl2 & Hx & Hy) H.
  induction H as [x | x ivs rest Hx1 Hc Hrest IH]; intros Hx0; simpl.
  - constructor.
  - apply Forall_app. split; [|apply IH; lra].
    unfold column_polys. simpl. apply Forall_map.
    eapply List.Forall_impl;
      [|apply (column_ok_bounds spec 0 ivs Hl ltac:(lra) Hc); lra].
    intros iv (Ha & Hb & Hc'). simpl.
    apply track_rect_contained; assumption.
Qed.

(** ** Containment of the straps *)

Lemma strap_rect_contained (strap : StrapArgs) (y : Q) :
  valid_strap strap ->
  0 <= y -> y + strap_width strap <= strap_total_y strap ->
  contained (strap_extent strap)
            (strap_rect (strap_length_x strap) (strap_width strap)
                        (strap_layer strap) (strap_datatype strap) y).
Proof.
  intros (Hl & Hw & Hp & Ht) Hy0 Hy1. unfold contained, strap_rect.
  rewrite bbox_Rectangle by lra.
  unfold bbox_within, positive_size, strap_extent, bx0, bx1, by0, by1. simpl.
  repeat split; lra.
Qed.

Lemma positions_lower (step : Q) (n : nat) :
  0 <= step ->
  forall start, Forall (fun y => start <= y) (positions n start step).
Proof.
  intros Hs. induction n as [|n IH]; intros start; cbn [positions];
    constructor; [lra|].
  eapply List.Forall_impl; [|apply (IH (start + step))].
  simpl. intros y Hy. lra.
Qed.

(** The straps of a run stand where the cursor of the loop stood, and each of
    them passed the test of the loop. *)
Lemma strap_loop_cursor (length_x width pitch total_y : Q)
  (layer datatype : Z) :
  forall fuel cell y cell',
    strap_loop fuel cell y length_x width pitch total_y layer datatype
    = Some cell' ->
    exists n,
      cell' = mkCell (name cell)
                (polygons cell
                 ++ map (strap_rect length_x width layer datatype)
                        (positions n y pitch)) /\
      Forall (fun yk => yk + width <= total_y) (positions n y pitch).
Proof.
  assert (Hstop : forall cell y,
             exists n,
               cell = mkCell (name cell)
                        (polygons cell
                         ++ map (strap_rect length_x width layer datatype)
                                (positions n y pitch)) /\
               Forall (fun yk => yk + width <= total_y)
                      (positions n y pitch)).
  { intros [nm ps] y. exists 0%nat. simpl. rewrite app_nil_r.
    split; [reflexivity | constructor]. }
  induction fuel as [|fuel IH]; intros cell y cell' H; simpl in H.
  - destruct (qleb (y + width) total_y); [discriminate|].
    injection H as <-. apply Hstop.
  - destruct (qleb (y + width) total_y) eqn:Hg.
    2:{ injection H as <-. apply Hstop. }
    apply qleb_le in Hg. apply IH in H. destruct H as (n & -> & Hfit).
    exists (S n). cbn [positions map]. split.
    + unfold cell_add. cbn [name polygons]. rewrite <- app_assoc.
      reflexivity.
    + constructor; assumption.
Qed.

(** ** Containment of the vias *)

Lemma get_layer_polys_In (cell : Cell) (l d : Z) (p : points) :
  In p (_get_layer_polys cell l d) ->
  exists P, In P (polygons cell) /\ vertices P = p /\
            poly_layer P = l /\ poly_datatype P = d.
Proof.
  unfold _get_layer_polys. intros H. apply List.in_map_iff in H.
  destruct H as (P & HP & Hin). apply List.filter_In in Hin.
  destruct Hin as [Hin Hk]. apply andb_true_iff in Hk.
  destruct Hk as [Hl Hd]. apply Z.eqb_eq in Hl, Hd.
  exists P. repeat split; assumption.
Qed.

Lemma rect_from_bbox_Some (b : bbox) (r : Polygon) :
  _rect_from_bbox b = Some r -> poly_bbox r = b.
Proof.
  destruct b as [[[x0 y0] x1] y1]. unfold _rect_from_bbox.
  destruct (qleb x1 x0) eqn:Hx; [discriminate|].
  destruct (qleb y1 y0) eqn:Hy; [discriminate|]. simpl.
  intros H. injection H as <-.
  apply qleb_gt in Hx, Hy. apply bbox_Rectangle; assumption.
Qed.

Lemma assist_horizontal_In (polys : list points) (ex : Q) (a : Polygon) :
  0 <= ex ->
  In a (_assist_polys_horizontal polys ex) ->
  exists p, In p polys /\ bbox_within (poly_bbox a) (_bbox p).
Proof.
  intros Hex. induction polys as [|p rest IH]; [intros []|].
  cbn [_assist_polys_horizontal].
  destruct (_bbox p) as [[[x0 y0] x1] y1] eqn:E.
  destruct (_rect_from_bbox (x0 + ex, y0, x1 - ex, y1)) as [r|] eqn:Er.
  - intros [<- | H].
    + exists p. split; [left; reflexivity|].
      rewrite (rect_from_bbox_Some _ _ Er), E.
      unfold bbox_within, bx0, bx1, by0, by1. simpl. repeat split; lra.
    + destruct (IH H) as (q & Hq & Hw). exists q. split; [right|]; assumption.
  - intros H. destruct (IH H) as (q & Hq & Hw).
    exists q. split; [right|]; assumption.
Qed.

Lemma assist_vertical_In (polys : list points) (ey : Q) (a : Polygon) :
  0 <= ey ->
  In a (_assist_polys_vertical polys ey) ->
  exists p, In p polys /\ bbox_within (poly_bbox a) (_bbox p).
Proof.
  intros Hey. induction polys as [|p rest IH]; [intros []|].
  cbn [_assist_polys_vertical].
  destruct (_bbox p) as [[[x0 y0] x1] y1] eqn:E.
  destruct (_rect_from_bbox (x0, y0 + ey, x1, y1 - ey)) as [r|] eqn:Er.
  - intros [<- | H].
    + exists p. split; [left; reflexivity|].
      rewrite (rect_from_bbox_Some _ _ Er), E.
      unfold bbox_within, bx0, bx1, by0, by1. simpl. repeat split; lra.
    + destruct (IH H) as (q & Hq & Hw). exists q. split; [right|]; assumption.
  - intros H. destruct (IH H) as (q & Hq & Hw).
    exists q. split; [right|]; assumption.
Qed.

Lemma calc_candidates_inv `{Externals} (cell : Cell) (m1_layer m2_layer : Z)
  (ex ey : Q) (b : bbox) :
  In b (_calc_candidates cell m1_layer m2_layer ex ey) ->
  exists polys poly,
    boolean_and
      (_assist_polys_horizontal (_get_layer_polys cell m1_layer 0) ex)
      (_assist_polys_vertical (_get_layer_polys cell m2_layer 0) ey)
    = Some polys /\
    In poly polys /\ b = _bbox poly.
Proof.
  unfold _calc_candidates.
  destruct (_assist_polys_horizontal _ ex) as [|a1 A1]; [intros []|].
  destruct (_assist_polys_vertical _ ey) as [|a2 A2]; [intros []|].
  destruct (boolean_and (a1 :: A1) (a2 :: A2)) as [polys|]; [|intros []].
  intros Hb. apply List.in_map_iff in Hb. destruct Hb as (poly & <- & Hin).
  exists polys, poly. repeat split. exact Hin.
Qed.

(** The candidates lie where the rectangles of the first layer lie. *)
Lemma candidates_within_m1 `{Externals} (cell : Cell) (m1_layer m2_layer : Z)
  (ex ey : Q) (ext : bbox) :
  kernel_sound -> 0 <= ex ->
  (forall P, In P (polygons cell) ->
             poly_layer P = m1_layer -> poly_datatype P = 0%Z ->
             bbox_within (poly_bbox P) ext) ->
  Forall (fun b => bbox_within b ext)
         (_calc_candidates cell m1_layer m2_layer ex ey).
Proof.
  intros Hk Hex Hext. apply List.Forall_forall. intros b Hb.
  apply calc_candidates_inv in Hb. destruct Hb as (polys & poly & Hand & Hin & ->).
  apply bbox_of_inside. apply List.Forall_forall. intros v Hv.
  destruct (Hk _ _ _ Hand poly Hin v Hv) as [(a & Ha & Hia) _].
  apply assist_horizontal_In in Ha; [|exact Hex].
  destruct Ha as (p & Hp & Hw).
  apply get_layer_polys_In in Hp. destruct Hp as (P & HP & <- & Hl & Hd).
  eapply inside_within; [apply (Hext P HP Hl Hd)|].
  eapply inside_within; [exact Hw | exact Hia].
Qed.

(** The candidates lie where the rectangles of the second layer lie. *)
Lemma candidates_within_m2 `{Externals} (cell : Cell) (m1_layer m2_layer : Z)
  (ex ey : Q) (ext : bbox) :
  kernel_sound -> 0 <= ey ->
  (forall P, In P (polygons cell) ->
             poly_layer P = m2_layer -> poly_datatype P = 0%Z ->
             bbox_within (poly_bbox P) ext) ->
  Forall (fun b => bbox_within b ext)
         (_calc_candidates cell m1_layer m2_layer ex ey).
Proof.
  intros Hk Hey Hext. apply List.Forall_forall. intros b Hb.
  apply calc_candidates_inv in Hb. destruct Hb as (polys & poly & Hand & Hin & ->).
  apply bbox_of_inside. apply List.Forall_forall. intros v Hv.
  destruct (Hk _ _ _ Hand poly Hin v Hv) as [_ (a & Ha & Hia)].
  apply assist_vertical_In in Ha; [|exact Hey].
  destruct Ha as (p & Hp & Hw).
  apply get_layer_polys_In in Hp. destruct Hp as (P & HP & <- & Hl & Hd).
  eapply inside_within; [apply (Hext P HP Hl Hd)|].
  eapply inside_within; [exact Hw | exact Hia].
Qed.

Lemma via_rect_contained (spec : ViaGenSpec) (b ext : bbox) :
  0 < via_x spec -> 0 < via_y spec ->
  size_ok (via_x spec) (via_y spec) b = true ->
  bbox_within b ext ->
  contained ext (via_rect spec (center_of b)).
Proof.
  intros Hx Hy Hok Hw. destruct b as [[[x0 y0] x1] y1].
  unfold size_ok in Hok. apply andb_true_iff in Hok.
  destruct Hok as [Hox Hoy]. apply qleb_le in Hox, Hoy.
  unfold contained, via_rect, center_of. simpl fst; simpl snd.
  rewrite bbox_Rectangle by lra.
  unfold bbox_within, positive_size, bx0, bx1, by0, by1 in *. simpl in *.
  destruct Hw as (H1 & H2 & H3 & H4). repeat split; lra.
Qed.

(** The vias lie wherever all candidates lie. *)
Lemma vias_contained `{Externals} (cell : Cell) (spec : ViaGenSpec)
  (rng : Generator) (m1_layer m2_layer : Z) (ext : bbox) :
  0 < via_x spec -> 0 < via_y spec ->
  Forall (fun b => bbox_within b ext)
         (_calc_candidates cell m1_layer m2_layer
            (enclosure_x spec) (enclosure_y spec)) ->
  Forall (contained ext)
         (map (via_rect spec) (via_centers cell spec rng m1_layer m2_layer)).
Proof.
  intros Hx Hy Hc. apply Forall_map. apply List.Forall_forall. intros c Hin.
  unfold via_centers in Hin. apply list_elem_of_In in Hin.
  eapply elem_of_submseteq in Hin; [|apply pitch_clean_submseteq].
  apply list_elem_of_In in Hin. apply sample_centers_origin in Hin.
  destruct Hin as (b & n & Hb & Hok & _ & ->).
  rewrite List.Forall_forall in Hc.
  apply via_rect_contained; auto.
Qed.

(** ** Containment along the pipeline *)

Lemma track_rect_tags (spec : MetalGenSpec) (x_base : Q) (iv : Q * Q) :
  poly_layer (track_rect spec x_base iv) = layer spec /\
  poly_datatype (track_rect spec x_base iv) = datatype spec.
Proof. split; reflexivity. Qed.

Lemma columns_tags (spec : MetalGenSpec) (cols : list (Q * list (Q * Q))) :
  Forall (fun P => poly_layer P = layer spec /\
                   poly_datatype P = datatype spec)
         (concat (map (column_polys spec) cols)).
Proof.
  induction cols as [|col cols IH]; simpl; [constructor|].
  apply Forall_app. split; [|exact IH].
  unfold column_polys. apply Forall_map. apply List.Forall_forall.
  intros iv _. apply track_rect_tags.
Qed.

Lemma draw_metal1_inv (fuel : nat) (lib : GdsLibrary) (strap : StrapArgs)
  (cell : Cell) (lib' : GdsLibrary) :
  cells lib = [cell] ->
  0 <= strap_pitch strap ->
  draw_metal1 fuel lib (strap_length_x strap) (strap_width strap)
              (strap_pitch strap) (strap_total_y strap)
              (strap_layer strap) (strap_datatype strap) = Done lib' ->
  exists cell' n,
    cells lib' = [cell'] /\
    polygons cell'
    = polygons cell
      ++ map (strap_rect (strap_length_x strap) (strap_width strap)
                         (strap_layer strap) (strap_datatype strap))
             (positions n 0 (strap_pitch strap)) /\
    Forall (fun yk => 0 <= yk /\
                      yk + strap_width strap <= strap_total_y strap)
           (positions n 0 (strap_pitch strap)).
Proof.
  intros Hc Hp. unfold draw_metal1, first_cell. rewrite Hc.
  destruct (strap_loop fuel cell 0 _ _ _ _ _ _) as [cell'|] eqn:E;
    [|discriminate].
  intros H. injection H as <-.
  apply strap_loop_cursor in E. destruct E as (n & -> & Hfit).
  eexists _, n. unfold set_first_cell. rewrite Hc. cbn [tl cells polygons].
  split; [reflexivity|]. split; [reflexivity|].
  pose proof (positions_lower (strap_pitch strap) n Hp 0) as Hlow.
  rewrite List.Forall_forall in Hfit, Hlow. apply List.Forall_forall.
  intros y Hy. split; [apply Hlow | apply Hfit]; exact Hy.
Qed.

(** C4. For specifications that meet the data-model invariants, an
    intersection whose polygons have their vertices in both operands, and a
    via generator that reads two distinct metal layers, the cell the pipeline
    leaves holds the columns of the track generator, then the straps, from 0
    on and one pitch apart, then the vias, and nothing else. Every track
    rectangle and every via lies within the extent of the metal
    specification, every strap within the extent its arguments imply, and
    each of them has positive width and height. *)
Theorem containment `{Externals} (entropy : nat -> Q) (fuel : nat)
  (world : World) (spec : MetalGenSpec) (strap : StrapArgs)
  (via_spec : ViaGenSpec) (m1_layer m2_layer : Z)
  (vias : list Polygon) (lib : GdsLibrary) :
  valid_metal_spec spec -> valid_strap strap -> valid_via_spec via_spec ->
  kernel_sound ->
  m1_layer <> m2_layer ->
  fst (pipeline entropy fuel world spec strap via_spec m1_layer m2_layer)
  = Done (vias, lib) ->
  exists cell cols n,
    let tracks := concat (map (column_polys spec) cols) in
    let ys := positions n 0 (strap_pitch strap) in
    let straps := map (strap_rect (strap_length_x strap) (strap_width strap)
                                  (strap_layer strap) (strap_datatype strap))
                      ys in
    cells lib = [cell] /\
    polygons cell = tracks ++ straps ++ vias /\
    columns_ok spec 0 cols /\
    Forall (fun y => 0 <= y /\
                     y + strap_width strap <= strap_total_y strap) ys /\
    Forall (contained (extent spec)) tracks /\
    Forall (contained (strap_extent strap)) straps /\
    Forall (contained (extent spec)) vias.
Proof.
  intros Hspec Hstrap Hvia Hk Hm Hrun.
  unfold pipeline, and_then in Hrun.
  destruct (draw_metal_cell_vertical entropy fuel world spec)
    as [[lib1| |] w1] eqn:E1; try discriminate.
  cbn [fst] in Hrun.
  destruct (draw_metal1 fuel lib1 _ _ _ _ _ _) as [lib2| |] eqn:E2;
    try discriminate.
  assert (E1' : fst (draw_metal_cell_vertical entropy fuel world spec)
                = Done lib1) by (rewrite E1; reflexivity).
  apply draw_metal_cell_vertical_columns in E1'.
  destruct E1' as (cell1 & cols & Hc1 & _ & Hp1 & Hcols).
  destruct Hstrap as (Hsl & Hsw & Hsp & Hst).
  apply (draw_metal1_inv fuel lib1 strap cell1 lib2 Hc1) in E2; [|lra].
  destruct E2 as (cell2 & n & Hc2 & Hp2 & Hys).
  apply generate_vias_inv in Hrun.
  destruct Hrun as (cell & Hfc & Hv & -> & _).
  unfold first_cell in Hfc. rewrite Hc2 in Hfc. injection Hfc as <-.
  exists (fold_left cell_add vias cell2), cols, n. intros tracks ys straps.
  assert (Htracks : Forall (contained (extent spec)) tracks).
  { apply (columns_ok_contained spec 0 cols Hspec Hcols). lra. }
  assert (Hstraps : Forall (contained (strap_extent strap)) straps).
  { apply Forall_map. eapply List.Forall_impl; [|exact Hys].
    intros y [Hy0 Hy1]. simpl. apply strap_rect_contained;
      [repeat split|..]; assumption. }
  destruct (fold_cell_add vias cell2) as [Hpv _].
  split; [unfold set_first_cell; rewrite Hc2; reflexivity|].
  split; [rewrite Hpv, Hp2, Hp1, app_assoc; reflexivity|].
  split; [exact Hcols|]. split; [exact Hys|].
  split; [exact Htracks|]. split; [exact Hstraps|].
  rewrite Hv. destruct Hvia as (Hvx & Hvy & _ & _ & Hex & Hey & _ & _).
  apply vias_contained; [exact Hvx | exact Hvy |].
  assert (Hsplit : forall P, In P (polygons cell2) -> In P tracks \/
                     (poly_layer P = strap_layer strap /\
                      poly_datatype P = strap_datatype strap)).
  { intros P HP. rewrite Hp2, Hp1 in HP. apply List.in_app_iff in HP.
    destruct HP as [HP | HP]; [left; exact HP | right].
    apply List.in_map_iff in HP. destruct HP as (y & <- & _).
    split; reflexivity. }
  rewrite List.Forall_forall in Htracks.
  destruct (Z.eq_dec (strap_layer strap) m1_layer) as [El | El].
  - apply candidates_within_m2; [exact Hk | exact Hey |].
    intros P HP Hl Hd. destruct (Hsplit P HP) as [Ht | [Hl' _]].
    + apply Htracks. exact Ht.
    + congruence.
  - apply candidates_within_m1; [exact Hk | exact Hex |].
    intros P HP Hl Hd. destruct (Hsplit P HP) as [Ht | [Hl' _]].
    + apply Htracks. exact Ht.
    + congruence.
Qed.

(** The pairwise intersection of rectangles meets the kernel's contract. *)
Lemma rect_boolean_and_sound : @kernel_sound demo_externals.
Proof.
  unfold kernel_sound. simpl. unfold rect_boolean_and.
  intros A B polys Hand poly Hin v Hv.
  assert (Hp : In poly (flat_map (fun a => flat_map (fun b =>
                  bbox_and (poly_bbox a) (poly_bbox b)) B) A)).
  { destruct (flat_map _ A); [discriminate|]. injection Hand as <-. exact Hin. }
  apply List.in_flat_map in Hp. destruct Hp as (a & Ha & Hp).
  apply List.in_flat_map in Hp. destruct Hp as (b & Hb & Hp).
  assert (Hi : inside (poly_bbox a) v /\ inside (poly_bbox b) v).
  { unfold bbox_and in Hp.
    destruct (qltb (py_max (bx0 (poly_bbox a)) (bx0 (poly_bbox b)))
                   (py_min (bx1 (poly_bbox a)) (bx1 (poly_bbox b)))) eqn:Hx;
      [|destruct Hp].
    destruct (qltb (py_max (by0 (poly_bbox a)) (by0 (poly_bbox b)))
                   (py_min (by1 (poly_bbox a)) (by1 (poly_bbox b)))) eqn:Hy;
      [|destruct Hp].
    apply qltb_lt in Hx, Hy.
    destruct Hp as [<- | []].
    destruct (py_max_spec (bx0 (poly_bbox a)) (bx0 (poly_bbox b)))
      as [[? Ex0] | [? Ex0]];
    destruct (py_min_spec (bx1 (poly_bbox a)) (bx1 (poly_bbox b)))
      as [[? Ex1] | [? Ex1]];
    destruct (py_max_spec (by0 (poly_bbox a)) (by0 (poly_bbox b)))
      as [[? Ey0] | [? Ey0]];
    destruct (py_min_spec (by1 (poly_bbox a)) (by1 (poly_bbox b)))
      as [[? Ey1] | [? Ey1]];
    rewrite Ex0, Ex1 in Hx; rewrite Ey0, Ey1 in Hy;
    simpl in Hv; rewrite Ex0, Ex1, Ey0, Ey1 in Hv;
    unfold inside;
    destruct Hv as [<- | [<- | [<- | [<- | []]]]]; simpl;
    repeat split; lra. }
  destruct Hi as [Hia Hib]. split; [exists a | exists b]; split; assumption.
Qed.

Lemma containment_witness :
  let run := fst (@pipeline demo_externals demo_entropy 6 [] demo_spec
                    demo_strap demo_via_spec 110 111) in
  let vias := fst (value_of ([], empty_lib) run) in
  let lib := snd (value_of ([], empty_lib) run) in
  valid_metal_spec demo_spec /\ valid_strap demo_strap /\
  valid_via_spec demo_via_spec /\ @kernel_sound demo_externals /\
  110%Z <> 111%Z /\
  run = Done (vias, lib) /\
  length vias = 6%nat /\
  exists cell cols n,
    let tracks := concat (map (column_polys demo_spec) cols) in
    let ys := positions n 0 (strap_pitch demo_strap) in
    let straps :=
      map (strap_rect (strap_length_x demo_strap) (strap_width demo_strap)
                      (strap_layer demo_strap) (strap_datatype demo_strap))
          ys in
    cells lib = [cell] /\
    polygons cell = tracks ++ straps ++ vias /\
    columns_ok demo_spec 0 cols /\
    Forall (fun y => 0 <= y /\
                     y + strap_width demo_strap <= strap_total_y demo_strap)
           ys /\
    Forall (contained (extent demo_spec)) tracks /\
    Forall (contained (strap_extent demo_strap)) straps /\
    Forall (contained (extent demo_spec)) vias.
Proof.
  intros run vias lib.
  assert (H1 : valid_metal_spec demo_spec).
  { unfold valid_metal_spec, demo_spec; simpl.
    repeat split; unfold Qlt, Qle; simpl; lia. }
  assert (H2 : valid_strap demo_strap).
  { unfold valid_strap, demo_strap; simpl.
    repeat split; unfold Qlt, Qle; simpl; lia. }
  assert (H3 : valid_via_spec demo_via_spec).
  { unfold valid_via_spec, demo_via_spec; simpl.
    repeat split; unfold Qlt, Qle; simpl; lia. }
  assert (H4 : 110%Z <> 111%Z) by lia.
  assert (H5 : run = Done (vias, lib)) by (vm_compute; reflexivity).
  split; [exact H1|]. split; [exact H2|]. split; [exact H3|].
  split; [exact rect_boolean_and_sound|]. split; [exact H4|].
  split; [exact H5|]. split; [vm_compute; reflexivity|].
  exact (@containment demo_externals demo_entropy 6 [] demo_spec demo_strap
           demo_via_spec 110 111 vias lib H1 H2 H3 rect_boolean_and_sound
           H4 H5).
Defined.

(** The two layers have to differ. With the tracks of the example moved to
    the origin (100, 100), both layers set to the strap layer and every
    candidate sampled, the first via is drawn on the lowest strap, outside
    the extent of the metal specification. *)
Lemma one_layer_for_both_metals :
  let run := fst (@pipeline demo_externals demo_entropy 6 [] shifted_spec
                    demo_strap full_via_spec 110 110) in
  let vias := fst (value_of ([], empty_lib) run) in
  let lib := snd (value_of ([], empty_lib) run) in
  let via := hd (Rectangle (0, 0) (0, 0) 0 0) vias in
  valid_metal_spec shifted_spec /\ valid_strap demo_strap /\
  valid_via_spec full_via_spec /\ @kernel_sound demo_externals /\
  run = Done (vias, lib) /\ In via vias /\
  bx0 (poly_bbox via) == 23 /\ by0 (poly_bbox via) == 1 /\
  bx1 (poly_bbox via) == 27 /\ by1 (poly_bbox via) == 3 /\
  extent shifted_spec = (100, 100, 100 + 50, 100 + 60) /\
  ~ bbox_within (poly_bbox via) (extent shifted_spec).
Proof.
  intros run vias lib via.
  split.
  { unfold valid_metal_spec, shifted_spec; simpl.
    repeat split; unfold Qlt, Qle; simpl; lia. }
  split.
  { unfold valid_strap, demo_strap; simpl.
    repeat split; unfold Qlt, Qle; simpl; lia. }
  split.
  { unfold valid_via_spec, full_via_spec, demo_via_spec; simpl.
    repeat split; unfold Qlt, Qle; simpl; lia. }
  split; [exact rect_boolean_and_sound|].
  split; [vm_compute; reflexivity|].
  split; [vm_compute; left; reflexivity|].
  split; [vm_compute; reflexivity|]. split; [vm_compute; reflexivity|].
  split; [vm_compute; reflexivity|]. split; [vm_compute; reflexivity|].
  split; [reflexivity|].
  unfold bbox_within. vm_compute. intros (H & _). apply H. reflexivity.
Qed.

(** * Further properties of the code *)

(** ** Bounding boxes enclose their polygon *)

Lemma array_min_spec (x : Q) (xs : list Q) :
  Forall (fun v => array_min x xs <= v) (x :: xs) /\
  In (array_min x xs) (x :: xs).
Proof.
  unfold array_min. revert x. induction xs as [|v xs IH]; intros x; simpl.
  - split; [constructor; [lra | constructor] | left; reflexivity].
  - destruct (IH (py_min x v)) as [IH1 IH2].
    inversion IH1 as [|? ? Hm Hxs]; subst.
    destruct (py_min_spec x v) as [[Hlt E] | [Hle E]]; rewrite E in *.
    + split.
      * constructor; [lra|]. constructor; assumption.
      * destruct IH2 as [<- | IH2]; [right; left; reflexivity|].
        right; right; exact IH2.
    + split.
      * constructor; [exact Hm|]. constructor; [lra | exact Hxs].
      * destruct IH2 as [<- | IH2]; [left; reflexivity|].
        right; right; exact IH2.
Qed.

Lemma array_max_spec (x : Q) (xs : list Q) :
  Forall (fun v => v <= array_max x xs) (x :: xs) /\
  In (array_max x xs) (x :: xs).
Proof.
  unfold array_max. revert x. induction xs as [|v xs IH]; intros x; simpl.
  - split; [constructor; [lra | constructor] | left; reflexivity].
  - destruct (IH (py_max x v)) as [IH1 IH2].
    inversion IH1 as [|? ? Hm Hxs]; subst.
    destruct (py_max_spec x v) as [[Hlt E] | [Hle E]]; rewrite E in *.
    + split.
      * constructor; [lra|]. constructor; assumption.
      * destruct IH2 as [<- | IH2]; [right; left; reflexivity|].
        right; right; exact IH2.
    + split.
      * constructor; [exact Hm|]. constructor; [lra | exact Hxs].
      * destruct IH2 as [<- | IH2]; [left; reflexivity|].
        right; right; exact IH2.
Qed.

(** The bounding box holds every vertex of its polygon, and each of its four
    bounds is the coordinate of some vertex. *)
Theorem bbox_encloses (poly : points) :
  Forall (inside (_bbox poly)) (vertex_list poly) /\
  In (bx0 (_bbox poly)) (map fst (vertex_list poly)) /\
  In (by0 (_bbox poly)) (map snd (vertex_list poly)) /\
  In (bx1 (_bbox poly)) (map fst (vertex_list poly)) /\
  In (by1 (_bbox poly)) (map snd (vertex_list poly)) /\
  bx0 (_bbox poly) <= bx1 (_bbox poly) /\
  by0 (_bbox poly) <= by1 (_bbox poly).
Proof.
  destruct poly as [p ps]. unfold vertex_list, _bbox, bx0, by0, bx1, by1.
  simpl fst; simpl snd.
  destruct (array_min_spec (fst p) (map fst ps)) as [Hx0 Ix0].
  destruct (array_min_spec (snd p) (map snd ps)) as [Hy0 Iy0].
  destruct (array_max_spec (fst p) (map fst ps)) as [Hx1 Ix1].
  destruct (array_max_spec (snd p) (map snd ps)) as [Hy1 Iy1].
  change (fst p :: map fst ps) with (map fst (p :: ps)) in *.
  change (snd p :: map snd ps) with (map snd (p :: ps)) in *.
  rewrite List.Forall_map in Hx0, Hy0, Hx1, Hy1.
  rewrite List.Forall_forall in Hx0, Hy0, Hx1, Hy1.
  split; [|repeat split; try assumption].
  - apply List.Forall_forall. intros v Hv. unfold inside. simpl.
    repeat split; auto.
  - specialize (Hx0 p (or_introl eq_refl)).
    specialize (Hx1 p (or_introl eq_refl)). lra.
  - specialize (Hy0 p (or_introl eq_refl)).
    specialize (Hy1 p (or_introl eq_refl)). lra.
Qed.

(** [_rect_from_bbox] refuses exactly the boxes without positive width and
    height; the rectangle it builds for any other box has that box as its
    bounding box and sits on layer 0, datatype 0. *)
Theorem rect_from_bbox_round_trip (b : bbox) :
  match _rect_from_bbox b with
  | Some r =>
      positive_size b /\ _bbox (vertices r) = b /\
      poly_layer r = 0%Z /\ poly_datatype r = 0%Z
  | None => bx1 b <= bx0 b \/ by1 b <= by0 b
  end.
Proof.
  destruct (_rect_from_bbox b) as [r|] eqn:E.
  - pose proof (rect_from_bbox_Some b r E) as Hb.
    destruct b as [[[x0 y0] x1] y1]. unfold _rect_from_bbox in E.
    destruct (qleb x1 x0) eqn:Hx; [discriminate|].
    destruct (qleb y1 y0) eqn:Hy; [discriminate|]. simpl in E.
    injection E as <-. apply qleb_gt in Hx, Hy.
    unfold positive_size, bx0, bx1, by0, by1. simpl.
    repeat split; assumption.
  - destruct b as [[[x0 y0] x1] y1]. unfold _rect_from_bbox in E.
    unfold bx0, bx1, by0, by1. simpl.
    destruct (qleb x1 x0) eqn:Hx; [left; apply qleb_le; exact Hx|].
    destruct (qleb y1 y0) eqn:Hy; [right; apply qleb_le; exact Hy|].
    discriminate.
Qed.

(** ** Track positions *)

Lemma sort_by_ascending_id {A : Type} (key : A -> Q) (l : list A) :
  ascending key l -> sort_by key l = l.
Proof.
  unfold ascending. intros H. induction H as [|a l Hl IH Ha]; simpl.
  - reflexivity.
  - rewrite IH. destruct l as [|b l']; [reflexivity|]. simpl.
    apply List.Forall_inv in Ha. apply qleb_le in Ha. rewrite Ha. reflexivity.
Qed.

Lemma ascending_sublist {A : Type} (key : A -> Q) (l l' : list A) :
  sublist l' l -> ascending key l -> ascending key l'.
Proof.
  unfold ascending. intros Hs. induction Hs as [|x l1 l2 Hs IH|x l1 l2 Hs IH];
    intros H.
  - constructor.
  - inversion H as [|? ? Hl Hx]; subst. constructor; [apply IH; exact Hl|].
    eapply Forall_of_sublist; eassumption.
  - inversion H as [|? ? Hl Hx]; subst. apply IH. exact Hl.
Qed.

Lemma unique_from_sublist (tol last : Q) (vals : list Q) :
  sublist (unique_from tol last vals) vals.
Proof.
  revert last. induction vals as [|v vs IH]; intros last; cbn [unique_from].
  - constructor.
  - destruct (qltb tol (Qabs (v - last)));
      [apply sublist_skip | apply sublist_cons]; apply IH.
Qed.

Lemma unique_from_gaps (tol : Q) (vals : list Q) :
  forall last,
    ascending id (last :: vals) ->
    Sorted (fun a b => tol < b - a) (last :: unique_from tol last vals).
Proof.
  induction vals as [|v vs IH]; intros last H; cbn [unique_from].
  - repeat constructor.
  - inversion H as [|? ? Hvs Hlast]; subst.
    inversion Hlast as [|? ? Hlv Hlvs]; subst. unfold id in Hlv.
    destruct (qltb tol (Qabs (v - last))) eqn:E.
    + apply qltb_lt in E. rewrite Qabs_pos in E by lra.
      constructor; [apply IH; exact Hvs|]. constructor. exact E.
    + apply IH. inversion Hvs; subst. constructor; assumption.
Qed.

Lemma unique_from_covers (tol : Q) (vals : list Q) :
  0 <= tol ->
  forall last,
    ascending id (last :: vals) ->
    forall v, In v (last :: vals) ->
      exists u, In u (last :: unique_from tol last vals) /\
                u <= v /\ v - u <= tol.
Proof.
  intros Htol. induction vals as [|w vs IH]; intros last H v Hv.
  - destruct Hv as [<- | []]. exists last. simpl. split; [left; reflexivity|].
    split; lra.
  - inversion H as [|? ? Hvs Hlast]; subst.
    inversion Hlast as [|? ? Hlw Hlvs]; subst. unfold id in Hlw.
    destruct Hv as [<- | Hv].
    { exists last. split; [left; reflexivity|]. split; lra. }
    cbn [unique_from]. destruct (qltb tol (Qabs (w - last))) eqn:E.
    + destruct (IH w Hvs v Hv) as (u & Hu & Hle & Hd).
      exists u. split; [right; exact Hu|]. split; assumption.
    + apply qltb_ge in E. rewrite Qabs_pos in E by lra.
      destruct Hv as [<- | Hv].
      * exists last. split; [left; reflexivity|]. split; lra.
      * assert (Ha : ascending id (last :: vs)).
        { inversion Hvs; subst. constructor; assumption. }
        destruct (IH last Ha v (or_intror Hv)) as (u & Hu & Hle & Hd).
        exists u. repeat split; assumption.
Qed.

(** [_unique_positions] answers no track only for no value; its tracks are
    input values, each more than the tolerance above the one before; and,
    for a tolerance that is not negative, every input value lies at most the
    tolerance above one of the tracks. *)
Theorem unique_positions_spec (vals : list Q) (tol : Q) :
  0 <= tol ->
  let out := _unique_positions vals tol in
  (out = [] <-> vals = []) /\
  (forall u, In u out -> In u vals) /\
  Sorted (fun a b => tol < b - a) out /\
  (forall v, In v vals -> exists u, In u out /\ u <= v /\ v - u <= tol).
Proof.
  intros Htol out. subst out. unfold _unique_positions.
  pose proof (sort_by_perm id vals) as Hp.
  pose proof (sort_by_ascending id vals) as Ha.
  destruct (sort_by id vals) as [|v0 rest] eqn:E.
  - apply Permutation_nil in Hp. subst vals.
    repeat split; try reflexivity; try (intros u []); constructor.
  - split; [|split; [|split]].
    + split; [discriminate|]. intros ->. simpl in E. discriminate.
    + intros u Hu. apply (Permutation_in u Hp).
      destruct Hu as [<- | Hu]; [left; reflexivity | right].
      apply list_elem_of_In. eapply elem_of_sublist;
        [apply list_elem_of_In; exact Hu | apply unique_from_sublist].
    + apply unique_from_gaps. exact Ha.
    + intros v Hv. apply (unique_from_covers tol rest Htol v0 Ha).
      apply (Permutation_in v (Permutation_sym Hp)). exact Hv.
Qed.

Lemma unique_positions_spec_witness :
  0 <= 1 # 1000 /\
  _unique_positions [3; 1; 2001 # 2000; 2] (1 # 1000) = [1; 2; 3] /\
  (forall v, In v [3; 1; 2001 # 2000; 2] ->
     exists u, In u (_unique_positions [3; 1; 2001 # 2000; 2] (1 # 1000)) /\
               u <= v /\ v - u <= 1 # 1000).
Proof.
  assert (H : 0 <= 1 # 1000) by (unfold Qle; simpl; lia).
  split; [exact H|]. split; [reflexivity|].
  exact (proj2 (proj2 (proj2 (unique_positions_spec
                                [3; 1; 2001 # 2000; 2] (1 # 1000) H)))).
Defined.

Lemma unique_from_keeps_spaced (tol : Q) (l : list Q) :
  forall last,
    Sorted (fun a b => tol < b - a) (last :: l) ->
    unique_from tol last l = l.
Proof.
  induction l as [|v vs IH]; intros last H; cbn [unique_from]; [reflexivity|].
  inversion H as [|? ? Hs Hh]; subst. inversion Hh as [|? ? Hg]; subst.
  assert (E : qltb tol (Qabs (v - last)) = true).
  { apply qltb_lt. pose proof (Qle_Qabs (v - last)). lra. }
  rewrite E. f_equal. apply IH. exact Hs.
Qed.

(** Deduplicating positions twice changes nothing more. *)
Theorem unique_positions_idempotent (vals : list Q) (tol : Q) :
  _unique_positions (_unique_positions vals tol) tol
  = _unique_positions vals tol.
Proof.
  unfold _unique_positions at 2 3.
  pose proof (sort_by_ascending id vals) as Ha.
  destruct (sort_by id vals) as [|v0 rest] eqn:E; [reflexivity|].
  pose proof (unique_from_gaps tol rest v0 Ha) as Hg.
  assert (Hasc : ascending id (v0 :: unique_from tol v0 rest)).
  { eapply ascending_sublist; [|exact Ha].
    apply sublist_skip, unique_from_sublist. }
  unfold _unique_positions. rewrite (sort_by_ascending_id id _ Hasc).
  rewrite (unique_from_keeps_spaced tol _ v0 Hg). reflexivity.
Qed.

(** ** The nearest track *)

Lemma argmin_from_spec (v : Q) (rest : list Q) :
  forall (pre : list Q) (i best : Z) (best_d a : Q),
    i = Z.of_nat (length pre) ->
    (0 <= best < i)%Z ->
    pre !! Z.to_nat best = Some a ->
    best_d = Qabs (a - v) ->
    (forall (j : nat) (b : Q), pre !! j = Some b -> best_d <= Qabs (b - v)) ->
    (forall (j : nat) (b : Q),
        (j < Z.to_nat best)%nat -> pre !! j = Some b ->
        best_d < Qabs (b - v)) ->
    exists a',
      let k := argmin_from v rest i best best_d in
      (0 <= k < Z.of_nat (length (pre ++ rest)))%Z /\
      (pre ++ rest) !! Z.to_nat k = Some a' /\
      (forall (j : nat) (b : Q),
          (pre ++ rest) !! j = Some b -> Qabs (a' - v) <= Qabs (b - v)) /\
      (forall (j : nat) (b : Q),
          (j < Z.to_nat k)%nat -> (pre ++ rest) !! j = Some b ->
          Qabs (a' - v) < Qabs (b - v)).
Proof.
  induction rest as [|c rest IH]; intros pre i best best_d a Hi Hb Ha Hd Hall Hfirst.
  - exists a. simpl. rewrite app_nil_r. subst best_d.
    repeat split; try lia; assumption.
  - cbn [argmin_from]. cbv zeta.
    assert (Hlen : (i + 1)%Z = Z.of_nat (length (pre ++ [c]))).
    { rewrite length_app. simpl. lia. }
    assert (Happ : pre ++ c :: rest = (pre ++ [c]) ++ rest).
    { rewrite <- app_assoc. reflexivity. }
    assert (Hc : (pre ++ [c]) !! Z.to_nat i = Some c).
    { rewrite Hi, Nat2Z.id. apply list_lookup_middle. reflexivity. }
    assert (Hsplit : forall (j : nat) (b : Q),
               (pre ++ [c]) !! j = Some b ->
               pre !! j = Some b \/ (j = length pre /\ b = c)).
    { intros j b Hj. destruct (Nat.lt_ge_cases j (length pre)) as [Hlt | Hge].
      - left. rewrite lookup_app_l in Hj by exact Hlt. exact Hj.
      - right. rewrite lookup_app_r in Hj by exact Hge.
        destruct (j - length pre)%nat as [|n] eqn:En; simpl in Hj.
        + split; [lia | congruence].
        + destruct n; discriminate. }
    rewrite Happ.
    destruct (qltb (Qabs (c - v)) best_d) eqn:E.
    + apply qltb_lt in E.
      apply (IH (pre ++ [c]) (i + 1)%Z i (Qabs (c - v)) c Hlen);
        [lia | exact Hc | reflexivity | |].
      * intros j b Hj. destruct (Hsplit j b Hj) as [Hp | [_ ->]]; [|lra].
        specialize (Hall j b Hp). lra.
      * intros j b Hlt Hj. destruct (Hsplit j b Hj) as [Hp | [-> _]]; [|lia].
        specialize (Hall j b Hp). lra.
    + apply qltb_ge in E.
      apply (IH (pre ++ [c]) (i + 1)%Z best best_d a Hlen);
        [lia | | exact Hd | |].
      * rewrite lookup_app_l; [exact Ha|]. lia.
      * intros j b Hj. destruct (Hsplit j b Hj) as [Hp | [_ ->]]; [|exact E].
        apply (Hall j b Hp).
      * intros j b Hlt Hj. destruct (Hsplit j b Hj) as [Hp | [-> _]]; [|lia].
        apply (Hfirst j b Hlt Hp).
Qed.

(** [nearest_idx] answers -1 for no track; otherwise the index of a track,
    none of which is nearer to the value, and the first such index: every
    track before it is strictly farther. *)
Theorem nearest_idx_spec (v : Q) (arr : list Q) :
  match arr with
  | [] => nearest_idx v arr = (-1)%Z
  | _ :: _ =>
      exists a,
        (0 <= nearest_idx v arr < Z.of_nat (length arr))%Z /\
        arr !! Z.to_nat (nearest_idx v arr) = Some a /\
        (forall (j : nat) (b : Q),
            arr !! j = Some b -> Qabs (a - v) <= Qabs (b - v)) /\
        (forall (j : nat) (b : Q),
            (j < Z.to_nat (nearest_idx v arr))%nat -> arr !! j = Some b ->
            Qabs (a - v) < Qabs (b - v))
  end.
Proof.
  destruct arr as [|a0 rest]; [reflexivity|].
  unfold nearest_idx.
  assert (Hall : forall (j : nat) (b : Q),
             [a0] !! j = Some b -> Qabs (a0 - v) <= Qabs (b - v)).
  { intros j b Hj. destruct j; simpl in Hj; [|discriminate].
    injection Hj as <-. lra. }
  assert (Hfirst : forall (j : nat) (b : Q),
             (j < Z.to_nat 0)%nat -> [a0] !! j = Some b ->
             Qabs (a0 - v) < Qabs (b - v)).
  { intros j b Hlt. simpl in Hlt. lia. }
  destruct (argmin_from_spec v rest [a0] 1%Z 0%Z (Qabs (a0 - v)) a0
              eq_refl ltac:(lia) eq_refl eq_refl Hall Hfirst) as (a' & H).
  exists a'. exact H.
Qed.

(** ** Assist wires, box by box *)

Lemma rect_from_bbox_degenerate (b : bbox) :
  match _rect_from_bbox b with
  | Some r => degenerate b = false /\ poly_bbox r = b /\
              poly_layer r = 0%Z /\ poly_datatype r = 0%Z
  | None => degenerate b = true
  end.
Proof.
  destruct (_rect_from_bbox b) as [r|] eqn:E.
  - pose proof (rect_from_bbox_Some b r E) as Hb.
    destruct b as [[[x0 y0] x1] y1]. unfold _rect_from_bbox in E.
    unfold degenerate, bx0, bx1, by0, by1. simpl.
    destruct (qleb x1 x0 || qleb y1 y0); [discriminate|].
    injection E as <-. repeat split. exact Hb.
  - destruct b as [[[x0 y0] x1] y1]. unfold _rect_from_bbox in E.
    unfold degenerate, bx0, bx1, by0, by1. simpl.
    destruct (qleb x1 x0 || qleb y1 y0); [reflexivity | discriminate].
Qed.

Lemma assist_horizontal_boxes (polys : list points) (ex : Q) :
  map poly_bbox (_assist_polys_horizontal polys ex)
  = List.filter (fun b => negb (degenerate b))
                (map (fun p => shrink_h ex (_bbox p)) polys) /\
  Forall (fun r => poly_layer r = 0%Z /\ poly_datatype r = 0%Z)
         (_assist_polys_horizontal polys ex).
Proof.
  induction polys as [|p rest [IH1 IH2]]; [split; [reflexivity | constructor]|].
  cbn [_assist_polys_horizontal map List.filter].
  destruct (_bbox p) as [[[x0 y0] x1] y1] eqn:Eb.
  change (shrink_h ex (x0, y0, x1, y1)) with (x0 + ex, y0, x1 - ex, y1).
  pose proof (rect_from_bbox_degenerate (x0 + ex, y0, x1 - ex, y1)) as H.
  destruct (_rect_from_bbox (x0 + ex, y0, x1 - ex, y1)) as [r|].
  - destruct H as (Hd & Hb & Hl & Ht). rewrite Hd. simpl.
    rewrite Hb, IH1. split; [reflexivity|]. constructor; [split|]; assumption.
  - rewrite H. simpl. split; assumption.
Qed.

Lemma assist_vertical_boxes (polys : list points) (ey : Q) :
  map poly_bbox (_assist_polys_vertical polys ey)
  = List.filter (fun b => negb (degenerate b))
                (map (fun p => shrink_v ey (_bbox p)) polys) /\
  Forall (fun r => poly_layer r = 0%Z /\ poly_datatype r = 0%Z)
         (_assist_polys_vertical polys ey).
Proof.
  induction polys as [|p rest [IH1 IH2]]; [split; [reflexivity | constructor]|].
  cbn [_assist_polys_vertical map List.filter].
  destruct (_bbox p) as [[[x0 y0] x1] y1] eqn:Eb.
  change (shrink_v ey (x0, y0, x1, y1)) with (x0, y0 + ey, x1, y1 - ey).
  pose proof (rect_from_bbox_degenerate (x0, y0 + ey, x1, y1 - ey)) as H.
  destruct (_rect_from_bbox (x0, y0 + ey, x1, y1 - ey)) as [r|].
  - destruct H as (Hd & Hb & Hl & Ht). rewrite Hd. simpl.
    rewrite Hb, IH1. split; [reflexivity|]. constructor; [split|]; assumption.
  - rewrite H. simpl. split; assumption.
Qed.

(** The assist rectangles are, in the order of the polygons, the bounding
    boxes shrunk by the enclosure on the two sides of one axis, without those
    the shrink leaves no positive size; all of them on layer 0, datatype 0.
    The horizontal shrink keeps the height, the vertical one the width. *)
Theorem assist_polys_are_shrunk_boxes (polys : list points) (ex ey : Q) :
  (map poly_bbox (_assist_polys_horizontal polys ex)
   = List.filter (fun b => negb (degenerate b))
                 (map (fun p => shrink_h ex (_bbox p)) polys) /\
   Forall (fun r => poly_layer r = 0%Z /\ poly_datatype r = 0%Z)
          (_assist_polys_horizontal polys ex)) /\
  (map poly_bbox (_assist_polys_vertical polys ey)
   = List.filter (fun b => negb (degenerate b))
                 (map (fun p => shrink_v ey (_bbox p)) polys) /\
   Forall (fun r => poly_layer r = 0%Z /\ poly_datatype r = 0%Z)
          (_assist_polys_vertical polys ey)).
Proof.
  split; [apply assist_horizontal_boxes | apply assist_vertical_boxes].
Qed.

(** ** Candidates need both layers *)

Lemma filter_all_false {A : Type} (f : A -> bool) (l : list A) :
  Forall (fun x => f x = false) l -> List.filter f l = [].
Proof.
  intros H. induction H as [|x l Hx Hl IH]; simpl; [reflexivity|].
  rewrite Hx. exact IH.
Qed.

Lemma assist_horizontal_none (cell : Cell) (m1_layer : Z) (ex : Q) :
  (forall P, In P (polygons cell) ->
             poly_layer P = m1_layer -> poly_datatype P = 0%Z ->
             degenerate (shrink_h ex (poly_bbox P)) = true) ->
  _assist_polys_horizontal (_get_layer_polys cell m1_layer 0) ex = [].
Proof.
  intros H. apply (map_eq_nil poly_bbox).
  rewrite (proj1 (assist_horizontal_boxes _ ex)).
  apply filter_all_false. apply Forall_map. apply List.Forall_forall.
  intros p Hp. apply get_layer_polys_In in Hp.
  destruct Hp as (P & HP & <- & Hl & Hd).
  change (negb (degenerate (shrink_h ex (poly_bbox P))) = false).
  rewrite (H P HP Hl Hd). reflexivity.
Qed.

Lemma assist_vertical_none (cell : Cell) (m2_layer : Z) (ey : Q) :
  (forall P, In P (polygons cell) ->
             poly_layer P = m2_layer -> poly_datatype P = 0%Z ->
             degenerate (shrink_v ey (poly_bbox P)) = true) ->
  _assist_polys_vertical (_get_layer_polys cell m2_layer 0) ey = [].
Proof.
  intros H. apply (map_eq_nil poly_bbox).
  rewrite (proj1 (assist_vertical_boxes _ ey)).
  apply filter_all_false. apply Forall_map. apply List.Forall_forall.
  intros p Hp. apply get_layer_polys_In in Hp.
  destruct Hp as (P & HP & <- & Hl & Hd).
  change (negb (degenerate (shrink_v ey (poly_bbox P))) = false).
  rewrite (H P HP Hl Hd). reflexivity.
Qed.

(** When one of the two layers offers nothing to overlap, because the cell
    has no polygon with that layer and datatype 0 or because the shrink
    leaves none of them, there is no candidate, whatever the intersection
    kernel would answer. *)
Theorem calc_candidates_needs_both_layers `{Externals} (cell : Cell)
  (m1_layer m2_layer : Z) (ex ey : Q) :
  (forall P, In P (polygons cell) ->
             poly_layer P = m1_layer -> poly_datatype P = 0%Z ->
             degenerate (shrink_h ex (poly_bbox P)) = true) \/
  (forall P, In P (polygons cell) ->
             poly_layer P = m2_layer -> poly_datatype P = 0%Z ->
             degenerate (shrink_v ey (poly_bbox P)) = true) ->
  _calc_candidates cell m1_layer m2_layer ex ey = [].
Proof.
  intros [H1 | H2]; unfold _calc_candidates.
  - rewrite (assist_horizontal_none cell m1_layer ex H1). reflexivity.
  - rewrite (assist_vertical_none cell m2_layer ey H2).
    destruct (_assist_polys_horizontal _ ex); reflexivity.
Qed.

Lemma calc_candidates_needs_both_layers_witness :
  (forall P, In P (polygons assist_cell) ->
             poly_layer P = 110%Z -> poly_datatype P = 0%Z ->
             degenerate (shrink_h 60 (poly_bbox P)) = true) /\
  @_calc_candidates demo_externals assist_cell 110 111 60 1 = [] /\
  length (@_calc_candidates demo_externals assist_cell 110 111 30 1) = 1%nat.
Proof.
  assert (H : forall P, In P (polygons assist_cell) ->
                poly_layer P = 110%Z -> poly_datatype P = 0%Z ->
                degenerate (shrink_h 60 (poly_bbox P)) = true).
  { intros P [<- | [<- | [<- | []]]] Hl Hd;
      try reflexivity; simpl in Hl; discriminate. }
  split; [exact H|]. split; [|vm_compute; reflexivity].
  exact (@calc_candidates_needs_both_layers demo_externals assist_cell
           110 111 60 1 (or_introl H)).
Defined.

(** ** Sampling grows with the density *)

Lemma sample_sublist_filter (bboxes : list bbox) (vx vy density : Q) :
  forall rng,
    sublist (_sample_centers_from_bboxes bboxes vx vy rng density)
            (map center_of (List.filter (size_ok vx vy) bboxes)).
Proof.
  induction bboxes as [|b rest IH]; intros rng; simpl; [constructor|].
  destruct (size_ok vx vy b); [|apply IH]. simpl.
  destruct (qltb (unit_frac (stream rng (cursor rng))) density);
    [apply sublist_skip | apply sublist_cons]; apply IH.
Qed.

(** On one generator state, a larger density samples every center a smaller
    one samples, in the same order; and whatever the density, the sampled
    centers are midpoints of boxes that pass the size filter, in the order of
    the boxes. *)
Theorem sampling_monotone (bboxes : list bbox) (vx vy d1 d2 : Q)
  (rng : Generator) :
  d1 <= d2 ->
  sublist (_sample_centers_from_bboxes bboxes vx vy rng d1)
          (_sample_centers_from_bboxes bboxes vx vy rng d2) /\
  sublist (_sample_centers_from_bboxes bboxes vx vy rng d2)
          (map center_of (List.filter (size_ok vx vy) bboxes)).
Proof.
  intros Hd. split; [|apply sample_sublist_filter].
  revert rng. induction bboxes as [|b rest IH]; intros rng; simpl; [constructor|].
  destruct (size_ok vx vy b); [|apply IH].
  destruct (qltb (unit_frac (stream rng (cursor rng))) d1) eqn:E1.
  - assert (E2 : qltb (unit_frac (stream rng (cursor rng))) d2 = true).
    { apply qltb_lt. apply qltb_lt in E1. lra. }
    rewrite E2. apply sublist_skip, IH.
  - destruct (qltb (unit_frac (stream rng (cursor rng))) d2);
      [apply sublist_cons|]; apply IH.
Qed.

Lemma sampling_monotone_witness :
  let boxes := [(0, 0, 10, 10); (0, 0, 1, 1); (5, 5, 20, 20); (0, 0, 8, 8)] in
  let rng := mkGenerator (demo_sequence 0) 0 in
  1 # 5 <= 1 # 2 /\
  length (_sample_centers_from_bboxes boxes 4 4 rng (1 # 5)) = 1%nat /\
  length (_sample_centers_from_bboxes boxes 4 4 rng (1 # 2)) = 2%nat /\
  sublist (_sample_centers_from_bboxes boxes 4 4 rng (1 # 5))
          (_sample_centers_from_bboxes boxes 4 4 rng (1 # 2)).
Proof.
  intros boxes rng.
  assert (H : 1 # 5 <= 1 # 2) by (unfold Qle; simpl; lia).
  split; [exact H|]. split; [vm_compute; reflexivity|].
  split; [vm_compute; reflexivity|].
  exact (proj1 (sampling_monotone boxes 4 4 (1 # 5) (1 # 2) rng H)).
Defined.

(** ** The pitch cleaner, again *)

Section Fixed.
Variable key : point -> Z.
Variable coord : point -> Q.
Variable pitch : Q.

Lemma sweep_none_nil (l : list point) :
  sweep coord pitch None l = [] -> l = [].
Proof. destruct l as [|x l]; simpl; [reflexivity | discriminate]. Qed.

Lemma cleaned_groups_nil (m : list (Z * list point)) :
  concat (map (fun g => sweep coord pitch None (sort_by coord (snd g))) m) = [] ->
  concat (map snd m) = [].
Proof.
  induction m as [|g m IH]; simpl; [reflexivity|]. intros H.
  apply app_eq_nil in H. destruct H as [Hg Hm].
  apply sweep_none_nil in Hg.
  pose proof (sort_by_perm coord (snd g)) as Hp. rewrite Hg in Hp.
  apply Permutation_nil in Hp. rewrite Hp. simpl. apply IH. exact Hm.
Qed.

Lemma clean_axis_nil (pts : list point) :
  clean_axis key coord pitch pts = [] -> pts = [].
Proof.
  unfold clean_axis. intros H. apply cleaned_groups_nil in H.
  pose proof (group_by_perm key pts) as Hp. rewrite H in Hp.
  apply Permutation_nil in Hp. exact Hp.
Qed.

(** A sorted list whose points are pairwise a pitch apart passes the sweep
    whole. *)
Lemma sweep_fixed (pts : list point) :
  ForallOrdPairs (spaced coord pitch) pts ->
  forall last,
    match last with
    | Some l => Forall (spaced coord pitch l) pts
    | None => True
    end ->
    sweep coord pitch last pts = pts.
Proof.
  intros H. induction H as [|pt rest Hpt Hrest IH]; intros last Hl; simpl.
  - reflexivity.
  - assert (Hk : match last with
                 | Some l => qleb pitch (coord pt - coord l)
                 | None => true
                 end = true).
    { destruct last as [l|]; [|reflexivity].
      apply qleb_le. apply List.Forall_inv in Hl. exact Hl. }
    rewrite Hk. f_equal. apply (IH (Some pt)). exact Hpt.
Qed.

Lemma ascending_pairs_spaced (idx : Z) (l : list point) :
  ascending coord l ->
  Forall (fun p => key p = idx) l ->
  ForallOrdPairs (same_track_spaced key coord pitch) l ->
  ForallOrdPairs (spaced coord pitch) l.
Proof.
  intros Hs. induction Hs as [|a l Hl IH Ha]; intros Hk Hp; [constructor|].
  inversion Hk as [|? ? Hka Hkl]; subst.
  inversion Hp as [|? ? Hpa Hpl]; subst.
  constructor; [|apply IH; assumption].
  rewrite List.Forall_forall in Ha, Hkl, Hpa.
  apply List.Forall_forall. intros b Hb. unfold spaced.
  assert (Hd : pitch <= Qabs (coord a - coord b)).
  { apply (Hpa b Hb). rewrite (Hkl b Hb). reflexivity. }
  specialize (Ha b Hb). simpl in Ha.
  rewrite Qabs_Qminus in Hd. rewrite Qabs_pos in Hd; lra.
Qed.

Lemma cleaned_groups_fixed (m : list (Z * list point)) :
  Forall (fun g => Forall (fun p => key p = fst g) (snd g)) m ->
  ForallOrdPairs (same_track_spaced key coord pitch) (concat (map snd m)) ->
  concat (map (fun g => sweep coord pitch None (sort_by coord (snd g))) m)
  ≡ₚ concat (map snd m).
Proof.
  intros Hm. induction Hm as [|g m Hg Hm IH]; simpl; intros Hp; [reflexivity|].
  assert (Hp1 : ForallOrdPairs (same_track_spaced key coord pitch) (snd g)).
  { eapply pairs_sublist; [|exact Hp]. apply sublist_inserts_r. reflexivity. }
  assert (Hp2 : ForallOrdPairs (same_track_spaced key coord pitch)
                               (concat (map snd m))).
  { eapply pairs_sublist; [|exact Hp]. apply sublist_inserts_l. reflexivity. }
  rewrite (IH Hp2). apply Permutation_app_tail.
  rewrite (sweep_fixed (sort_by coord (snd g))); [apply sort_by_perm | | exact I].
  apply (ascending_pairs_spaced (fst g)).
  - apply sort_by_ascending.
  - apply List.Forall_forall. intros p Hin.
    rewrite List.Forall_forall in Hg. apply Hg.
    apply list_elem_of_In. rewrite <- (sort_by_perm coord (snd g)).
    apply list_elem_of_In. exact Hin.
  - apply (pairs_perm _ (same_track_spaced_sym key coord pitch) (snd g));
      [symmetry; apply sort_by_perm | exact Hp1].
Qed.

(** Points that already keep the pitch on every track all survive. *)
Lemma clean_axis_fixed (pts : list point) :
  ForallOrdPairs (same_track_spaced key coord pitch) pts ->
  clean_axis key coord pitch pts ≡ₚ pts.
Proof.
  intros H. unfold clean_axis.
  rewrite cleaned_groups_fixed; [apply group_by_perm | |].
  - apply group_by_grouped.
  - apply (pairs_perm _ (same_track_spaced_sym key coord pitch) pts);
      [symmetry; apply group_by_perm | exact H].
Qed.
End Fixed.

(** The cleaner never drops every center: its result is empty only for an
    empty input, whatever the pitches and the tracks. *)
Theorem pitch_clean_empty_iff (centers : list point) (vpx vpy : Q)
  (polys_m1 polys_m2 : list points) :
  _pitch_clean centers vpx vpy polys_m1 polys_m2 = [] <-> centers = [].
Proof.
  split.
  - unfold _pitch_clean. destruct centers as [|c centers]; [reflexivity|].
    unfold row_clean, column_clean. intros H.
    apply clean_axis_nil in H. apply clean_axis_nil in H. exact H.
  - intros ->. reflexivity.
Qed.

(** Cleaning is stable: cleaned centers put through the cleaner again, with
    the same pitches and tracks, all survive. *)
Theorem pitch_clean_idempotent (centers : list point) (vpx vpy : Q)
  (polys_m1 polys_m2 : list points) :
  _pitch_clean (_pitch_clean centers vpx vpy polys_m1 polys_m2)
               vpx vpy polys_m1 polys_m2
  ≡ₚ _pitch_clean centers vpx vpy polys_m1 polys_m2.
Proof.
  pose proof (pitch_clean_row_pairs centers vpx vpy polys_m1 polys_m2) as Hr.
  pose proof (pitch_clean_column_pairs centers vpx vpy polys_m1 polys_m2) as Hc.
  remember (_pitch_clean centers vpx vpy polys_m1 polys_m2) as out eqn:E.
  clear E. destruct out as [|c rest]; [reflexivity|].
  change (_pitch_clean (c :: rest) vpx vpy polys_m1 polys_m2)
    with (row_clean (column_clean (c :: rest) vpy polys_m2) vpx polys_m1).
  unfold row_clean, column_clean.
  assert (Hcol : clean_axis (column_of (x_tracks_of polys_m2)) snd vpy
                            (c :: rest) ≡ₚ c :: rest)
    by (apply clean_axis_fixed; exact Hc).
  etransitivity; [|exact Hcol].
  apply clean_axis_fixed.
  apply (pairs_perm _ (same_track_spaced_sym _ fst vpx) (c :: rest));
    [symmetry; exact Hcol | exact Hr].
Qed.

(** ** Counting with a fixed pitch *)

Lemma pitch_count_guard (width pitch total : Q) :
  0 < pitch ->
  (forall k, (k < pitch_count width pitch total)%nat ->
             inject_Z (Z.of_nat k) * pitch + width <= total) /\
  ~ inject_Z (Z.of_nat (pitch_count width pitch total)) * pitch + width
    <= total.
Proof.
  intros Hp. unfold pitch_count. destruct (qleb width total) eqn:Hw.
  - apply qleb_le in Hw.
    set (q := (total - width) / pitch).
    assert (Hq : q * pitch == total - width) by (unfold q; field; lra).
    assert (Hq0 : 0 <= q) by (apply Qle_shift_div_l; lra).
    pose proof (Qfloor_le q) as Hlo. pose proof (Qlt_floor q) as Hhi.
    assert (Hf : (0 <= Qfloor q)%Z).
    { change 0%Z with (Qfloor 0). apply Qfloor_resp_le. exact Hq0. }
    split.
    + intros k Hk.
      assert (Hkf : inject_Z (Z.of_nat k) <= inject_Z (Qfloor q))
        by (rewrite <- Zle_Qle; lia).
      assert (Hm : inject_Z (Z.of_nat k) * pitch <= q * pitch)
        by (apply Qmult_le_compat_r; lra).
      lra.
    + replace (Z.of_nat (Z.to_nat (Qfloor q) + 1)) with (Qfloor q + 1)%Z by lia.
      intros Hle.
      assert (Hm : q * pitch < inject_Z (Qfloor q + 1) * pitch)
        by (apply Qmult_lt_compat_r; assumption).
      lra.
  - apply qleb_gt in Hw. split; [intros k Hk; lia|].
    change (inject_Z (Z.of_nat 0)) with 0. lra.
Qed.

Lemma advance_value (n : nat) :
  forall start step,
    advance n start step == start + inject_Z (Z.of_nat n) * step.
Proof.
  induction n as [|n IH]; intros start step.
  - simpl. change (inject_Z (Z.of_nat 0)) with 0. lra.
  - cbn [advance]. rewrite IH, inject_Z_S. lra.
Qed.

Lemma positions_fit (width total step : Q) (n : nat) :
  forall start,
    (forall k, (k < n)%nat ->
               start + inject_Z (Z.of_nat k) * step + width <= total) ->
    Forall (fun y => y + width <= total) (positions n start step).
Proof.
  induction n as [|n IH]; intros start Hin; cbn [positions]; constructor.
  - specialize (Hin 0%nat ltac:(lia)).
    change (inject_Z (Z.of_nat 0)) with 0 in Hin. lra.
  - apply IH. intros k Hk. specialize (Hin (S k) ltac:(lia)).
    rewrite inject_Z_S in Hin. lra.
Qed.

(** ** The straps *)

Lemma strap_loop_run (length_x width pitch total_y : Q) (layer datatype : Z) :
  forall n fuel cell y,
    (n <= fuel)%nat ->
    (forall k, (k < n)%nat ->
               y + inject_Z (Z.of_nat k) * pitch + width <= total_y) ->
    ~ y + inject_Z (Z.of_nat n) * pitch + width <= total_y ->
    strap_loop fuel cell y length_x width pitch total_y layer datatype
    = Some (mkCell (name cell)
              (polygons cell
               ++ map (strap_rect length_x width layer datatype)
                      (positions n y pitch))).
Proof.
  induction n as [|n IH]; intros fuel cell y Hfuel Hin Hout.
  - assert (Hg : qleb (y + width) total_y = false).
    { apply qleb_gt. apply Qnot_le_lt. intros Hle. apply Hout.
      change (inject_Z (Z.of_nat 0)) with 0. lra. }
    destruct cell as [nm ps].
    destruct fuel; simpl; rewrite Hg, app_nil_r; reflexivity.
  - destruct fuel as [|fuel]; [lia|].
    assert (Hg : qleb (y + width) total_y = true).
    { apply qleb_le. specialize (Hin 0%nat ltac:(lia)).
      change (inject_Z (Z.of_nat 0)) with 0 in Hin. lra. }
    cbn [strap_loop]. rewrite Hg.
    rewrite (IH fuel _ (y + pitch)).
    + cbn [positions map]. unfold cell_add. cbn [name polygons].
      rewrite <- app_assoc. reflexivity.
    + lia.
    + intros k Hk. specialize (Hin (S k) ltac:(lia)).
      rewrite inject_Z_S in Hin. lra.
    + intros Hle. apply Hout. rewrite inject_Z_S. lra.
Qed.

(** With a positive pitch the strap generator returns, given fuel for its
    iterations. The straps go behind the polygons the first cell already
    has, bottom up from 0 and one pitch apart as the cursor moves, each from
    x = 0 to [length_x]; every strap fits below [total_y] and the next one
    would not; the other cells and the units of the library stay as they
    were. *)
Theorem draw_metal1_straps (lib : GdsLibrary)
  (length_x width pitch total_y : Q) (layer datatype : Z)
  (cell : Cell) (others : list Cell) :
  0 < pitch ->
  cells lib = cell :: others ->
  exists n,
    Forall (fun y => y + width <= total_y) (positions n 0 pitch) /\
    total_y < advance n 0 pitch + width /\
    forall fuel, (n <= fuel)%nat ->
      draw_metal1 fuel lib length_x width pitch total_y layer datatype
      = Done (mkLib (lib_unit lib) (lib_precision lib)
                (mkCell (name cell)
                   (polygons cell
                    ++ map (strap_rect length_x width layer datatype)
                           (positions n 0 pitch))
                 :: others)).
Proof.
  intros Hp Hc.
  destruct (pitch_count_guard width pitch total_y Hp) as [Hin Hout].
  exists (pitch_count width pitch total_y). split; [|split].
  - apply positions_fit. intros k Hk. specialize (Hin k Hk). lra.
  - rewrite advance_value. apply Qnot_le_lt. intros Hle. apply Hout. lra.
  - intros fuel Hfuel. unfold draw_metal1, first_cell, set_first_cell.
    rewrite Hc. cbn [tl].
    rewrite (strap_loop_run length_x width pitch total_y layer datatype
               (pitch_count width pitch total_y) fuel cell 0 Hfuel).
    + reflexivity.
    + intros k Hk. specialize (Hin k Hk). lra.
    + intros Hle. apply Hout. lra.
Qed.

Lemma draw_metal1_straps_witness :
  0 < 10 /\
  cells demo_tracks = [value_of (mkCell "" []) (first_cell demo_tracks)] /\
  exists n,
    Forall (fun y => y + 4 <= 60) (positions n 0 10) /\
    60 < advance n 0 10 + 4 /\
    forall fuel, (n <= fuel)%nat ->
      draw_metal1 fuel demo_tracks 50 4 10 60 110 0
      = Done (mkLib (lib_unit demo_tracks) (lib_precision demo_tracks)
                (mkCell "metal_cell"
                   (polygons (value_of (mkCell "" [])
                                       (first_cell demo_tracks))
                    ++ map (strap_rect 50 4 110 0) (positions n 0 10))
                 :: [])).
Proof.
  assert (Hp : 0 < 10) by (unfold Qlt; simpl; lia).
  assert (Hc : cells demo_tracks
               = [value_of (mkCell "" []) (first_cell demo_tracks)])
    by (vm_compute; reflexivity).
  split; [exact Hp|]. split; [exact Hc|].
  exact (draw_metal1_straps demo_tracks 50 4 10 60 110 0
           (value_of (mkCell "" []) (first_cell demo_tracks)) [] Hp Hc).
Defined.

Lemma strap_loop_stuck (length_x width pitch total_y : Q) (layer datatype : Z) :
  pitch <= 0 -> width <= total_y ->
  forall fuel cell y,
    y <= 0 ->
    strap_loop fuel cell y length_x width pitch total_y layer datatype = None.
Proof.
  intros Hp Hw. induction fuel as [|fuel IH]; intros cell y Hy; simpl.
  - assert (Hg : qleb (y + width) total_y = true) by (apply qleb_le; lra).
    rewrite Hg. reflexivity.
  - assert (Hg : qleb (y + width) total_y = true) by (apply qleb_le; lra).
    rewrite Hg. apply IH. lra.
Qed.

(** The strap generator checks nothing: on a library without cells it raises
    [IndexError] and in no other case; with a pitch that is not positive and
    a first strap that fits, the loop never ends, whatever the fuel. *)
Theorem draw_metal1_failures (lib : GdsLibrary)
  (length_x width pitch total_y : Q) (layer datatype : Z) :
  (forall fuel,
      draw_metal1 fuel lib length_x width pitch total_y layer datatype
      = Raised IndexError <-> cells lib = []) /\
  (cells lib <> [] -> pitch <= 0 -> width <= total_y ->
   forall fuel,
     draw_metal1 fuel lib length_x width pitch total_y layer datatype
     = OutOfFuel).
Proof.
  split.
  - intros fuel. unfold draw_metal1, first_cell.
    destruct (cells lib) as [|c cs]; [split; reflexivity|].
    destruct (strap_loop fuel c 0 _ _ _ _ _ _); split; discriminate.
  - intros Hc Hp Hw fuel. unfold draw_metal1, first_cell.
    destruct (cells lib) as [|c cs]; [congruence|].
    rewrite (strap_loop_stuck length_x width pitch total_y layer datatype
               Hp Hw fuel c 0); [reflexivity | lra].
Qed.

Lemma draw_metal1_failures_witness :
  draw_metal1 5 empty_lib 50 4 10 60 110 0 = Raised IndexError /\
  cells demo_tracks <> [] /\ 0 <= 0 /\ 4 <= 60 /\
  draw_metal1 1000 demo_tracks 50 4 0 60 110 0 = OutOfFuel.
Proof.
  assert (Hc : cells demo_tracks <> []) by (vm_compute; discriminate).
  assert (Hp : 0 <= 0) by (unfold Qle; simpl; lia).
  assert (Hw : 4 <= 60) by (unfold Qle; simpl; lia).
  split.
  - apply (proj1 (draw_metal1_failures empty_lib 50 4 10 60 110 0) 5%nat).
    reflexivity.
  - split; [exact Hc|]. split; [exact Hp|]. split; [exact Hw|].
    exact (proj2 (draw_metal1_failures demo_tracks 50 4 0 60 110 0)
             Hc Hp Hw 1000%nat).
Defined.

(** ** What the via generator does to the library *)

Lemma via_centers_length `{Externals} (cell : Cell) (spec : ViaGenSpec)
  (rng : Generator) (m1_layer m2_layer : Z) :
  (length (via_centers cell spec rng m1_layer m2_layer)
   <= length (List.filter (size_ok (via_x spec) (via_y spec))
                (_calc_candidates cell m1_layer m2_layer
                   (enclosure_x spec) (enclosure_y spec))))%nat.
Proof.
  unfold via_centers.
  etransitivity; [apply submseteq_length, pitch_clean_submseteq|].
  etransitivity; [apply sublist_length, sample_sublist_filter|].
  rewrite length_map. reflexivity.
Qed.

(** A run of the via generator appends the vias it returns, in their order,
    behind the polygons of the first cell and changes nothing else: the
    name of the cell, the other cells and the units of the library stay.
    Every via carries the via layer and datatype, and there are at most as
    many vias as candidates that pass the size filter. *)
Theorem generate_vias_appends `{Externals} (lib : GdsLibrary)
  (spec : ViaGenSpec) (m1_layer m2_layer : Z)
  (vias : list Polygon) (lib' : GdsLibrary) :
  generate_vias_from_metals lib spec m1_layer m2_layer = Done (vias, lib') ->
  exists cell others,
    cells lib = cell :: others /\
    lib' = mkLib (lib_unit lib) (lib_precision lib)
                 (mkCell (name cell) (polygons cell ++ vias) :: others) /\
    Forall (fun via => poly_layer via = via_layer spec /\
                       poly_datatype via = via_datatype spec) vias /\
    (length vias
     <= length (List.filter (size_ok (via_x spec) (via_y spec))
                  (_calc_candidates cell m1_layer m2_layer
                     (enclosure_x spec) (enclosure_y spec))))%nat.
Proof.
  intros Hrun. apply generate_vias_effect in Hrun.
  destruct Hrun as (cell & others & Hc & Hv & Hl & _).
  exists cell, others. split; [exact Hc|]. split; [exact Hl|]. split.
  - rewrite Hv. apply Forall_map. apply List.Forall_forall.
    intros c _. split; reflexivity.
  - rewrite Hv, length_map. apply via_centers_length.
Qed.

Lemma generate_vias_appends_witness :
  let run := @generate_vias_from_metals demo_externals demo_metal_lib
               demo_via_spec 110 111 in
  let vias := fst (value_of ([], empty_lib) run) in
  let lib' := snd (value_of ([], empty_lib) run) in
  run = Done (vias, lib') /\
  length vias = 6%nat /\
  exists cell others,
    cells demo_metal_lib = cell :: others /\
    lib' = mkLib (lib_unit demo_metal_lib) (lib_precision demo_metal_lib)
                 (mkCell (name cell) (polygons cell ++ vias) :: others).
Proof.
  intros run vias lib'.
  assert (Hrun : run = Done (vias, lib')) by (vm_compute; reflexivity).
  split; [exact Hrun|]. split; [vm_compute; reflexivity|].
  destruct (@generate_vias_appends demo_externals demo_metal_lib
              demo_via_spec 110 111 vias lib' Hrun)
    as (cell & others & Hc & Hl & _).
  exists cell, others. split; assumption.
Defined.

Lemma get_layer_polys_app (cell : Cell) (extra : list Polygon)
  (layer datatype : Z) :
  Forall (fun p => Z.eqb (poly_layer p) layer
                   && Z.eqb (poly_datatype p) datatype = false) extra ->
  _get_layer_polys (mkCell (name cell) (polygons cell ++ extra))
                   layer datatype
  = _get_layer_polys cell layer datatype.
Proof.
  intros H. unfold _get_layer_polys. cbn [polygons].
  rewrite List.filter_app, (filter_all_false _ extra H), app_nil_r.
  reflexivity.
Qed.

Lemma other_key_eqb (layer datatype m_layer : Z) :
  other_key layer datatype m_layer ->
  Z.eqb layer m_layer && Z.eqb datatype 0 = false.
Proof.
  intros [Hl | Hd]; apply andb_false_iff.
  - left. apply Z.eqb_neq. exact Hl.
  - right. apply Z.eqb_neq. exact Hd.
Qed.

Lemma via_centers_app `{Externals} (cell : Cell) (spec : ViaGenSpec)
  (rng : Generator) (m1_layer m2_layer : Z) (extra : list Polygon) :
  other_key (via_layer spec) (via_datatype spec) m1_layer ->
  other_key (via_layer spec) (via_datatype spec) m2_layer ->
  Forall (fun p => poly_layer p = via_layer spec /\
                   poly_datatype p = via_datatype spec) extra ->
  via_centers (mkCell (name cell) (polygons cell ++ extra))
              spec rng m1_layer m2_layer
  = via_centers cell spec rng m1_layer m2_layer.
Proof.
  intros H1 H2 He. unfold via_centers, _calc_candidates.
  rewrite !(get_layer_polys_app cell extra m1_layer 0),
          !(get_layer_polys_app cell extra m2_layer 0);
    [reflexivity | |].
  - eapply List.Forall_impl; [|exact He]. intros p [-> ->].
    apply other_key_eqb. exact H2.
  - eapply List.Forall_impl; [|exact He]. intros p [-> ->].
    apply other_key_eqb. exact H1.
Qed.

(** The via generator keeps no record of what it emitted. When the via layer
    and datatype are not those of a metal query, a second run on the library
    the first run left returns the same vias and adds every one of them to
    the first cell a second time. *)
Theorem generate_vias_twice `{Externals} (lib : GdsLibrary)
  (spec : ViaGenSpec) (m1_layer m2_layer : Z)
  (vias : list Polygon) (lib' : GdsLibrary) :
  other_key (via_layer spec) (via_datatype spec) m1_layer ->
  other_key (via_layer spec) (via_datatype spec) m2_layer ->
  generate_vias_from_metals lib spec m1_layer m2_layer = Done (vias, lib') ->
  exists cell others,
    cells lib = cell :: others /\
    generate_vias_from_metals lib' spec m1_layer m2_layer
    = Done (vias,
            mkLib (lib_unit lib) (lib_precision lib)
                  (mkCell (name cell) (polygons cell ++ vias ++ vias)
                   :: others)).
Proof.
  intros H1 H2 Hrun. apply generate_vias_effect in Hrun.
  destruct Hrun as (cell & others & Hc & Hv & Hl & Hs).
  exists cell, others. split; [exact Hc|].
  assert (Hk : Forall (fun p => poly_layer p = via_layer spec /\
                                poly_datatype p = via_datatype spec) vias).
  { rewrite Hv. apply Forall_map. apply List.Forall_forall.
    intros c _. split; reflexivity. }
  rewrite (generate_vias_run lib' spec m1_layer m2_layer
             (mkCell (name cell) (polygons cell ++ vias)) others);
    [|rewrite Hl; reflexivity | exact Hs].
  rewrite (via_centers_app cell spec _ m1_layer m2_layer vias H1 H2 Hk).
  rewrite <- Hv, Hl. cbn [name polygons lib_unit lib_precision].
  rewrite <- app_assoc. reflexivity.
Qed.

Lemma generate_vias_twice_witness :
  let run := @generate_vias_from_metals demo_externals demo_metal_lib
               demo_via_spec 110 111 in
  let vias := fst (value_of ([], empty_lib) run) in
  let lib' := snd (value_of ([], empty_lib) run) in
  other_key 112 0 110 /\ other_key 112 0 111 /\
  run = Done (vias, lib') /\
  length vias = 6%nat /\
  fst (value_of ([], empty_lib)
         (@generate_vias_from_metals demo_externals lib' demo_via_spec
            110 111)) = vias.
Proof.
  intros run vias lib'.
  assert (H1 : other_key 112 0 110) by (left; discriminate).
  assert (H2 : other_key 112 0 111) by (left; discriminate).
  assert (Hrun : run = Done (vias, lib')) by (vm_compute; reflexivity).
  split; [exact H1|]. split; [exact H2|]. split; [exact Hrun|].
  split; [vm_compute; reflexivity|].
  destruct (@generate_vias_twice demo_externals demo_metal_lib
              demo_via_spec 110 111 vias lib' H1 H2 Hrun)
    as (cell & others & _ & E).
  rewrite E. reflexivity.
Defined.

(** ** Where the columns stand and how far they reach *)

(** [track_body_inv] with the reason of every stop. *)
Lemma track_body_cases (x_base : Q) (spec : MetalGenSpec) (st : TrackState) :
  (track_body x_base spec st = Break st /\
   py_min (max_length spec) (total_y spec - ts_y st) < min_length spec) \/
  exists l rng1,
    let y := ts_y st in
    let cell := cell_add (ts_cell st) (track_rect spec x_base (y, l)) in
    min_length spec <= l /\ l <= max_length spec /\
    y + l <= total_y spec /\
    ((track_body x_base spec st = Break (mkTrackState cell (y + l) rng1) /\
      (total_y spec <= y + l \/
       py_min (max_t2t spec) (total_y spec - (y + l)) < min_t2t spec)) \/
     exists t rng2,
       y + l < total_y spec /\
       min_t2t spec <= t /\ t <= max_t2t spec /\
       y + l + t <= total_y spec /\
       track_body x_base spec st
       = Continue (mkTrackState cell (y + l + t) rng2)).
Proof.
  unfold track_body, track_rect.
  destruct (origin spec) as [xo yo]. simpl fst; simpl snd.
  destruct (qltb (py_min (max_length spec) (total_y spec - ts_y st))
                 (min_length spec)) eqn:Hl;
    [left; split; [reflexivity | apply qltb_lt; exact Hl]|].
  right. apply qltb_ge in Hl.
  pose proof (rand_quantized_ordered (ts_rng st) (min_length spec)
                (py_min (max_length spec) (total_y spec - ts_y st)) 0 Hl)
    as [Hl1 Hl2].
  destruct (_rand_quantized (ts_rng st) (min_length spec)
              (py_min (max_length spec) (total_y spec - ts_y st)) 0)
    as [l rng1]. simpl in Hl1, Hl2.
  exists l, rng1. cbv zeta.
  assert (Hlm : l <= max_length spec /\ ts_y st + l <= total_y spec).
  { destruct (py_min_spec (max_length spec) (total_y spec - ts_y st))
      as [[H1 E] | [H1 E]]; rewrite E in Hl2; split; lra. }
  destruct Hlm as [Hlm Hly].
  split; [exact Hl1|]. split; [exact Hlm|]. split; [exact Hly|].
  destruct (qleb (total_y spec) (ts_y st + l)) eqn:Hy;
    [left; split; [reflexivity | left; apply qleb_le; exact Hy]|].
  apply qleb_gt in Hy.
  destruct (qltb (py_min (max_t2t spec) (total_y spec - (ts_y st + l)))
                 (min_t2t spec)) eqn:Ht;
    [left; split; [reflexivity | right; apply qltb_lt; exact Ht]|].
  right. apply qltb_ge in Ht.
  pose proof (rand_quantized_ordered rng1 (min_t2t spec)
                (py_min (max_t2t spec) (total_y spec - (ts_y st + l)))
                (t2t_grid spec) Ht) as [Ht1 Ht2].
  destruct (_rand_quantized rng1 (min_t2t spec)
              (py_min (max_t2t spec) (total_y spec - (ts_y st + l)))
              (t2t_grid spec)) as [t rng2]. simpl in Ht1, Ht2.
  exists t, rng2.
  destruct (py_min_spec (max_t2t spec) (total_y spec - (ts_y st + l)))
    as [[H1 E] | [H1 E]]; rewrite E in Ht2; repeat split; try lra.
Qed.

Lemma track_loop_name (fuel : nat) (x_base : Q) (spec : MetalGenSpec) :
  forall st st',
    track_loop fuel x_base spec st = Some st' ->
    name (ts_cell st') = name (ts_cell st).
Proof.
  induction fuel as [|fuel IH]; intros st st' H; simpl in H.
  - destruct (qltb (ts_y st) (total_y spec)); [discriminate|].
    injection H as <-. reflexivity.
  - destruct (qltb (ts_y st) (total_y spec)); [|injection H as <-; reflexivity].
    destruct (track_body_inv x_base spec st) as [E | (l & rng1 & Hb)].
    + rewrite E in H. injection H as <-. reflexivity.
    + cbv zeta in Hb. destruct Hb as (_ & _ & _ & [E | (t & rng2 & Hc)]).
      * rewrite E in H. injection H as <-. reflexivity.
      * destruct Hc as (_ & _ & _ & _ & E). rewrite E in H.
        apply IH in H. exact H.
Qed.

Lemma track_loop_reach (fuel : nat) (x_base : Q) (spec : MetalGenSpec) :
  min_t2t spec <= max_t2t spec ->
  0 < min_length spec -> min_length spec <= max_length spec ->
  0 < max_t2t spec ->
  forall st st',
    track_loop fuel x_base spec st = Some st' ->
    exists ivs,
      polygons (ts_cell st')
      = polygons (ts_cell st) ++ map (track_rect spec x_base) ivs /\
      column_ok spec (ts_y st) ivs /\
      match last ivs with
      | Some iv => total_y spec - (fst iv + snd iv)
                   < max_t2t spec + min_length spec
      | None => total_y spec <= ts_y st \/
                total_y spec - ts_y st < min_length spec
      end.
Proof.
  intros Ht2 Hl Hl2 Ht.
  induction fuel as [|fuel IH]; intros st st' H; simpl in H.
  - destruct (qltb (ts_y st) (total_y spec)) eqn:Hy; [discriminate|].
    apply qltb_ge in Hy. injection H as <-. exists [].
    rewrite app_nil_r. split; [reflexivity|].
    split; [constructor | left; exact Hy].
  - destruct (qltb (ts_y st) (total_y spec)) eqn:Hy.
    2:{ apply qltb_ge in Hy. injection H as <-. exists [].
        rewrite app_nil_r. split; [reflexivity|].
        split; [constructor | left; exact Hy]. }
    destruct (track_body_cases x_base spec st)
      as [[E Hr] | (l & rng1 & Hb)].
    + rewrite E in H. injection H as <-. exists [].
      rewrite app_nil_r. split; [reflexivity|]. split; [constructor|].
      right. cbn [last].
      destruct (py_min_spec (max_length spec) (total_y spec - ts_y st))
        as [[H1 E1] | [H1 E1]]; rewrite E1 in Hr; lra.
    + cbv zeta in Hb.
      destruct Hb as (H1 & H2 & H3 & [[E Hr] | (t & rng2 & Hc)]).
      * rewrite E in H. injection H as <-.
        exists [(ts_y st, l)]. split; [reflexivity|].
        split; [apply column_last; lra|]. cbn [last fst snd].
        destruct Hr as [Hr | Hr]; [lra|].
        destruct (py_min_spec (max_t2t spec) (total_y spec - (ts_y st + l)))
          as [[H4 E1] | [H4 E1]]; rewrite E1 in Hr; lra.
      * destruct Hc as (H4 & H5 & H6 & H7 & E). rewrite E in H.
        apply IH in H. destruct H as (ivs & Hp & Hok & Hlast).
        cbn [ts_cell ts_y] in Hp, Hok, Hlast.
        exists ((ts_y st, l) :: ivs). split; [|split].
        -- rewrite Hp. unfold cell_add. cbn [polygons map].
           rewrite <- app_assoc. reflexivity.
        -- apply column_gap with (t := t); try lra. exact Hok.
        -- rewrite last_cons. destruct (last ivs) as [iv|].
           ++ exact Hlast.
           ++ cbn [fst snd]. destruct Hlast as [Hlast | Hlast]; lra.
Qed.

(** The columns of a run, with what is known of each column: where it
    stands, that it fits, and that the loop stopped at a column that would
    not fit. *)
Lemma column_loop_cursor (P : list (Q * Q) -> Prop) (track_fuel : nat)
  (spec : MetalGenSpec) :
  (forall cell x rng cell' rng',
      _draw_one_track_vertical track_fuel cell x spec rng
      = Some (cell', rng') ->
      name cell' = name cell /\
      exists ivs,
        polygons cell' = polygons cell ++ map (track_rect spec x) ivs /\
        P ivs) ->
  forall fuel cell x rng cell',
    column_loop track_fuel fuel spec cell x rng = Some cell' ->
    name cell' = name cell /\
    exists cols,
      polygons cell' = polygons cell ++ concat (map (column_polys spec) cols) /\
      map fst cols = positions (length cols) x (track_pitch spec) /\
      Forall (fun col => fst col + wire_cd spec <= total_x spec /\
                         P (snd col)) cols /\
      total_x spec
      < advance (length cols) x (track_pitch spec) + wire_cd spec.
Proof.
  intros Htrack.
  assert (Hstop : forall cell x,
             qleb (x + wire_cd spec) (total_x spec) = false ->
             name cell = name cell /\
             exists cols,
               polygons cell
               = polygons cell ++ concat (map (column_polys spec) cols) /\
               map fst cols = positions (length cols) x (track_pitch spec) /\
               Forall (fun col => fst col + wire_cd spec <= total_x spec /\
                                  P (snd col)) cols /\
               total_x spec
               < advance (length cols) x (track_pitch spec) + wire_cd spec).
  { intros cell x Hx. apply qleb_gt in Hx. split; [reflexivity|].
    exists []. simpl. rewrite app_nil_r.
    split; [reflexivity|]. split; [reflexivity|].
    split; [constructor | exact Hx]. }
  induction fuel as [|fuel IH]; intros cell x rng cell' H; simpl in H.
  - destruct (qleb (x + wire_cd spec) (total_x spec)) eqn:Hx; [discriminate|].
    injection H as <-. apply Hstop. exact Hx.
  - destruct (qleb (x + wire_cd spec) (total_x spec)) eqn:Hx.
    2:{ injection H as <-. apply Hstop. exact Hx. }
    apply qleb_le in Hx.
    destruct (_draw_one_track_vertical track_fuel cell x spec rng)
      as [[cell1 rng1]|] eqn:E; [|discriminate].
    apply Htrack in E. destruct E as (Hn1 & ivs & Hp1 & HP).
    apply IH in H. destruct H as (Hn & cols & Hp & Hpos & Hall & Hend).
    split; [congruence|].
    exists ((x, ivs) :: cols). split; [|split; [|split]].
    + rewrite Hp, Hp1. simpl. unfold column_polys at 2. simpl.
      rewrite <- app_assoc. reflexivity.
    + simpl. rewrite Hpos. reflexivity.
    + constructor; [split; assumption | exact Hall].
    + exact Hend.
Qed.

Lemma draw_metal_cell_vertical_layout `{Externals} (P : list (Q * Q) -> Prop)
  (entropy : nat -> Q) (fuel : nat) (world : World) (spec : MetalGenSpec)
  (lib : GdsLibrary) :
  (forall cell x rng cell' rng',
      _draw_one_track_vertical fuel cell x spec rng = Some (cell', rng') ->
      name cell' = name cell /\
      exists ivs,
        polygons cell' = polygons cell ++ map (track_rect spec x) ivs /\
        P ivs) ->
  fst (draw_metal_cell_vertical entropy fuel world spec) = Done lib ->
  exists cols,
    lib = mkLib (1 # 1000000000) (1 # 1000000000000)
                [mkCell (cell_name spec)
                        (concat (map (column_polys spec) cols))] /\
    map fst cols = positions (length cols) 0 (track_pitch spec) /\
    Forall (fun col => fst col + wire_cd spec <= total_x spec /\
                       P (snd col)) cols /\
    total_x spec < advance (length cols) 0 (track_pitch spec) + wire_cd spec.
Proof.
  intros Htrack Hrun. apply draw_metal_cell_vertical_inv in Hrun.
  destruct Hrun as (_ & rng & cell' & _ & E & ->).
  apply (column_loop_cursor P fuel spec Htrack) in E.
  destruct E as (Hn & cols & Hpoly & Hpos & Hall & Hend).
  exists cols. split; [|split; [|split]]; try assumption.
  destruct cell' as [nm ps]. simpl in Hn, Hpoly. rewrite Hn, Hpoly.
  reflexivity.
Qed.

Lemma draw_one_track_name (fuel : nat) (cell : Cell) (x_base : Q)
  (spec : MetalGenSpec) (rng : Generator) (cell' : Cell) (rng' : Generator) :
  _draw_one_track_vertical fuel cell x_base spec rng = Some (cell', rng') ->
  name cell' = name cell.
Proof.
  unfold _draw_one_track_vertical. intros H.
  destruct (track_loop fuel x_base spec (mkTrackState cell 0 rng))
    as [st|] eqn:E; [|discriminate].
  injection H as <- <-. apply track_loop_name in E. exact E.
Qed.

(** A run of the track generator that returns gives a library of unit 1e-9
    and precision 1e-12 with one cell, named as the specification says, that
    holds the columns and nothing else. The columns stand where the cursor
    of the column loop stood, from 0 on and one track pitch apart; every
    column fits within [total_x], and the loop went on until a column would
    not: the next position is too far right. *)
Theorem track_columns_positions `{Externals} (entropy : nat -> Q)
  (fuel : nat) (world : World) (spec : MetalGenSpec) (lib : GdsLibrary) :
  fst (draw_metal_cell_vertical entropy fuel world spec) = Done lib ->
  exists cols,
    lib = mkLib (1 # 1000000000) (1 # 1000000000000)
                [mkCell (cell_name spec)
                        (concat (map (column_polys spec) cols))] /\
    map fst cols = positions (length cols) 0 (track_pitch spec) /\
    Forall (fun col => fst col + wire_cd spec <= total_x spec /\
                       column_ok spec 0 (snd col)) cols /\
    total_x spec < advance (length cols) 0 (track_pitch spec) + wire_cd spec.
Proof.
  intros Hrun.
  apply (draw_metal_cell_vertical_layout (column_ok spec 0)
           entropy fuel world spec lib); [|exact Hrun].
  intros cell x rng cell' rng' E. split.
  - eapply draw_one_track_name. exact E.
  - eapply draw_one_track_column. exact E.
Qed.

Lemma track_columns_positions_witness :
  fst (@draw_metal_cell_vertical demo_externals demo_entropy 6 [] demo_spec)
  = Done demo_tracks /\
  exists cols,
    demo_tracks
    = mkLib (1 # 1000000000) (1 # 1000000000000)
            [mkCell (cell_name demo_spec)
                    (concat (map (column_polys demo_spec) cols))] /\
    map fst cols = positions (length cols) 0 (track_pitch demo_spec) /\
    Forall (fun col => fst col + wire_cd demo_spec <= total_x demo_spec /\
                       column_ok demo_spec 0 (snd col)) cols /\
    total_x demo_spec
    < advance (length cols) 0 (track_pitch demo_spec) + wire_cd demo_spec.
Proof.
  assert (Hrun : fst (@draw_metal_cell_vertical demo_externals demo_entropy 6
                        [] demo_spec) = Done demo_tracks)
    by (vm_compute; reflexivity).
  split; [exact Hrun|].
  exact (@track_columns_positions demo_externals demo_entropy 6 [] demo_spec
           demo_tracks Hrun).
Defined.

Lemma column_ok_first (spec : MetalGenSpec) (y : Q) (ivs : list (Q * Q)) :
  column_ok spec y ivs -> ivs <> [] ->
  min_length spec <= total_y spec - y.
Proof.
  intros H Hne. inversion H; subst; [congruence | lra | lra].
Qed.

(** A valid specification fills every column to the top: above the last
    segment of a column there is less room than the widest gap and the
    shortest segment take together, and a column stays without segments
    exactly when the extent is shorter than the shortest segment. *)
Theorem track_columns_filled `{Externals} (entropy : nat -> Q)
  (fuel : nat) (world : World) (spec : MetalGenSpec) (lib : GdsLibrary) :
  valid_metal_spec spec ->
  fst (draw_metal_cell_vertical entropy fuel world spec) = Done lib ->
  exists cols,
    lib = mkLib (1 # 1000000000) (1 # 1000000000000)
                [mkCell (cell_name spec)
                        (concat (map (column_polys spec) cols))] /\
    Forall (fun col => column_ok spec 0 (snd col) /\
                       column_filled spec (snd col) /\
                       (snd col = [] <-> total_y spec < min_length spec))
           cols.
Proof.
  intros (Hw & Hp & Ht & Ht2 & Hl & Hl2 & Hx & Hy) Hrun.
  destruct (draw_metal_cell_vertical_layout
              (fun ivs => column_ok spec 0 ivs /\ column_filled spec ivs /\
                          (ivs = [] <-> total_y spec < min_length spec))
              entropy fuel world spec lib) as (cols & Hlib & _ & Hall & _);
    [|exact Hrun|].
  - intros cell x rng cell' rng' E. split.
    + eapply draw_one_track_name. exact E.
    + unfold _draw_one_track_vertical in E.
      destruct (track_loop fuel x spec (mkTrackState cell 0 rng))
        as [st|] eqn:Et; [|discriminate].
      injection E as <- <-.
      destruct (track_loop_reach fuel x spec Ht2 Hl Hl2 ltac:(lra) _ _ Et)
        as (ivs & Hpoly & Hok & Hlast).
      cbn [ts_cell ts_y] in Hpoly, Hok, Hlast.
      exists ivs. split; [exact Hpoly|]. split; [exact Hok|]. split.
      * unfold column_filled. destruct (last ivs) as [iv|]; [exact Hlast|].
        destruct Hlast as [Hlast | Hlast]; lra.
      * split.
        -- intros ->. cbn [last] in Hlast.
           destruct Hlast as [Hlast | Hlast]; lra.
        -- intros Hshort. destruct ivs as [|iv ivs]; [reflexivity|].
           pose proof (column_ok_first spec 0 (iv :: ivs) Hok
                         ltac:(discriminate)).
           lra.
  - exists cols. split; [exact Hlib|].
    eapply List.Forall_impl; [|exact Hall]. intros col [_ Hc]. exact Hc.
Qed.

Lemma track_columns_filled_witness :
  valid_metal_spec demo_spec /\
  fst (@draw_metal_cell_vertical demo_externals demo_entropy 6 [] demo_spec)
  = Done demo_tracks /\
  exists cols,
    demo_tracks
    = mkLib (1 # 1000000000) (1 # 1000000000000)
            [mkCell (cell_name demo_spec)
                    (concat (map (column_polys demo_spec) cols))] /\
    Forall (fun col => column_filled demo_spec (snd col)) cols.
Proof.
  assert (Hv : valid_metal_spec demo_spec)
    by (unfold valid_metal_spec, Qlt, Qle; simpl; lia).
  assert (Hrun : fst (@draw_metal_cell_vertical demo_externals demo_entropy 6
                        [] demo_spec) = Done demo_tracks)
    by (vm_compute; reflexivity).
  split; [exact Hv|]. split; [exact Hrun|].
  destruct (@track_columns_filled demo_externals demo_entropy 6 [] demo_spec
              demo_tracks Hv Hrun) as (cols & Hl & Hall).
  exists cols. split; [exact Hl|].
  eapply List.Forall_impl; [|exact Hall]. intros col (_ & Hf & _). exact Hf.
Defined.

(** ** The pipeline as a whole *)

(** Tracks, straps and vias in one go. For a valid metal specification and a
    positive strap pitch, with seeds numpy accepts and the name of the cell
    free in the library of the process, the pipeline returns once it has
    fuel for its loops: nothing raises and nothing runs on. The library it
    leaves has one cell, named as the metal specification says, which holds
    the columns, then the straps, then the vias it returns, in this order
    and nothing else; the name of the cell is in the library of the process
    from then on. *)
Theorem pipeline_returns `{Externals} (entropy : nat -> Q) (world : World)
  (spec : MetalGenSpec) (strap : StrapArgs) (via_spec : ViaGenSpec)
  (m1_layer m2_layer : Z) :
  valid_metal_spec spec ->
  0 < strap_pitch strap ->
  seed_ok (seed spec) -> (0 <= via_seed via_spec)%Z ->
  ~ In (cell_name spec) world ->
  exists fuel0, forall fuel, (fuel0 <= fuel)%nat ->
    exists cols n vias,
      pipeline entropy fuel world spec strap via_spec m1_layer m2_layer
      = (Done (vias,
               mkLib (1 # 1000000000) (1 # 1000000000000)
                 [mkCell (cell_name spec)
                    ((concat (map (column_polys spec) cols)
                      ++ map (strap_rect (strap_length_x strap)
                                         (strap_width strap)
                                         (strap_layer strap)
                                         (strap_datatype strap))
                             (positions n 0 (strap_pitch strap)))
                     ++ vias)]),
         cell_name spec :: world) /\
      columns_ok spec 0 cols /\
      Forall (fun y => y + strap_width strap <= strap_total_y strap)
             (positions n 0 (strap_pitch strap)).
Proof.
  intros Hv Hsp Hseed Hvseed Hfree.
  set (n := pitch_count (strap_width strap) (strap_pitch strap)
                        (strap_total_y strap)).
  exists (Nat.max (fuel_bound spec) n). intros fuel Hfuel.
  destruct (default_rng_ok entropy (seed spec) Hseed) as [rng Er].
  destruct (column_loop_within_bound spec (mkCell (cell_name spec) [])
              rng fuel Hv ltac:(lia)) as [cell' E].
  pose proof (column_loop_name spec _ _ _ _ _ _ E) as Hname.
  destruct (column_loop_columns _ _ _ _ _ _ _ E) as (cols & Hpoly & Hcols).
  simpl in Hname, Hpoly.
  destruct (pitch_count_guard (strap_width strap) (strap_pitch strap)
              (strap_total_y strap) Hsp) as [Hin Hout].
  fold n in Hin, Hout.
  exists cols, n. eexists. split; [|split].
  - unfold pipeline.
    rewrite (draw_metal_cell_vertical_run entropy fuel world spec rng
               Hfree Er), E.
    unfold and_then, draw_metal1, first_cell, set_first_cell.
    cbn [cells tl lib_unit lib_precision].
    rewrite (strap_loop_run (strap_length_x strap) (strap_width strap)
               (strap_pitch strap) (strap_total_y strap)
               (strap_layer strap) (strap_datatype strap)
               n fuel cell' 0 ltac:(lia)).
    + match goal with
      | |- context [generate_vias_from_metals ?l _ _ _] =>
          rewrite (generate_vias_run l via_spec m1_layer m2_layer _ []
                     eq_refl Hvseed)
      end.
      cbn [name polygons lib_unit lib_precision].
      rewrite Hname, Hpoly. reflexivity.
    + intros k Hk. specialize (Hin k Hk). lra.
    + intros Hle. apply Hout. lra.
  - exact Hcols.
  - apply positions_fit. intros k Hk. specialize (Hin k Hk). lra.
Qed.

Lemma pipeline_returns_witness :
  valid_metal_spec demo_spec /\
  0 < strap_pitch demo_strap /\
  seed_ok (seed demo_spec) /\ (0 <= via_seed demo_via_spec)%Z /\
  ~ In (cell_name demo_spec) [] /\
  exists fuel0, forall fuel, (fuel0 <= fuel)%nat ->
    exists (cols : list (Q * list (Q * Q))) (n : nat) vias lib,
      @pipeline demo_externals demo_entropy fuel [] demo_spec demo_strap
                demo_via_spec 110 111
      = (Done (vias, lib), [cell_name demo_spec]) /\
      columns_ok demo_spec 0 cols.
Proof.
  assert (Hv : valid_metal_spec demo_spec)
    by (unfold valid_metal_spec, Qlt, Qle; simpl; lia).
  assert (Hp : 0 < strap_pitch demo_strap) by (unfold Qlt; simpl; lia).
  assert (Hs : seed_ok (seed demo_spec)) by (simpl; lia).
  assert (Hvs : (0 <= via_seed demo_via_spec)%Z) by (simpl; lia).
  assert (Hfree : ~ In (cell_name demo_spec) []) by (intros []).
  split; [exact Hv|]. split; [exact Hp|]. split; [exact Hs|].
  split; [exact Hvs|]. split; [exact Hfree|].
  destruct (@pipeline_returns demo_externals demo_entropy [] demo_spec
              demo_strap demo_via_spec 110 111 Hv Hp Hs Hvs Hfree)
    as (fuel0 & Hrun).
  exists fuel0. intros fuel Hfuel.
  destruct (Hrun fuel Hfuel) as (cols & n & vias & E & Hcols & _).
  exists cols, n, vias. eexists. split; [exact E | exact Hcols].
Defined.
